(** * A shallow embedding of the Logo interpreter of [turtle-world/logo.js]

    The development follows the layout of the source file:

    - [JS]        the host language's primitives the interpreter relies on
                  (IEEE doubles, [String], [parseFloat], coercions);
    - values and [List] ([List.stringify], [List.equal], ...);
    - [Scope]     variable scopes, with shared [Binding] cells;
    - the parser  ([Interpreter.parse] and its local functions);
    - the evaluator ([evaluate], [handleArg], [handleOperator], ...), the
      [builtins] table, [performCall], [runTemplate] and [execute];
    - the control surface ([pause], [continue], [break]) as host events;
    - the properties.

    Numbers are Rocq's primitive binary64 floats, i.e. exactly the doubles of
    the host.  Strings are sequences of code units below 256. *)

From Stdlib Require Import ZArith String Ascii List Bool Lia Floats.
From Stdlib Require Import DecimalString.
From stdpp Require Import gmap strings.
Import ListNotations.

Local Open Scope string_scope.
Local Open Scope Z_scope.

(* ===================================================================== *)
(** * Host primitives *)
(* ===================================================================== *)

Module JS.

(** ** Characters *)

Definition code (c : ascii) : Z := Z.of_N (N_of_ascii c).

Definition char_eqb (a b : ascii) : bool := Ascii.eqb a b.

(** [reDigit = /^[0-9]$/] *)
Definition isDigit (c : ascii) : bool := (48 <=? code c) && (code c <=? 57).

Definition digit_value (c : ascii) : Z := code c - 48.

(** The white space and line terminator code units below 256, as trimmed by
    [parseFloat] and by the string-to-number coercion. *)
Definition isStrWhiteSpace (c : ascii) : bool :=
  let n := code c in
  ((9 <=? n) && (n <=? 13)) || (n =? 32) || (n =? 160).

(** ** Doubles *)

Definition is_nan (x : float) : bool := PrimFloat.is_nan x.

(** The double nearest to [n / d] (ties to even), with the given sign;
    [0 <= n] and [0 < d].  The quotient is taken with more than 64 significant
    bits and a sticky bit, then rounded once. *)
Definition of_ratio (neg : bool) (n d : Z) : float :=
  if n =? 0 then (if neg then neg_zero else zero)
  else
    let s := Z.max 0 (66 + Z.log2 d - Z.log2 n) in
    let q := (n * 2 ^ s) / d in
    let r := (n * 2 ^ s) mod d in
    let m := 2 * q + (if r =? 0 then 0 else 1) in
    SF2Prim (binary_normalize prec emax (if neg then - m else m) (- s - 1) false).

Definition of_Z (z : Z) : float := of_ratio (z <? 0) (Z.abs z) 1.

Definition of_nat (n : nat) : float := of_Z (Z.of_nat n).

(** The double nearest to [m * 10^e]. Exponents far outside the range of a
    double are cut short without building the power of ten. *)
Definition of_decimal (neg : bool) (m e : Z) : float :=
  if m =? 0 then (if neg then neg_zero else zero)
  else
    let digits := Z.log2 m / 3 + 1 in
    if 400 <? e then (if neg then neg_infinity else infinity)
    else if e + digits <? -400 then (if neg then neg_zero else zero)
    else if 0 <=? e then of_ratio neg (m * 10 ^ e) 1
    else of_ratio neg m (10 ^ (- e)).

(** Truncation of a finite double toward zero; [None] for NaN and the
    infinities. *)
Definition truncate (x : float) : option Z :=
  match Prim2SF x with
  | S754_zero _ => Some 0
  | S754_finite s m e =>
      let a := if 0 <=? e then Zpos m * 2 ^ e else Z.shiftr (Zpos m) (- e) in
      Some (if s then - a else a)
  | _ => None
  end.

(** [x | 0]: the ToInt32 conversion. *)
Definition toInt32 (x : float) : Z :=
  match truncate x with
  | Some t => let u := t mod 2 ^ 32 in if 2 ^ 31 <=? u then u - 2 ^ 32 else u
  | None => 0
  end.

(** [a % b] on doubles: the remainder of the truncating division, exact,
    with the sign of the dividend. *)
Definition remainder (a b : float) : float :=
  match Prim2SF a, Prim2SF b with
  | S754_nan, _ | _, S754_nan => nan
  | S754_infinity _, _ => nan
  | _, S754_zero _ => nan
  | _, S754_infinity _ => a
  | S754_zero _, _ => a
  | S754_finite sa ma ea, S754_finite _ mb eb =>
      let e := Z.min ea eb in
      let x := Zpos ma * 2 ^ (ea - e) in
      let y := Zpos mb * 2 ^ (eb - e) in
      let r := x mod y in
      if r =? 0 then (if sa then neg_zero else zero)
      else SF2Prim (binary_normalize prec emax (if sa then - r else r) e false)
  end.

(** ** Number to string: [String(x)] for a number *)

Definition string_of_Z (z : Z) : string :=
  NilZero.string_of_uint (N.to_uint (Z.to_N z)).

Fixpoint zeros (n : nat) : string :=
  match n with O => "" | S n' => String "0" (zeros n') end.

Definition substring_from (n : nat) (s : string) : string :=
  String.substring n (String.length s - n) s.

(** [ge_pow10 num den n]: is [num / den >= 10^n] ? *)
Definition ge_pow10 (num den n : Z) : bool :=
  if 0 <=? n then den * 10 ^ n <=? num else den <=? num * 10 ^ (- n).

(** The [n] with [10^(n-1) <= num/den < 10^n]. *)
Definition decimal_exponent (num den : Z) : Z :=
  let est := (Z.log2 num - Z.log2 den) * 30103 / 100000 in
  let up := fix up (k : nat) (n : Z) : Z :=
    match k with
    | O => n
    | S k' => if ge_pow10 num den n then up k' (n + 1) else n
    end in
  let down := fix down (k : nat) (n : Z) : Z :=
    match k with
    | O => n
    | S k' => if ge_pow10 num den (n - 1) then n else down k' (n - 1)
    end in
  down 4%nat (up 4%nat est).

(** The shortest digit string [s] (with [k] digits) and exponent [n] such that
    [s * 10^(n-k)] reads back as the double [m * 2^e]; among the candidates
    with [k] digits the one nearest to the double. *)
Definition shortest_digits (x : float) (num den : Z) : Z * Z * Z :=
  let n := decimal_exponent num den in
  let try := fix try (fuel : nat) (k : Z) : Z * Z * Z :=
    (* scaled value: num/den * 10^(k-n) = a / b *)
    let '(a, b) := if 0 <=? k - n then (num * 10 ^ (k - n), den)
                   else (num, den * 10 ^ (n - k)) in
    let lo := a / b in
    let hi := lo + 1 in
    let ok (s : Z) := PrimFloat.eqb (of_decimal false s (n - k)) x in
    let pick :=
      match ok lo && (10 ^ (k - 1) <=? lo), ok hi with
      | true, true =>
          (* both read back: the nearer one, the even one on a tie *)
          let dlo := a - lo * b in let dhi := hi * b - a in
          if dlo <? dhi then Some lo
          else if dhi <? dlo then Some hi
          else Some (if Z.even lo then lo else hi)
      | true, false => Some lo
      | false, true => Some hi
      | false, false => None
      end in
    match pick, fuel with
    | Some s, _ => if s =? 10 ^ k then (10 ^ (k - 1), k, n + 1) else (s, k, n)
    | None, O => (lo, k, n)
    | None, S fuel' => try fuel' (k + 1)
    end in
  try 17%nat 1.

Definition finite_to_string (x : float) (m : positive) (e : Z) : string :=
  let '(num, den) := if 0 <=? e then (Zpos m * 2 ^ e, 1) else (Zpos m, 2 ^ (- e)) in
  let '(s, k, n) := shortest_digits x num den in
  let ds := string_of_Z s in
  if (k <=? n) && (n <=? 21) then ds ++ zeros (Z.to_nat (n - k))
  else if (0 <? n) && (n <=? 21) then
    String.substring 0 (Z.to_nat n) ds ++ "." ++ substring_from (Z.to_nat n) ds
  else if (-6 <? n) && (n <=? 0) then "0." ++ zeros (Z.to_nat (- n)) ++ ds
  else
    let ex := n - 1 in
    let es := (if ex <? 0 then "-" else "+") ++ string_of_Z (Z.abs ex) in
    if k =? 1 then ds ++ "e" ++ es
    else String.substring 0 1 ds ++ "." ++ substring_from 1 ds ++ "e" ++ es.

Definition number_to_string (x : float) : string :=
  match Prim2SF x with
  | S754_nan => "NaN"
  | S754_zero _ => "0"
  | S754_infinity s => if s then "-Infinity" else "Infinity"
  | S754_finite s m e =>
      (if s then "-" else "") ++ finite_to_string (PrimFloat.abs x) m e
  end.

(** ** String to number *)

(** Leading digits of [s]: their value, their count, and the rest. *)
Fixpoint scan_digits (s : string) (acc : Z) (count : Z) : Z * Z * string :=
  match s with
  | String c s' =>
      if isDigit c then scan_digits s' (acc * 10 + digit_value c) (count + 1)
      else (acc, count, s)
  | EmptyString => (acc, count, s)
  end.

Definition is_e (c : ascii) : bool := char_eqb c "e" || char_eqb c "E".

(** The optional exponent part: taken only when at least one digit follows. *)
Definition scan_exponent (s : string) : Z * string :=
  match s with
  | String c s1 =>
      if is_e c then
        let '(neg, s2) :=
          match s1 with
          | String "-" t => (true, t)
          | String "+" t => (false, t)
          | _ => (false, s1)
          end in
        let '(v, cnt, rest) := scan_digits s2 0 0 in
        if cnt =? 0 then (0, s) else ((if neg then - v else v), rest)
      else (0, s)
  | EmptyString => (0, s)
  end.

(** The longest prefix of [s] that is a signed decimal literal or a signed
    [Infinity]: its value and the rest of the string. *)
Definition scan_decimal (s : string) : option (float * string) :=
  let '(neg, s1) :=
    match s with
    | String "-" t => (true, t)
    | String "+" t => (false, t)
    | _ => (false, s)
    end in
  if String.prefix "Infinity" s1 then
    Some ((if neg then neg_infinity else infinity), substring_from 8 s1)
  else
    let '(ip, icnt, s2) := scan_digits s1 0 0 in
    let '(m, fcnt, s3) :=
      match s2 with
      | String "." t =>
          let '(m, cnt, r) := scan_digits t ip 0 in
          if (icnt =? 0) && (cnt =? 0) then (ip, 0, s2) else (m, cnt, r)
      | _ => (ip, 0, s2)
      end in
    if (icnt =? 0) && (fcnt =? 0) then None
    else
      let '(ex, s4) := scan_exponent s3 in
      Some (of_decimal neg m (ex - fcnt), s4).

Fixpoint skip_whitespace (s : string) : string :=
  match s with
  | String c s' => if isStrWhiteSpace c then skip_whitespace s' else s
  | EmptyString => s
  end.

(** [parseFloat(s)] *)
Definition parseFloat (s : string) : float :=
  match scan_decimal (skip_whitespace s) with
  | Some (x, _) => x
  | None => nan
  end.

Definition string_rev (s : string) : string :=
  string_of_list_ascii (rev (list_ascii_of_string s)).

Definition trim (s : string) : string :=
  string_rev (skip_whitespace (string_rev (skip_whitespace s))).

(** Digits of a radix literal ([0x], [0o], [0b]); [None] on a foreign
    character or when there is no digit. *)
Definition radix_digit (radix : Z) (c : ascii) : option Z :=
  let n := code c in
  let v := if isDigit c then n - 48
           else if (97 <=? n) && (n <=? 102) then n - 87
           else if (65 <=? n) && (n <=? 70) then n - 55
           else 99 in
  if v <? radix then Some v else None.

Fixpoint scan_radix (radix : Z) (s : string) (acc : Z) : option Z :=
  match s with
  | EmptyString => Some acc
  | String c s' =>
      match radix_digit radix c with
      | Some v => scan_radix radix s' (acc * radix + v)
      | None => None
      end
  end.

Definition radix_literal (s : string) : option (option float) :=
  match s with
  | String "0" (String c rest) =>
      let radix :=
        if char_eqb c "x" || char_eqb c "X" then 16
        else if char_eqb c "o" || char_eqb c "O" then 8
        else if char_eqb c "b" || char_eqb c "B" then 2
        else 0 in
      if radix =? 0 then None
      else Some (match rest with
                 | EmptyString => None
                 | _ => option_map of_Z (scan_radix radix rest 0)
                 end)
  | _ => None
  end.

(** The coercion of a string to a number ([Number(s)], unary [+s]). *)
Definition string_to_number (s : string) : float :=
  let t := trim s in
  match t with
  | EmptyString => zero
  | _ =>
      match radix_literal t with
      | Some (Some x) => x
      | Some None => nan
      | None =>
          match scan_decimal t with
          | Some (x, EmptyString) => x
          | _ => nan
          end
      end
  end.

(** ** Strings *)

(** [s.charAt(i)], [s[i]]: [None] is the empty string, resp. [undefined]. *)
Definition charAt (s : string) (i : nat) : option ascii := String.get i s.

Definition char_string (c : ascii) : string := String c EmptyString.

(** [a < b] on strings: by code units. *)
Fixpoint string_ltb (a b : string) : bool :=
  match a, b with
  | _, EmptyString => false
  | EmptyString, String _ _ => true
  | String x a', String y b' =>
      if code x <? code y then true
      else if code y <? code x then false
      else string_ltb a' b'
  end.

End JS.

(* ===================================================================== *)
(** * Values and lists *)
(* ===================================================================== *)

(** A Logo value: number, boolean, word or list.  A [List] record chain is
    the Rocq list of its heads; the empty sentinel is [VList []].  JavaScript's
    [undefined] is the [None] of [option value]: it is never the head of a
    list cell ([new List(undefined)] is refused by the constructor), but it
    can be a return value, the value of a binding, or an argument. *)
#[warnings="-register-all"]
Inductive value :=
| VNum (n : float)
| VBool (b : bool)
| VStr (s : string)
| VList (items : list value).

Abbreviation jsval := (option value).
Abbreviation undefined := (@None value).

Inductive error :=
| SyntaxError (msg : string)
| TypeError (msg : string)
| ReferenceError (msg : string)
| Error (msg : string).

Definition reWhitespace (c : ascii) : bool :=
  JS.char_eqb c " " || JS.char_eqb c "009" || JS.char_eqb c "010" || JS.char_eqb c "013".

Definition reNewline (c : ascii) : bool :=
  JS.char_eqb c "010" || JS.char_eqb c "013".

(** [/^[-+*\/\[\]()<>]$/] *)
Definition reDelimiters (c : ascii) : bool :=
  JS.char_eqb c "-" || JS.char_eqb c "+" || JS.char_eqb c "*" || JS.char_eqb c "/"
  || JS.char_eqb c "[" || JS.char_eqb c "]" || JS.char_eqb c "(" || JS.char_eqb c ")"
  || JS.char_eqb c "<" || JS.char_eqb c ">".

(** [/^[-+*\/<>]$/] *)
Definition reOperators (c : ascii) : bool :=
  JS.char_eqb c "-" || JS.char_eqb c "+" || JS.char_eqb c "*" || JS.char_eqb c "/"
  || JS.char_eqb c "<" || JS.char_eqb c ">".

Definition reDigit (c : ascii) : bool := JS.isDigit c.

(** The [precedence] table; [None] is [undefined]. *)
Definition precedence (op : string) : option nat :=
  if String.eqb op "*" then Some 10%nat
  else if String.eqb op "/" then Some 10%nat
  else if String.eqb op "+" then Some 5%nat
  else if String.eqb op "-" then Some 5%nat
  else if String.eqb op "<" then Some 1%nat
  else if String.eqb op ">" then Some 1%nat
  else if String.eqb op "=" then Some 1%nat
  else None.

Definition isNumber (val : jsval) : bool :=
  match val with Some (VNum _) => true | _ => false end.

Definition isString (val : jsval) : bool :=
  match val with Some (VStr _) => true | _ => false end.

(** The double quote character. *)
Definition dquote : ascii := "034".

Definition isQuoted (val : jsval) : bool :=
  match val with Some (VStr (String c _)) => JS.char_eqb c dquote | _ => false end.

Definition isVariable (val : jsval) : bool :=
  match val with Some (VStr (String ":" _)) => true | _ => false end.

Definition isOperator (val : jsval) : bool :=
  match val with
  | Some (VStr (String c EmptyString)) => reOperators c
  | _ => false
  end.

Definition isProcedure (val : jsval) : bool :=
  if negb (isString val) then false
  else if isQuoted val || isVariable val then false
  else true.

Definition isBoolean (val : jsval) : bool :=
  match val with Some (VBool _) => true | _ => false end.

Definition isWord (val : jsval) : bool :=
  match val with
  | Some (VStr _) | Some (VNum _) | Some (VBool _) => true
  | _ => false
  end.

Definition isList (val : jsval) : bool :=
  match val with Some (VList _) => true | _ => false end.

Definition isLiteral (val : jsval) : bool :=
  isList val || isBoolean val || isNumber val || isQuoted val || isVariable val.

(** [val === str] for a string constant. *)
Definition is_word (val : jsval) (w : string) : bool :=
  match val with Some (VStr s) => String.eqb s w | _ => false end.

Module List_.

(** The loop of [List.stringify] over the items of a list: [str] grows by
    a space, except before the first item, and by the rendering of the
    item. *)
Fixpoint stringify_loop (render : value -> string) (items : list value)
  (first : bool) (str : string) : string :=
  match items with
  | [] => str
  | item :: rest =>
      let str := if first then str else str ++ " " in
      stringify_loop render rest false (str ++ render item)
  end.

(** [List.stringify(val, delimiters)].  The visitation stack of the source
    guards against cyclic records; the records built by the parser and the
    builtins are trees, so that branch is never taken and has no counterpart
    here. *)
Fixpoint stringify (delimiters : string * string) (val : value) : string :=
  match val with
  | VList items =>
      stringify_loop (stringify delimiters) items true (fst delimiters)
      ++ snd delimiters
  | VNum n => JS.number_to_string n
  | VBool b => if b then "true" else "false"
  | VStr s => s
  end.

Definition default_delimiters : string * string := ("[", "]").

(** [String(val)], with [List.prototype.toString] for lists. *)
Definition toString (val : jsval) : string :=
  match val with
  | Some v => stringify default_delimiters v
  | None => "undefined"
  end.

(** [a === b] when at least one side is not a list. *)
Definition strict_equal_atoms (a b : value) : bool :=
  match a, b with
  | VNum x, VNum y => PrimFloat.eqb x y
  | VBool x, VBool y => Bool.eqb x y
  | VStr x, VStr y => String.eqb x y
  | _, _ => false
  end.

(** Head-wise comparison of two trees, words by [===]. *)
Fixpoint equal_heads (a b : value) : bool :=
  match a, b with
  | VList la, VList lb =>
      (fix go (la lb : list value) : bool :=
         match la, lb with
         | [], [] => true
         | x :: la', y :: lb' => equal_heads x y && go la' lb'
         | _, _ => false
         end) la lb
  | _, _ => strict_equal_atoms a b
  end.

(** Two trees that may stand for one and the same record: as [equal_heads],
    but a NaN is like itself. *)
Fixpoint same_shape (a b : value) : bool :=
  match a, b with
  | VList la, VList lb =>
      (fix go (la lb : list value) : bool :=
         match la, lb with
         | [], [] => true
         | x :: la', y :: lb' => same_shape x y && go la' lb'
         | _, _ => false
         end) la lb
  | VNum x, VNum y => PrimFloat.eqb x y || (JS.is_nan x && JS.is_nan y)
  | _, _ => strict_equal_atoms a b
  end.

(** [List.equal(a, b)].  The source first tests [a === b], which for two
    lists is the identity of the records.  Trees carry no identity; the
    answer depends on it only for two lists of the same shape that hold a NaN
    (head-wise unequal, yet equal if they are one record), and for those the
    result is [None]: not determined by the trees. *)
Definition equal (a b : jsval) : option bool :=
  match a, b with
  | None, None => Some true
  | Some x, Some y =>
      if equal_heads x y then Some true
      else if isList a && isList b && same_shape x y then None
      else Some false
  | _, _ => Some false
  end.

(** [thing !== item], for the [item] of a list; [None] when it depends on
    the identity of two list records. *)
Definition strict_not_equal (thing : jsval) (item : value) : option bool :=
  match thing with
  | None => Some true
  | Some (VList []) => Some (negb (match item with VList [] => true | _ => false end))
  | Some (VList l) =>
      match item with
      | VList _ => if same_shape (VList l) item then None else Some true
      | _ => Some true
      end
  | Some x => Some (negb (strict_equal_atoms x item))
  end.

(** [list.count()]: the loop increments a number. *)
Definition count (l : list value) : float :=
  fold_left (fun n _ => PrimFloat.add n 1%float) l 0%float.

End List_.

(* ===================================================================== *)
(** * Scopes and bindings *)
(* ===================================================================== *)

(** A [Binding] is a mutable cell; a [Scope] maps names to cells and has a
    parent.  Lookups go through the prototype chain of the [bindings]
    objects, whose root has a null prototype: the nearest scope that has the
    name as an own property wins.  A scope together with its ancestors is a
    chain of frames, innermost first; the cells live in a store of their own,
    so that one cell can be bound in several scopes (as [global] does). *)
Module Scope.
Section WithValue.

Context {V : Type}.

Record chain := Chain {
  frames : list (gmap string nat);   (* own properties, innermost scope first *)
  cells : gmap nat V;                (* the Binding objects: cell -> value *)
  fresh : nat                        (* the next cell to allocate *)
}.

(** [new Scope()] *)
Definition empty : chain := Chain [∅] ∅ 0.

(** [new Scope(parent)], where [parent] is the innermost scope of [c]. *)
Definition child (c : chain) : chain := Chain (∅ :: frames c) (cells c) (fresh c).

(** The scope [k] levels up: the parent chain of the innermost scope. *)
Definition ancestor (k : nat) (c : chain) : chain :=
  Chain (drop k (frames c)) (cells c) (fresh c).

Fixpoint lookup_frames (fs : list (gmap string nat)) (name : string) : option nat :=
  match fs with
  | [] => None
  | f :: fs' =>
      match f !! name with
      | Some l => Some l
      | None => lookup_frames fs' name
      end
  end.

(** The scope that holds the binding found for [name]: the number of steps
    from the innermost scope up to it. *)
Fixpoint owner_frames (fs : list (gmap string nat)) (name : string) : option nat :=
  match fs with
  | [] => None
  | f :: fs' =>
      match f !! name with
      | Some _ => Some O
      | None => option_map S (owner_frames fs' name)
      end
  end.

Definition owner (c : chain) (name : string) : option nat :=
  owner_frames (frames c) name.

(** [getBinding(name)]: the cell, or [None] for [undefined]. *)
Definition getBinding (c : chain) (name : string) : option nat :=
  lookup_frames (frames c) name.

(** [get(name)]: [None] stands for the ReferenceError. *)
Definition get (c : chain) (name : string) : option V :=
  match getBinding c name with
  | Some l => cells c !! l
  | None => None
  end.

(** [bind(name, binding)]: an own property of the innermost scope. *)
Definition bind (c : chain) (name : string) (l : nat) : chain :=
  match frames c with
  | f :: fs => Chain (<[name := l]> f :: fs) (cells c) (fresh c)
  | [] => c
  end.

(** [new Binding(val)] *)
Definition newBinding (c : chain) (val : V) : nat * chain :=
  (fresh c, Chain (frames c) (<[fresh c := val]> (cells c)) (S (fresh c))).

(** [bindValue(name, val)] *)
Definition bindValue (c : chain) (name : string) (val : V) : chain :=
  let '(l, c') := newBinding c val in bind c' name l.

(** [bind] on the root scope, reached by following [parent]. *)
Fixpoint bind_root (fs : list (gmap string nat)) (name : string) (l : nat)
  : list (gmap string nat) :=
  match fs with
  | [] => []
  | [f] => [<[name := l]> f]
  | f :: fs' => f :: bind_root fs' name l
  end.

(** [set(name, val)] *)
Definition set (c : chain) (name : string) (val : V) : chain :=
  match getBinding c name with
  | Some l => Chain (frames c) (<[l := val]> (cells c)) (fresh c)
  | None =>
      let '(l, c') := newBinding c val in
      Chain (bind_root (frames c') name l) (cells c') (fresh c')
  end.

End WithValue.
Arguments chain : clear implicits.
End Scope.

(* ===================================================================== *)
(** * The parser *)
(* ===================================================================== *)

(** [Interpreter.parse(source)] and its local functions.  The mutable locals
    of [parse] are the parser state: the active builder [parsed], the [stack]
    of suspended builders and the read position [end].  The source map (and
    with it [start], which only feeds the map) records spans for the
    observers and does not influence the list that [parse] returns; it is
    left out.  Every loop of the source takes one unit of fuel per turn. *)
Module Parser.

Record state := State {
  parsed : list value;          (* the items pushed on the active ListBuilder *)
  stack : list (list value);    (* builders saved by [push], innermost first *)
  pos : nat                     (* [end] *)
}.

Inductive result (A : Type) :=
| Ok (a : A) (st : state)
| Throw (e : error)
| OutOfFuel.
Arguments Ok {A}.
Arguments Throw {A}.
Arguments OutOfFuel {A}.

Definition P (A : Type) := state -> result A.

Definition ret {A} (a : A) : P A := fun st => Ok a st.
Definition bind {A B} (m : P A) (f : A -> P B) : P B :=
  fun st => match m st with
            | Ok a st' => f a st'
            | Throw e => Throw e
            | OutOfFuel => OutOfFuel
            end.
Definition throw {A} (e : error) : P A := fun _ => Throw e.
Definition out_of_fuel {A} : P A := fun _ => OutOfFuel.

Notation "x <- m ;; k" := (bind m (fun x => k))
  (at level 100, m at next level, right associativity).
Notation "m ;; k" := (bind m (fun _ => k))
  (at level 100, right associativity).

(** A character read by [charAt]: [None] is the empty string. *)
Definition matches (re : ascii -> bool) (char : option ascii) : bool :=
  match char with Some c => re c | None => false end.

(** [!char]: the empty string is falsy. *)
Definition no_char (char : option ascii) : bool :=
  match char with Some _ => false | None => true end.

Definition is_char (char : option ascii) (c : ascii) : bool :=
  match char with Some c' => JS.char_eqb c' c | None => false end.

Definition char_text (char : option ascii) : string :=
  match char with Some c => JS.char_string c | None => "" end.

Section WithSource.

Variable source : string.

Definition prev : P (option ascii) :=
  fun st => Ok (match pos st with O => None | S i => JS.charAt source i end) st.

Definition peek : P (option ascii) :=
  fun st => Ok (JS.charAt source (pos st)) st.

Definition consume : P unit :=
  fun st => Ok tt (State (parsed st) (stack st) (S (pos st))).

(** [record(val)]: [parsed.push(val)]. *)
Definition record (val : value) : P unit :=
  fun st => Ok tt (State (parsed st ++ [val]) (stack st) (pos st)).

Definition push : P unit :=
  fun st => Ok tt (State [] (parsed st :: stack st) (pos st)).

Definition pop : P (list value) :=
  fun st => match stack st with
            | saved :: rest => Ok (parsed st) (State saved rest (pos st))
            | [] => Throw (TypeError "undefined is not iterable")
            end.

Fixpoint parseComment_loop (fuel : nat) : P unit :=
  match fuel with
  | O => out_of_fuel
  | S fuel' =>
      char <- peek ;;
      consume ;;
      if no_char char || matches reNewline char then ret tt
      else parseComment_loop fuel'
  end.

Definition parseComment (fuel : nat) : P unit :=
  consume ;;                                     (* skip the ";" *)
  parseComment_loop fuel.

(** The three digit loops of [parseNumber]. *)
Fixpoint digits_loop (fuel : nat) (token : string) : P string :=
  match fuel with
  | O => out_of_fuel
  | S fuel' =>
      char <- peek ;;
      if matches reDigit char then
        consume ;; digits_loop fuel' (token ++ char_text char)
      else ret token
  end.

Definition parseNumber (fuel : nat) : P unit :=
  last <- prev ;;
  char <- peek ;;
  (* invariant: char is '-' or a digit *)
  let token := char_text char in
  consume ;;
  next <- peek ;;
  (* Unary minus escape *)
  if String.eqb token "-"
     && (negb (no_char last || matches reWhitespace last)
         || negb (matches reDigit next))
  then record (VStr token)
  else
    (* integer part *)
    token <- digits_loop fuel token ;;
    (* fractional part? *)
    char <- peek ;;
    token <-
      (if is_char char "." then
         consume ;;
         let token := token ++ char_text char in
         char <- peek ;;
         if negb (matches reDigit char) then throw (SyntaxError "Expected decimals")
         else
           let token := token ++ char_text char in
           consume ;;
           digits_loop fuel token
       else ret token) ;;
    char <- peek ;;
    token <-
      (if is_char char "e" then
         (* Exponent part *)
         let token := token ++ char_text char in
         consume ;;
         char <- peek ;;
         token <-
           (if is_char char "-" || is_char char "+" then
              consume ;; ret (token ++ char_text char)
            else ret token) ;;
         digits_loop fuel token
       else ret token) ;;
    char <- peek ;;
    if no_char char || matches reDelimiters char || matches reWhitespace char
    then record (VNum (JS.parseFloat token))
    else ret tt.

Fixpoint parseWord_loop (fuel : nat) (token : string) : P unit :=
  match fuel with
  | O => out_of_fuel
  | S fuel' =>
      char <- peek ;;
      if no_char char || matches reWhitespace char then record (VStr token)
      else if matches reDelimiters char then
        if String.eqb token (JS.char_string dquote)
           && negb (is_char char "[") && negb (is_char char "]")
        then
          (* First quoted delimiter char doesn't have to be escaped
             unless it's a bracket. *)
          consume ;; parseWord_loop fuel' (token ++ char_text char)
        else record (VStr token)
      else if is_char char "\" then
        consume ;;
        char <- peek ;;
        consume ;;
        parseWord_loop fuel' (token ++ char_text char)
      else
        consume ;; parseWord_loop fuel' (token ++ char_text char)
  end.

Definition parseWord (fuel : nat) : P unit := parseWord_loop fuel "".

Fixpoint parseMain (fuel : nat) : P unit :=
  match fuel with
  | O => out_of_fuel
  | S fuel' =>
      char <- peek ;;
      if no_char char then throw (SyntaxError "End of input")
      else if is_char char ";" then parseComment fuel'
      else if is_char char "[" then
        consume ;;                               (* skip the "[" *)
        push ;;
        parseList_loop fuel'
      else if matches reWhitespace char then consume
      else if matches reNewline char then consume
      else if is_char char "-" || matches reDigit char then parseNumber fuel'
      else if is_char char "(" || is_char char ")" then
        consume ;; record (VStr (char_text char))
      else if matches reOperators char then
        consume ;; record (VStr (char_text char))
      else parseWord fuel'
  end

(** The loop of [parseList], after the "[" has been consumed. *)
with parseList_loop (fuel : nat) : P unit :=
  match fuel with
  | O => out_of_fuel
  | S fuel' =>
      char <- peek ;;
      if no_char char then throw (SyntaxError "End of input in list")
      else if is_char char "]" then
        consume ;;
        sublist <- pop ;;
        record (VList sublist)
      else
        parseMain fuel' ;; parseList_loop fuel'
  end.

Fixpoint parse_loop (fuel : nat) : P (list value) :=
  match fuel with
  | O => out_of_fuel
  | S fuel' =>
      char <- peek ;;
      if no_char char then
        (* Done! *)
        fun st => Ok (parsed st) st
      else
        parseMain fuel' ;; parse_loop fuel'
  end.

End WithSource.

Inductive outcome :=
| Parsed (tokens : list value)
| Failed (e : error)
| Diverges.                     (* the fuel ran out *)

Definition parse (fuel : nat) (source : string) : outcome :=
  match parse_loop source fuel (State [] [] 0) with
  | Ok tokens _ => Parsed tokens
  | Throw e => Failed e
  | OutOfFuel => Diverges
  end.

End Parser.

(* ===================================================================== *)
(** * Coercions of the host language on Logo values *)
(* ===================================================================== *)

Module Coerce.

(** ToPrimitive: a list answers with its [toString]. *)
Definition toPrimitive (v : jsval) : jsval :=
  match v with
  | Some (VList l) => Some (VStr (List_.toString v))
  | _ => v
  end.

(** ToNumber *)
Definition toNumber (v : jsval) : float :=
  match toPrimitive v with
  | None => nan
  | Some (VNum n) => n
  | Some (VBool b) => if b then 1%float else 0%float
  | Some (VStr s) => JS.string_to_number s
  | Some (VList _) => nan
  end.

(** ToBoolean: [if (v)], [!v]. *)
Definition truthy (v : jsval) : bool :=
  match v with
  | None => false
  | Some (VNum n) => negb (PrimFloat.eqb n 0%float || JS.is_nan n)
  | Some (VBool b) => b
  | Some (VStr s) => negb (String.eqb s "")
  | Some (VList _) => true
  end.

(** [a + b] *)
Definition add (a b : jsval) : value :=
  let pa := toPrimitive a in
  let pb := toPrimitive b in
  if isString pa || isString pb
  then VStr (List_.toString pa ++ List_.toString pb)
  else VNum (PrimFloat.add (toNumber pa) (toNumber pb)).

(** [a < b] *)
Definition less (a b : jsval) : bool :=
  match toPrimitive a, toPrimitive b with
  | Some (VStr x), Some (VStr y) => JS.string_ltb x y
  | pa, pb => PrimFloat.ltb (toNumber pa) (toNumber pb)
  end.

(** A property key: [bindings[name]] turns [name] into a string. *)
Definition toPropertyKey (v : jsval) : string := List_.toString v.

End Coerce.

(* ===================================================================== *)
(** * The interpreter *)
(* ===================================================================== *)

(** The entries of the [builtins] table.  An alias ([op], [bf], [bl]) is a
    second name for the same function. *)
Inductive builtin :=
| b_true | b_false | b_and | b_or | b_not
| b_word | b_se | b_list | b_fput | b_lput | b_combine | b_reverse | b_count
| b_first | b_last | b_butfirst | b_butlast | b_item | b_remove
| b_print | b_show | b_wait
| b_thing | b_make | b_local | b_global | b_push
| b_plus | b_minus | b_times | b_divide | b_less | b_greater | b_equals
| b_sum | b_difference | b_product | b_quotient | b_remainder
| b_emptyp | b_equalp | b_listp | b_memberp | b_numberp | b_wordp
| b_stop | b_output | b_run | b_runresult | b_repeat | b_forever | b_if | b_ifelse
| b_apply | b_invoke | b_foreach | b_map.

(** The table, in the order of the source, followed by the aliases. *)
Definition builtins : list (string * builtin) :=
  [ ("true", b_true); ("false", b_false); ("and", b_and); ("or", b_or);
    ("not", b_not); ("word", b_word); ("se", b_se); ("list", b_list);
    ("fput", b_fput); ("lput", b_lput); ("combine", b_combine);
    ("reverse", b_reverse); ("count", b_count); ("first", b_first);
    ("last", b_last); ("butfirst", b_butfirst); ("butlast", b_butlast);
    ("item", b_item); ("remove", b_remove); ("print", b_print);
    ("show", b_show); ("wait", b_wait); ("thing", b_thing); ("make", b_make);
    ("local", b_local); ("global", b_global); ("push", b_push);
    ("+", b_plus); ("-", b_minus); ("*", b_times); ("/", b_divide);
    ("<", b_less); (">", b_greater); ("=", b_equals);
    ("sum", b_sum); ("difference", b_difference); ("product", b_product);
    ("quotient", b_quotient); ("remainder", b_remainder);
    ("emptyp", b_emptyp); ("equalp", b_equalp); ("listp", b_listp);
    ("memberp", b_memberp); ("numberp", b_numberp); ("wordp", b_wordp);
    ("stop", b_stop); ("output", b_output); ("run", b_run);
    ("runresult", b_runresult); ("repeat", b_repeat); ("forever", b_forever);
    ("if", b_if); ("ifelse", b_ifelse); ("apply", b_apply);
    ("invoke", b_invoke); ("foreach", b_foreach); ("map", b_map);
    ("op", b_output); ("bf", b_butfirst); ("bl", b_butlast) ].

(** [func.length]: the number of parameters before a rest parameter. *)
Definition builtin_length (b : builtin) : nat :=
  match b with
  | b_true | b_false | b_stop => 0
  | b_not | b_reverse | b_count | b_first | b_last | b_butfirst | b_butlast
  | b_print | b_show | b_wait | b_thing | b_local | b_global
  | b_emptyp | b_listp | b_numberp | b_wordp
  | b_output | b_run | b_runresult | b_forever => 1
  | b_ifelse => 3
  | _ => 2
  end%nat.

Definition builtin_eqb (x y : builtin) : bool :=
  match x, y with
  | b_true, b_true | b_false, b_false | b_and, b_and | b_or, b_or | b_not, b_not
  | b_word, b_word | b_se, b_se | b_list, b_list | b_fput, b_fput
  | b_lput, b_lput | b_combine, b_combine | b_reverse, b_reverse
  | b_count, b_count | b_first, b_first | b_last, b_last
  | b_butfirst, b_butfirst | b_butlast, b_butlast | b_item, b_item
  | b_remove, b_remove | b_print, b_print | b_show, b_show | b_wait, b_wait
  | b_thing, b_thing | b_make, b_make | b_local, b_local | b_global, b_global
  | b_push, b_push | b_plus, b_plus | b_minus, b_minus | b_times, b_times
  | b_divide, b_divide | b_less, b_less | b_greater, b_greater
  | b_equals, b_equals | b_sum, b_sum | b_difference, b_difference
  | b_product, b_product | b_quotient, b_quotient | b_remainder, b_remainder
  | b_emptyp, b_emptyp | b_equalp, b_equalp | b_listp, b_listp
  | b_memberp, b_memberp | b_numberp, b_numberp | b_wordp, b_wordp
  | b_stop, b_stop | b_output, b_output | b_run, b_run
  | b_runresult, b_runresult | b_repeat, b_repeat | b_forever, b_forever
  | b_if, b_if | b_ifelse, b_ifelse | b_apply, b_apply | b_invoke, b_invoke
  | b_foreach, b_foreach | b_map, b_map => true
  | _, _ => false
  end.

(** [func.name]: the key under which the function is first written. *)
Definition builtin_name (b : builtin) : string :=
  match find (fun e => builtin_eqb (snd e) b) builtins with
  | Some (name, _) => name
  | None => ""
  end.

(** A callable of the procedure scope. *)
Inductive func :=
| Builtin (b : builtin)
| UnaryMinus                                           (* [unaryMinus] *)
| Procedure (funcName : string) (argNames : list string) (body : list value).

Definition func_length (f : func) : nat :=
  match f with
  | Builtin b => builtin_length b
  | UnaryMinus => 1
  | Procedure _ argNames _ => length argNames
  end.

Definition func_name (f : func) : string :=
  match f with
  | Builtin b => builtin_name b
  | UnaryMinus => "unaryMinus"
  | Procedure funcName _ _ => funcName
  end.

(** [Context]: an activation record. *)
Record Context := mkContext { output : jsval; stop : bool }.

(** The callbacks that [wait] and [checkBreak] park in [onbreak]; each closes
    over the promise it rejects.  The only callback ever stored in
    [oncontinue] is the one of [checkBreak], which resolves its promise. *)
Inductive callback :=
| TimerBreak (id : nat)      (* of [wait]: clearTimeout(id); reject(reason) *)
| PausedBreak (id : nat).    (* of [checkBreak]: oncontinue = null; reject(reason) *)

(** The fields of an [Interpreter].  The stack [scopes] is the chain
    [variables]: a scope is pushed right after it is created with the
    current scope as its parent, so the stack, top first, is the parent chain
    of the current scope, and [globalScope] is its root.  The procedure scope
    is a single root scope whose cells are never shared, so it is the map
    from names to callables.  The observers are those of a recording host:
    [onprint] appends to [printed], [oncall] to [calls] (name of the callee
    and arguments), [onvalue] to [seen]; each can be absent (null). *)
Record interp := Interp {
  procedureScope : gmap string func;
  variables : Scope.chain jsval;
  contexts : list Context;              (* top first; [globalContext] last *)
  running : bool;
  breakFlag : bool;
  paused : bool;
  onbreak : option callback;
  oncontinue : option nat;              (* the promise that [oncontinue] resolves *)
  promises : nat;                       (* promises created so far *)
  onprint : bool;
  printed : list string;
  oncall : bool;
  calls : list (string * list jsval);
  onvalue : bool;
  seen : list jsval
}.

(** [new Interpreter()], with the given observers installed. *)
Definition Interpreter (onprint oncall onvalue : bool) : interp :=
  {| procedureScope := list_to_map (map (fun e => (fst e, Builtin (snd e))) (rev builtins));
     variables := Scope.empty;
     contexts := [mkContext undefined false];
     running := false; breakFlag := false; paused := false;
     onbreak := None; oncontinue := None; promises := 0;
     onprint := onprint; printed := [];
     oncall := oncall; calls := [];
     onvalue := onvalue; seen := [] |}.

Definition with_procedureScope (f : gmap string func -> gmap string func) (s : interp) : interp :=
  Interp (f (procedureScope s)) (variables s) (contexts s) (running s) (breakFlag s)
    (paused s) (onbreak s) (oncontinue s) (promises s) (onprint s) (printed s)
    (oncall s) (calls s) (onvalue s) (seen s).

Definition with_variables (f : Scope.chain jsval -> Scope.chain jsval) (s : interp) : interp :=
  Interp (procedureScope s) (f (variables s)) (contexts s) (running s) (breakFlag s)
    (paused s) (onbreak s) (oncontinue s) (promises s) (onprint s) (printed s)
    (oncall s) (calls s) (onvalue s) (seen s).

Definition with_contexts (f : list Context -> list Context) (s : interp) : interp :=
  Interp (procedureScope s) (variables s) (f (contexts s)) (running s) (breakFlag s)
    (paused s) (onbreak s) (oncontinue s) (promises s) (onprint s) (printed s)
    (oncall s) (calls s) (onvalue s) (seen s).

Definition with_running (b : bool) (s : interp) : interp :=
  Interp (procedureScope s) (variables s) (contexts s) b (breakFlag s)
    (paused s) (onbreak s) (oncontinue s) (promises s) (onprint s) (printed s)
    (oncall s) (calls s) (onvalue s) (seen s).

Definition with_breakFlag (b : bool) (s : interp) : interp :=
  Interp (procedureScope s) (variables s) (contexts s) (running s) b
    (paused s) (onbreak s) (oncontinue s) (promises s) (onprint s) (printed s)
    (oncall s) (calls s) (onvalue s) (seen s).

Definition with_paused (b : bool) (s : interp) : interp :=
  Interp (procedureScope s) (variables s) (contexts s) (running s) (breakFlag s)
    b (onbreak s) (oncontinue s) (promises s) (onprint s) (printed s)
    (oncall s) (calls s) (onvalue s) (seen s).

Definition with_onbreak (cb : option callback) (s : interp) : interp :=
  Interp (procedureScope s) (variables s) (contexts s) (running s) (breakFlag s)
    (paused s) cb (oncontinue s) (promises s) (onprint s) (printed s)
    (oncall s) (calls s) (onvalue s) (seen s).

Definition with_oncontinue (cb : option nat) (s : interp) : interp :=
  Interp (procedureScope s) (variables s) (contexts s) (running s) (breakFlag s)
    (paused s) (onbreak s) cb (promises s) (onprint s) (printed s)
    (oncall s) (calls s) (onvalue s) (seen s).

Definition with_promises (n : nat) (s : interp) : interp :=
  Interp (procedureScope s) (variables s) (contexts s) (running s) (breakFlag s)
    (paused s) (onbreak s) (oncontinue s) n (onprint s) (printed s)
    (oncall s) (calls s) (onvalue s) (seen s).

Definition with_printed (f : list string -> list string) (s : interp) : interp :=
  Interp (procedureScope s) (variables s) (contexts s) (running s) (breakFlag s)
    (paused s) (onbreak s) (oncontinue s) (promises s) (onprint s) (f (printed s))
    (oncall s) (calls s) (onvalue s) (seen s).

Definition with_calls (f : list (string * list jsval) -> list (string * list jsval))
  (s : interp) : interp :=
  Interp (procedureScope s) (variables s) (contexts s) (running s) (breakFlag s)
    (paused s) (onbreak s) (oncontinue s) (promises s) (onprint s) (printed s)
    (oncall s) (f (calls s)) (onvalue s) (seen s).

Definition with_seen (f : list jsval -> list jsval) (s : interp) : interp :=
  Interp (procedureScope s) (variables s) (contexts s) (running s) (breakFlag s)
    (paused s) (onbreak s) (oncontinue s) (promises s) (onprint s) (printed s)
    (oncall s) (calls s) (onvalue s) (f (seen s)).

(** ** Computations of the interpreter

    The interpreter is written with [async] functions.  An [await] on a promise
    that is already settled goes on without the host getting a turn; the host
    (timers, and calls of [pause], [continue], [break]) gets a turn only
    when the computation waits on a promise that is still pending: the timer
    of [wait], or the promise on which [checkBreak] parks a paused run.  A
    computation therefore returns, throws, or is suspended on such a promise
    with the rest of the computation as its continuation, which is resumed with
    the state the host leaves behind and the way the promise was settled. *)

Inductive gap :=
| OutOfFuel            (* the bound on the number of steps is reached *)
| ObjectIdentity.      (* the answer depends on the identity of list records *)

Inductive settlement := Resolved | Rejected (reason : error).

Inductive pending :=
| Timer (id : nat) (ms : float)   (* [setTimeout(..., ms)] in [wait] *)
| Parked (id : nat).              (* the promise of [checkBreak] while paused *)

Inductive res (A : Type) :=
| Ret (s : interp) (a : A)
| Throw (s : interp) (e : error)
| Await (s : interp) (p : pending) (k : interp -> settlement -> res A)
| Gap (g : gap).
Arguments Ret {A}.
Arguments Throw {A}.
Arguments Await {A}.
Arguments Gap {A}.

Definition M (A : Type) := interp -> res A.

Fixpoint bind_res {A B} (r : res A) (f : A -> M B) : res B :=
  match r with
  | Ret s a => f a s
  | Throw s e => Throw s e
  | Await s p k => Await s p (fun s' o => bind_res (k s' o) f)
  | Gap g => Gap g
  end.

(** [try { ... } finally { fin }] *)
Fixpoint finally_res {A} (r : res A) (fin : interp -> interp) : res A :=
  match r with
  | Ret s a => Ret (fin s) a
  | Throw s e => Throw (fin s) e
  | Await s p k => Await s p (fun s' o => finally_res (k s' o) fin)
  | Gap g => Gap g
  end.

Definition ret {A} (a : A) : M A := fun s => Ret s a.
Definition bind {A B} (m : M A) (f : A -> M B) : M B := fun s => bind_res (m s) f.
Definition throw {A} (e : error) : M A := fun s => Throw s e.
Definition stuck {A} (g : gap) : M A := fun _ => Gap g.
Definition try_finally {A} (m : M A) (fin : interp -> interp) : M A :=
  fun s => finally_res (m s) fin.
Definition read {A} (f : interp -> A) : M A := fun s => Ret s (f s).
Definition update (f : interp -> interp) : M unit := fun s => Ret (f s) tt.

Notation "x <- m ;; k" := (bind m (fun x => k))
  (at level 100, m at next level, right associativity).
Notation "m ;; k" := (bind m (fun _ => k))
  (at level 100, right associativity).

(** A value the trees do not determine. *)
Definition determined {A} (o : option A) : M A :=
  match o with Some a => ret a | None => stuck ObjectIdentity end.

(** [args[i]] *)
Definition arg (args : list jsval) (i : nat) : jsval := nth i args undefined.

(** [new List(head, tail)]: refused for an undefined head, since the one
    empty list exists already. *)
Definition newList (head : jsval) (tail : list value) : M (list value) :=
  match head with
  | Some h => ret (h :: tail)
  | None => throw (TypeError "Only one empty list may be created")
  end.

(** [builder.push(val)] on a [ListBuilder] holding [items]. *)
Definition builder_push (items : list value) (val : jsval) : M (list value) :=
  match val with
  | Some v => ret (items ++ [v])%list
  | None => throw (TypeError "Only one empty list may be created")
  end.

(** [currentContext()] and [currentScope()]; the stacks are never empty, and
    reading a field of [undefined] would be a TypeError. *)
Definition currentContext : M Context :=
  fun s => match contexts s with
           | c :: _ => Ret s c
           | [] => Throw s (TypeError "Cannot read properties of undefined")
           end.

Definition currentScope : M (Scope.chain jsval) :=
  fun s => match Scope.frames (variables s) with
           | _ :: _ => Ret s (variables s)
           | [] => Throw s (TypeError "Cannot read properties of undefined")
           end.

Definition update_context (f : Context -> Context) : M unit :=
  _ <- currentContext ;;
  update (with_contexts (fun cs => match cs with c :: r => f c :: r | [] => [] end)).

Definition update_scope (f : Scope.chain jsval -> Scope.chain jsval) : M unit :=
  _ <- currentScope ;;
  update (with_variables f).

(** [context === this.globalContext] for the current context. *)
Definition atGlobalContext : M bool :=
  read (fun s => match contexts s with [_] => true | _ => false end).

(** [scope.get(name)] on the current scope. *)
Definition scope_get (name : string) : M jsval :=
  scope <- currentScope ;;
  match Scope.getBinding scope name with
  | Some _ => ret (default undefined (Scope.get scope name))
  | None => throw (ReferenceError ("Undeclared variable " ++ name))
  end.

(** [Interpreter.print(str)] *)
Definition print_ (str : string) : M unit :=
  installed <- read onprint ;;
  if installed then update (with_printed (fun out => (out ++ [str])%list))
  else throw (TypeError "Cannot read properties of undefined (reading 'log')").

Definition observe_call (f : func) (args : list jsval) : M unit :=
  installed <- read oncall ;;
  if installed then update (with_calls (fun l => (l ++ [(func_name f, args)])%list))
  else ret tt.

Definition observe_value (v : jsval) : M unit :=
  installed <- read onvalue ;;
  if installed then update (with_seen (fun l => (l ++ [v])%list))
  else ret tt.

Definition settle {A} (a : A) : interp -> settlement -> res A :=
  fun s o => match o with
             | Resolved => Ret s a
             | Rejected reason => Throw s reason
             end.

(** [checkBreak()]: rejects on a requested break, parks while paused. *)
Definition checkBreak : M unit :=
  fun s =>
    if breakFlag s then Throw s (Error "Break requested")
    else if paused s then
      let id := promises s in
      Await (with_onbreak (Some (PausedBreak id))
               (with_oncontinue (Some id)
                  (with_promises (S id) s)))
            (Parked id) (settle tt)
    else Ret s tt.

(** ** The builtin procedures *)

Module Builtins.

Definition num (n : float) : M jsval := ret (Some (VNum n)).
Definition bool_ (b : bool) : M jsval := ret (Some (VBool b)).
Definition str (s : string) : M jsval := ret (Some (VStr s)).
Definition lst (l : list value) : M jsval := ret (Some (VList l)).

(** The characters of a string, as the iteration of a string yields them. *)
Definition chars (s : string) : list value :=
  map (fun c => VStr (JS.char_string c)) (list_ascii_of_string s).

(** [[a, b].concat(rest)] for a function [(a, b, ...rest)] *)
Definition two_and_rest (args : list jsval) : list jsval :=
  [arg args 0; arg args 1] ++ skipn 2 args.

(** [args.unshift(arg1)] for a function [(arg1, ...args)] *)
Definition one_and_rest (args : list jsval) : list jsval :=
  arg args 0 :: skipn 1 args.

(** [Array.from(x)]: [None] when [x] is undefined, which is a TypeError. *)
Definition array_from (x : jsval) : option (list jsval) :=
  match x with
  | None => None
  | Some (VList l) => Some (map Some l)
  | Some (VStr s) => Some (map Some (chars s))
  | Some _ => Some []
  end.

(** [source[Symbol.iterator]()]: lists and strings are iterable. *)
Definition iterate (source : jsval) : option (list value) :=
  match source with
  | Some (VList l) => Some l
  | Some (VStr s) => Some (chars s)
  | _ => None
  end.

Definition true_ (args : list jsval) : M jsval := bool_ true.

Definition false_ (args : list jsval) : M jsval := bool_ false.

Definition and_ (args : list jsval) : M jsval :=
  let a := arg args 0 in
  let b := arg args 1 in
  let rest := skipn 2 args in
  if negb (Coerce.truthy a) then bool_ false
  else if negb (Coerce.truthy b) then bool_ false
  else bool_ (forallb Coerce.truthy rest).

Definition or_ (args : list jsval) : M jsval :=
  let a := arg args 0 in
  let b := arg args 1 in
  let rest := skipn 2 args in
  if Coerce.truthy a then bool_ true
  else if Coerce.truthy b then bool_ true
  else bool_ (existsb Coerce.truthy rest).

Definition not_ (args : list jsval) : M jsval :=
  bool_ (negb (Coerce.truthy (arg args 0))).

Definition word (args : list jsval) : M jsval :=
  let args := two_and_rest args in
  if forallb isWord args
  then str (String.concat "" (map List_.toString args))
  else throw (TypeError "args must be words").

Fixpoint se_loop (args : list jsval) (items : list value) : M (list value) :=
  match args with
  | [] => ret items
  | Some (VList l) :: rest => se_loop rest (items ++ l)
  | a :: rest => items' <- builder_push items a ;; se_loop rest items'
  end.

Definition se (args : list jsval) : M jsval :=
  items <- se_loop (two_and_rest args) [] ;;
  lst items.

(** [List.from(iterable)]: pushes the items one by one. *)
Fixpoint List_from (source : list jsval) (items : list value) : M (list value) :=
  match source with
  | [] => ret items
  | a :: rest => items' <- builder_push items a ;; List_from rest items'
  end.

Definition list_ (args : list jsval) : M jsval :=
  let a := arg args 0 in
  let b := arg args 1 in
  rest <- List_from (skipn 2 args) [] ;;
  tail <- newList b rest ;;
  all <- newList a tail ;;
  lst all.

Definition fput (args : list jsval) : M jsval :=
  let thing := arg args 0 in
  match arg args 1 with
  | Some (VList l) =>
      (* uses existing list as tail *)
      l' <- newList thing l ;; lst l' 
  | _ => throw (TypeError "list must be a list")
  end.

Definition lput (args : list jsval) : M jsval :=
  let thing := arg args 0 in
  match arg args 1 with
  | Some (VList l) =>
      (* copies list *)
      l' <- builder_push l thing ;; lst l' 
  | _ => throw (TypeError "list must be a list")
  end.

Definition combine (args : list jsval) : M jsval :=
  let a := arg args 0 in
  let b := arg args 1 in
  if isString b then word [a; b]
  else if isList b then fput [a; b]
  else throw (TypeError "second arg must be string or list").

Definition reverse (args : list jsval) : M jsval :=
  match arg args 0 with
  | Some (VList l) => lst (rev_append l [])
  | _ => throw (TypeError "list must be a list")
  end.

Definition count (args : list jsval) : M jsval :=
  match arg args 0 with
  | Some (VList l) => num (List_.count l)
  | Some (VStr s) => num (JS.of_nat (String.length s))
  | _ => throw (TypeError "arg must be a word or list")
  end.

Definition first (args : list jsval) : M jsval :=
  match arg args 0 with
  | Some (VStr s) =>
      match s with
      | EmptyString => throw (TypeError "empty string")
      | String c _ => str (JS.char_string c)
      end
  | Some (VList l) =>
      match l with
      | [] => throw (TypeError "empty list")
      | head :: _ => ret (Some head)
      end
  | _ => throw (TypeError "must be a string or list")
  end.

Definition last_ (args : list jsval) : M jsval :=
  match arg args 0 with
  | Some (VStr s) =>
      match s with
      | EmptyString => throw (TypeError "empty string")
      | _ => ret (option_map (fun c => VStr (JS.char_string c))
                    (JS.charAt s (String.length s - 1)))
      end
  | Some (VList l) =>
      match l with
      | [] => throw (TypeError "empty list")
      | _ => ret (List.last (map Some l) undefined)
      end
  | _ => throw (TypeError "must be a string or list")
  end.

Definition butfirst (args : list jsval) : M jsval :=
  match arg args 0 with
  | Some (VStr s) =>
      match s with
      | EmptyString => throw (TypeError "empty string")
      | String _ rest => str rest                      (* arg.substr(1) *)
      end
  | Some (VList l) =>
      match l with
      | [] => throw (TypeError "empty list")
      | _ :: tail => lst tail
      end
  | _ => throw (TypeError "must be a string or list")
  end.

Definition butlast (args : list jsval) : M jsval :=
  match arg args 0 with
  | Some (VStr s) =>
      match s with
      | EmptyString => throw (TypeError "empty string")
      | _ => str ""                (* arg.substr(0, -1): a negative length *)
      end
  | Some (VList l) =>
      match l with
      | [] => throw (TypeError "empty list")
      | _ => lst (removelast l)    (* the cursors that have a tail *)
      end
  | _ => throw (TypeError "butlast requires a list or string")
  end.

(** The search loop of [item] on a list: [n] counts from 1. *)
Fixpoint item_loop (thing : list value) (n index : float) : M jsval :=
  match thing with
  | [] => throw (TypeError "index is beyond list length")
  | x :: rest =>
      if PrimFloat.eqb n index then ret (Some x)
      else item_loop rest (PrimFloat.add n 1%float) index
  end.

Definition item (args : list jsval) : M jsval :=
  match arg args 0 with
  | Some (VNum index) =>
      if PrimFloat.ltb index 0%float then
        throw (TypeError "index must be non-negative")
      else if negb (PrimFloat.eqb index (JS.of_Z (JS.toInt32 index))) then
        throw (TypeError "index must be an integer")
      else
        match arg args 1 with
        | Some (VStr thing) =>
            if PrimFloat.ltb (JS.of_nat (String.length thing)) index then
              throw (TypeError "index is beyond string length")
            else
              (* thing[index] *)
              ret (option_map (fun c => VStr (JS.char_string c))
                     (JS.charAt thing (Z.to_nat (JS.toInt32 index))))
        | Some (VList thing) => item_loop thing 1%float index
        | _ => throw (TypeError "Expected list")
        end
  | _ => throw (TypeError "index must be a number")
  end.

Fixpoint remove_loop (thing : jsval) (l : list value) : M (list value) :=
  match l with
  | [] => ret []
  | x :: rest =>
      keep <- determined (List_.strict_not_equal thing x) ;;
      rest' <- remove_loop thing rest ;;
      ret (if keep : bool then x :: rest' else rest')
  end.

Definition remove (args : list jsval) : M jsval :=
  match arg args 1 with
  | Some (VList l) => l' <- remove_loop (arg args 0) l ;; lst l' 
  | None => throw (TypeError "Cannot read properties of undefined (reading 'filter')")
  | _ => throw (TypeError "list.filter is not a function")
  end.

(** [List.stringify(arg, delimiters)] on an argument that may be undefined. *)
Definition stringify_arg (delimiters : string * string) (a : jsval) : string :=
  match a with
  | Some v => List_.stringify delimiters v
  | None => "undefined"
  end.

Definition print_message (args : list jsval) : string :=
  String.concat " " (map (stringify_arg ("", "")) (one_and_rest args)).

Definition show_message (args : list jsval) : string :=
  String.concat " " (map (stringify_arg ("[", "]")) (one_and_rest args)).

Definition print (args : list jsval) : M jsval :=
  print_ (print_message args) ;; ret undefined.

Definition show (args : list jsval) : M jsval :=
  print_ (show_message args) ;; ret undefined.

(** [wait(frames)]: a promise settled by the timer, or rejected through
    [onbreak]. *)
Definition wait (args : list jsval) : M jsval :=
  fun s =>
    let ms := PrimFloat.div (PrimFloat.mul 1000%float (Coerce.toNumber (arg args 0)))
                60%float in
    let id := promises s in
    Await (with_onbreak (Some (TimerBreak id)) (with_promises (S id) s))
          (Timer id ms) (settle undefined).

Definition thing (args : list jsval) : M jsval :=
  match arg args 0 with
  | Some (VStr name) =>
      scope <- currentScope ;;
      match Scope.getBinding scope name with
      | Some _ => ret (default undefined (Scope.get scope name))
      | None => throw (ReferenceError ("Undefined variable " ++ name))
      end
  | _ => throw (TypeError "Invalid variable name")
  end.

Definition make (args : list jsval) : M jsval :=
  match arg args 0 with
  | Some (VStr name) =>
      update_scope (fun c => Scope.set c name (arg args 1)) ;; ret undefined
  | _ => throw (TypeError "Invalid variable name")
  end.

(** The names given to [local] and [global]: the items of a list given
    first, or the first argument itself, then the other arguments. *)
Definition all_names (args : list jsval) : list jsval :=
  (match arg args 0 with
   | Some (VList l) => map Some l
   | name => [name]
   end) ++ skipn 1 args.

Fixpoint local_loop (all : list jsval) : M unit :=
  match all with
  | [] => ret tt
  | Some (VStr n) :: rest =>
      update_scope (fun c => Scope.bindValue c n undefined) ;;
      local_loop rest
  | _ :: _ => throw (TypeError "Invalid variable name")
  end.

Definition local_ (args : list jsval) : M jsval :=
  local_loop (all_names args) ;; ret undefined.

(** One turn of the loop of [global]: the cell of the root scope, created
    when missing, becomes an own binding of the current scope as well. *)
Definition global_bind (n : string) (c : Scope.chain jsval) : Scope.chain jsval :=
  match Scope.getBinding (Scope.ancestor (length (Scope.frames c) - 1) c) n with
  | Some l => Scope.bind c n l
  | None =>
      let '(l, c1) := Scope.newBinding c undefined in
      let c2 := Scope.Chain (Scope.bind_root (Scope.frames c1) n l)
                  (Scope.cells c1) (Scope.fresh c1) in
      Scope.bind c2 n l
  end.

Fixpoint global_loop (all : list jsval) : M unit :=
  match all with
  | [] => ret tt
  | Some (VStr n) :: rest =>
      update_scope (global_bind n) ;;
      global_loop rest
  | _ :: _ => throw (TypeError "Invalid variable name")
  end.

Definition global_ (args : list jsval) : M jsval :=
  global_loop (all_names args) ;; ret undefined.

Definition push (args : list jsval) : M jsval :=
  let name := arg args 0 in
  let val := arg args 1 in
  old <- scope_get (Coerce.toPropertyKey name) ;;
  match old with
  | Some (VList l) =>
      l' <- newList val l ;;
      (* scope.set(list): the list is the name, the value is missing *)
      update_scope (fun c =>
        Scope.set c (Coerce.toPropertyKey (Some (VList l'))) undefined) ;;
      ret undefined
  | _ => throw (TypeError (List_.toString name ++ " is not a list"))
  end.

(** Infix operators and arithmetic *)

Definition plus (args : list jsval) : M jsval :=
  ret (Some (Coerce.add (arg args 0) (arg args 1))).

Definition minus (args : list jsval) : M jsval :=
  num (PrimFloat.sub (Coerce.toNumber (arg args 0)) (Coerce.toNumber (arg args 1))).

Definition times (args : list jsval) : M jsval :=
  num (PrimFloat.mul (Coerce.toNumber (arg args 0)) (Coerce.toNumber (arg args 1))).

Definition divide (args : list jsval) : M jsval :=
  num (PrimFloat.div (Coerce.toNumber (arg args 0)) (Coerce.toNumber (arg args 1))).

Definition less (args : list jsval) : M jsval :=
  bool_ (Coerce.less (arg args 0) (arg args 1)).

Definition greater (args : list jsval) : M jsval :=
  bool_ (Coerce.less (arg args 1) (arg args 0)).

Definition equals (args : list jsval) : M jsval :=
  b <- determined (List_.equal (arg args 0) (arg args 1)) ;; bool_ b.

Definition remainder (args : list jsval) : M jsval :=
  num (JS.remainder (Coerce.toNumber (arg args 0)) (Coerce.toNumber (arg args 1))).

(** Predicates *)

Definition emptyp (args : list jsval) : M jsval :=
  match arg args 0 with
  | Some (VList l) => bool_ (match l with [] => true | _ => false end)
  | Some (VStr s) => bool_ (String.eqb s "")
  | _ => bool_ false
  end.

Definition listp (args : list jsval) : M jsval := bool_ (isList (arg args 0)).

(** [memberp]: the loop is a [for ... in], which runs over the property
    names of the list record, ["head"] and ["tail"], not over its items. *)
Definition memberp (args : list jsval) : M jsval :=
  let a := arg args 0 in
  if isList (arg args 1) then
    bool_ (is_word a "head" || is_word a "tail")
  else throw (TypeError "list must be a list").

Definition numberp (args : list jsval) : M jsval := bool_ (isNumber (arg args 0)).

Definition wordp (args : list jsval) : M jsval := bool_ (isWord (arg args 0)).

(** Control structures *)

Definition stop_ (args : list jsval) : M jsval :=
  top <- atGlobalContext ;;
  if top then throw (SyntaxError "stop is not allowed at top level")
  else update_context (fun c => mkContext (output c) true) ;; ret undefined.

Definition output_ (args : list jsval) : M jsval :=
  top <- atGlobalContext ;;
  if top then throw (SyntaxError "output is not allowed at top level")
  else
    update_context (fun c => mkContext (output c) true) ;;
    update_context (fun c => mkContext (arg args 0) (stop c)) ;;
    ret undefined.

Section WithInterpreter.

(** [this.evaluate] and [this.runTemplate], and the bound on the turns of
    the loops of [repeat], [forever] and [doMap]. *)
Variable evaluate : jsval -> M jsval.
Variable runTemplate : jsval -> list jsval -> M jsval.
Variable fuel : nat.

Definition run (args : list jsval) : M jsval :=
  let block := arg args 0 in
  if negb (isList block) then throw (TypeError "block must be a list")
  else evaluate block.

Definition runresult (args : list jsval) : M jsval :=
  let block := arg args 0 in
  if negb (isList block) then throw (TypeError "block must be a list")
  else
    result <- evaluate block ;;
    match result with
    | None => lst []                                   (* List.empty *)
    | Some _ => l <- List_from [result] [] ;; lst l    (* List.of(result) *)
    end.

Fixpoint repeat_loop (n : nat) (i times : float) (block : jsval) : M jsval :=
  match n with
  | O => stuck OutOfFuel
  | S n' =>
      if PrimFloat.ltb i times then
        evaluate block ;;
        context <- currentContext ;;
        if stop context then ret undefined
        else repeat_loop n' (PrimFloat.add i 1%float) times block
      else ret undefined
  end.

Definition repeat_ (args : list jsval) : M jsval :=
  match arg args 0 with
  | Some (VNum times) =>
      let block := arg args 1 in
      if negb (isList block) then throw (TypeError "block must be a list")
      else repeat_loop fuel 0%float times block
  | _ => throw (TypeError "times must be a number")
  end.

Fixpoint forever_loop (n : nat) (block : jsval) : M jsval :=
  match n with
  | O => stuck OutOfFuel
  | S n' =>
      evaluate block ;;
      context <- currentContext ;;
      if stop context then ret undefined
      else forever_loop n' block
  end.

Definition forever (args : list jsval) : M jsval :=
  forever_loop fuel (arg args 0).

Definition if_ (args : list jsval) : M jsval :=
  if Coerce.truthy (arg args 0) then evaluate (arg args 1)
  else ret undefined.

(** [ifelse] evaluates [block], which is not a name in scope there. *)
Definition ifelse (args : list jsval) : M jsval :=
  throw (ReferenceError "block is not defined").

(** Template iteration *)

Definition apply (args : list jsval) : M jsval :=
  match array_from (arg args 1) with
  | Some inputs => runTemplate (arg args 0) inputs
  | None => throw (TypeError "undefined is not iterable")
  end.

Definition invoke (args : list jsval) : M jsval :=
  runTemplate (arg args 0) (arg args 1 :: skipn 2 args).

(** The sources and the template of [doMap(data, template, rest)]: with
    further arguments the last one is the template. *)
Definition doMap_sources (data template : jsval) (rest : list jsval)
  : list jsval * jsval :=
  match rev rest with
  | [] => ([data], template)
  | final :: _ => (data :: template :: removelast rest, final)
  end.

(** The loop of [doMap] over the iterators, advanced in lock-step; [acc] is
    the builder of [map], absent for [foreach]. *)
Fixpoint doMap_loop (n : nat) (iters : list (list value)) (template : jsval)
  (acc : option (list value)) : M (option (list value)) :=
  match n with
  | O => stuck OutOfFuel
  | S n' =>
      let anyDone := existsb (fun it => match it with [] => true | _ => false end) iters in
      if anyDone then ret acc
      else
        val <- runTemplate template (map (fun it => hd_error it) iters) ;;
        acc' <- match acc with
                | Some items => items' <- builder_push items val ;; ret (Some items')
                | None => ret None
                end ;;
        doMap_loop n' (map (fun it => tl it) iters) template acc'
  end.

Definition doMap (data template : jsval) (rest : list jsval)
  (acc : option (list value)) : M (option (list value)) :=
  let '(sources, template) := doMap_sources data template rest in
  if forallb (fun src => match iterate src with Some _ => true | None => false end) sources
  then doMap_loop fuel (map (fun src => default [] (iterate src)) sources) template acc
  else throw (TypeError "source[Symbol.iterator] is not a function").

Definition foreach (args : list jsval) : M jsval :=
  doMap (arg args 0) (arg args 1) (skipn 2 args) None ;; ret undefined.

Definition map_ (args : list jsval) : M jsval :=
  r <- doMap (arg args 0) (arg args 1) (skipn 2 args) (Some []) ;;
  lst (default [] r).

(** The function stored under each entry of the table. *)
Definition call (b : builtin) (args : list jsval) : M jsval :=
  match b with
  | b_true => true_ args | b_false => false_ args
  | b_and => and_ args | b_or => or_ args | b_not => not_ args
  | b_word => word args | b_se => se args | b_list => list_ args
  | b_fput => fput args | b_lput => lput args | b_combine => combine args
  | b_reverse => reverse args | b_count => count args
  | b_first => first args | b_last => last_ args
  | b_butfirst => butfirst args | b_butlast => butlast args
  | b_item => item args | b_remove => remove args
  | b_print => print args | b_show => show args | b_wait => wait args
  | b_thing => thing args | b_make => make args
  | b_local => local_ args | b_global => global_ args | b_push => push args
  | b_plus | b_sum => plus args
  | b_minus | b_difference => minus args
  | b_times | b_product => times args
  | b_divide | b_quotient => divide args
  | b_less => less args | b_greater => greater args
  | b_equals | b_equalp => equals args
  | b_remainder => remainder args
  | b_emptyp => emptyp args | b_listp => listp args
  | b_memberp => memberp args | b_numberp => numberp args | b_wordp => wordp args
  | b_stop => stop_ args | b_output => output_ args
  | b_run => run args | b_runresult => runresult args
  | b_repeat => repeat_ args | b_forever => forever args
  | b_if => if_ args | b_ifelse => ifelse args
  | b_apply => apply args | b_invoke => invoke args
  | b_foreach => foreach args | b_map => map_ args
  end.

End WithInterpreter.
End Builtins.

(** ** The evaluator *)

(** [validateCommand(command, binary)] *)
Definition validateCommand (command : jsval) (binary : bool) : M func :=
  (* hack for unary minus *)
  if negb binary && is_word command "-" then ret UnaryMinus
  else
    match command with
    | Some (VStr name) =>
        scope <- read procedureScope ;;
        match scope !! name with
        | Some func => ret func
        | None => throw (TypeError ("Unbound function: " ++ name))
        end
    | _ => throw (SyntaxError ("Invalid command word: " ++ List_.toString command))
    end.

(** [handleLiteral()]: consumes one item of [iter]. *)
Definition handleLiteral (iter : list value) : M (jsval * list value) :=
  let value := hd_error iter in
  let iter := tl iter in
  if isList value || isBoolean value || isNumber value then
    observe_value value ;; ret (value, iter)
  else
    match value with
    | Some (VStr (String first rest)) =>
        if JS.char_eqb first dquote then
          (* String literal *)
          observe_value (Some (VStr rest)) ;; ret (Some (VStr rest), iter)
        else if JS.char_eqb first ":" then
          (* Variable get *)
          val <- scope_get rest ;;
          observe_value val ;; ret (val, iter)
        else throw (SyntaxError ("Unexpected token " ++ List_.toString value))
    | _ => throw (SyntaxError ("Unexpected token " ++ List_.toString value))
    end.

(** The two collecting loops of [handleTo]. *)
Fixpoint collect_arg_names (iter : list value) (args : list string)
  : error + (list string * list value) :=
  match iter with
  | [] => inl (SyntaxError "End of input reading procedure definition")
  | VStr (String ":" name) :: rest => collect_arg_names rest (args ++ [name])
  | _ => inr (args, iter)
  end.

Fixpoint collect_body (iter : list value) (body : list value)
  : error + (list value * list value) :=
  match iter with
  | [] => inl (SyntaxError "End of input reading procedure definition")
  | instruction :: rest =>
      if is_word (Some instruction) "end" then inr (body, rest)   (* consume 'end' *)
      else collect_body rest (body ++ [instruction])
  end.

(** [handleTo()]: returns the cursor after [end]. *)
Definition handleTo (iter : list value) : M (list value) :=
  (* consume "to" *)
  let iter := tl iter in
  match iter with
  | [] => throw (SyntaxError "End of input expecting procedure name")
  | VStr name :: iter =>
      (* Collect any :arg names *)
      match collect_arg_names iter [] with
      | inl e => throw e
      | inr (args, iter) =>
          (* Collect the body instructions *)
          match collect_body iter [] with
          | inl e => throw e
          | inr (body, iter) =>
              let proc := Procedure name args body in
              update (with_procedureScope (fun scope => <[name := proc]> scope)) ;;
              ret iter
          end
      end
  | _ :: _ => throw (SyntaxError "Procedure name must be a word")
  end.

(** [prio < oldprio] and [newprio >= prio]; a comparison with [undefined]
    is false. *)
Definition prio_lt (a b : option nat) : bool :=
  match a, b with Some x, Some y => (x <? y)%nat | _, _ => false end.

Definition prio_ge (a b : option nat) : bool :=
  match a, b with Some x, Some y => (y <=? x)%nat | _, _ => false end.

Definition precedence_of (op : jsval) : option nat :=
  match op with Some (VStr o) => precedence o | _ => None end.

(** The binding of the argument names of a procedure to the actual values,
    in the new scope [c]. *)
Fixpoint bind_arguments (argNames : list string) (index : nat) (args : list jsval)
  (c : Scope.chain jsval) : Scope.chain jsval :=
  match argNames with
  | [] => c
  | name :: rest =>
      bind_arguments rest (S index) args (Scope.bindValue c name (arg args index))
  end.

(** The binding loop of [runTemplate]. *)
Fixpoint bind_template_names (names : list value) (n : nat) (args : list jsval)
  (c : Scope.chain jsval) : error + Scope.chain jsval :=
  match names with
  | [] => inr c
  | name :: rest =>
      if (length args <? n)%nat then
        inl (ReferenceError "Not enough arguments given to template")
      else
        bind_template_names rest (S n) args
          (Scope.bindValue c (Coerce.toPropertyKey (Some name)) (arg args n))
  end.

Definition push_scope_and_context (c : Scope.chain jsval) (s : interp) : interp :=
  with_contexts (fun cs => mkContext undefined false :: cs)
    (with_variables (fun _ => c) s).

Definition pop_scope (s : interp) : interp :=
  with_variables (Scope.ancestor 1) s.

Definition pop_context_and_scope (s : interp) : interp :=
  pop_scope (with_contexts (fun cs => tl cs) s).

Definition stopped : M bool :=
  context <- currentContext ;; ret (stop context).

(** The mutually recursive handlers.  The cursor [iter] of [evaluate] is
    passed to each handler and returned by it.  The captured [scope] and
    [context] of [evaluate] are the current ones whenever its own code runs,
    since every push on the stacks is undone before control comes back. *)
Fixpoint evaluate (fuel : nat) (body : jsval) {struct fuel} : M jsval :=
  match fuel with
  | O => stuck OutOfFuel
  | S fuel' =>
      st <- stopped ;;
      if st then ret undefined
      else
        match body with
        | Some (VList iter) => evaluate_loop fuel' iter undefined
        | _ => throw (TypeError "iter.isEmpty is not a function")
        end
  end

with evaluate_loop (fuel : nat) (iter : list value) (retval : jsval)
  {struct fuel} : M jsval :=
  match fuel with
  | O => stuck OutOfFuel
  | S fuel' =>
      st <- stopped ;;
      if st then ret retval
      else
        match retval, iter with
        | Some _, [] => ret retval
        | Some _, head :: _ =>
            throw (SyntaxError
                     ("Extra instructions after a value-returning expression: "
                      ++ List_.toString (Some head)))
        | None, [] => ret retval
        | None, head :: _ =>
            if is_word (Some head) "to" then
              iter' <- handleTo iter ;;
              evaluate_loop fuel' iter' retval
            else
              r <- handleArg fuel' (Some 0%nat) iter ;;
              evaluate_loop fuel' (snd r) (fst r)
        end
  end

with handleArg (fuel : nat) (prio : option nat) (iter : list value)
  {struct fuel} : M (jsval * list value) :=
  match fuel with
  | O => stuck OutOfFuel
  | S fuel' =>
      r <- (if is_word (hd_error iter) "(" then
              (* Variadic command *)
              handleVariadic fuel' iter
            else if isLiteral (hd_error iter) then handleLiteral iter
            else handleFixed fuel' (Some 0%nat) iter) ;;
      let '(retval, iter) := r in
      if isOperator (hd_error iter) then handleOperator fuel' retval prio iter
      else ret (retval, iter)
  end

with handleOperator (fuel : nat) (leftValue : jsval) (oldprio : option nat)
  (iter : list value) {struct fuel} : M (jsval * list value) :=
  match fuel with
  | O => stuck OutOfFuel
  | S fuel' =>
      let op := hd_error iter in
      let prio := precedence_of op in
      if prio_lt prio oldprio then ret (leftValue, iter)
      else
        func <- validateCommand op true ;;
        let iter := tl iter in
        r <- handleArg fuel' prio iter ;;
        let '(rightValue, iter) := r in
        r <- (if isOperator (hd_error iter) then
                let newprio := precedence_of (hd_error iter) in
                if prio_ge newprio prio then handleOperator fuel' rightValue newprio iter
                else ret (rightValue, iter)
              else ret (rightValue, iter)) ;;
        let '(rightValue, iter) := r in
        let args := [leftValue; rightValue] in
        retval <- performCall fuel' func args ;;
        if isOperator (hd_error iter) then
          let newprio := precedence_of (hd_error iter) in
          (* chain operators *)
          handleOperator fuel' retval newprio iter
        else ret (retval, iter)
  end

with handleVariadic (fuel : nat) (iter : list value)
  {struct fuel} : M (jsval * list value) :=
  match fuel with
  | O => stuck OutOfFuel
  | S fuel' =>
      (* Consume the "(" *)
      let iter := tl iter in
      match iter with
      | [] => throw (SyntaxError "End of input expecting variadic command")
      | _ :: _ =>
          let command := hd_error iter in
          if isProcedure command then
            func <- validateCommand command false ;;
            variadic_loop fuel' command (Some func) undefined [] (tl iter)
          else
            r <- handleArg fuel' (Some 0%nat) iter ;;
            variadic_loop fuel' command None (fst r) [] (snd r)
      end
  end

with variadic_loop (fuel : nat) (command : jsval) (func : option func)
  (literal : jsval) (args : list jsval) (iter : list value)
  {struct fuel} : M (jsval * list value) :=
  match fuel with
  | O => stuck OutOfFuel
  | S fuel' =>
      st <- stopped ;;
      if st then ret (undefined, iter)
      else
        match iter with
        | [] => throw (SyntaxError "End of input expecting variadic arg")
        | head :: rest =>
            if is_word (Some head) ")" then
              let iter := rest in
              match func with
              | Some f =>
                  if (length args <? func_length f)%nat then
                    throw (SyntaxError ("Not enough args to " ++ List_.toString command))
                  else
                    retval <- performCall fuel' f args ;; ret (retval, iter)
              | None =>
                  match args with
                  | _ :: _ => throw (SyntaxError "Got unexpected args to a literal")
                  | [] => ret (literal, iter)
                  end
              end
            else
              r <- handleArg fuel' (Some 0%nat) iter ;;
              match fst r with
              | None =>
                  throw (SyntaxError
                           ("Expected output from arg to " ++ List_.toString command))
              | Some _ =>
                  variadic_loop fuel' command func literal (args ++ [fst r]) (snd r)
              end
        end
  end

with handleFixed (fuel : nat) (prio : option nat) (iter : list value)
  {struct fuel} : M (jsval * list value) :=
  match fuel with
  | O => stuck OutOfFuel
  | S fuel' =>
      (* Fixed-length procedure call or literal *)
      let command := hd_error iter in
      if is_word command ")" then throw (SyntaxError "Unexpected close paren")
      else
        (* Hack for unary - *)
        func <- validateCommand command false ;;
        fixed_loop fuel' prio func [] (tl iter)
  end

with fixed_loop (fuel : nat) (prio : option nat) (func : func)
  (args : list jsval) (iter : list value) {struct fuel} : M (jsval * list value) :=
  match fuel with
  | O => stuck OutOfFuel
  | S fuel' =>
      st <- stopped ;;
      if st then ret (undefined, iter)
      else if (func_length func <=? length args)%nat then
        retval <- performCall fuel' func args ;; ret (retval, iter)
      else
        match iter with
        | [] => throw (SyntaxError "End of input expecting fixed arg")
        | head :: _ =>
            if is_word (Some head) ")" then throw (SyntaxError "Unexpected close paren")
            else
              r <- handleArg fuel' prio iter ;;
              match fst r with
              | None =>
                  throw (SyntaxError ("Expected output from arg to " ++ func_name func))
              | Some _ => fixed_loop fuel' prio func (args ++ [fst r]) (snd r)
              end
        end
  end

(** [performCall(func, args)]: the break point, the observers, and
    [func.apply(this, args)]. *)
with performCall (fuel : nat) (func : func) (args : list jsval)
  {struct fuel} : M jsval :=
  match fuel with
  | O => stuck OutOfFuel
  | S fuel' =>
      checkBreak ;;
      observe_call func args ;;
      retval <-
        match func with
        | Builtin b => Builtins.call (evaluate fuel') (runTemplate fuel') fuel' b args
        | UnaryMinus => ret (Some (VNum (PrimFloat.opp (Coerce.toNumber (arg args 0)))))
        | Procedure funcName argNames body =>
            (* the function made by [procedure(funcName, argNames, body)] *)
            parentScope <- read variables ;;
            (* Locally bind the arguments *)
            let scope := bind_arguments argNames 0 args (Scope.child parentScope) in
            update (push_scope_and_context scope) ;;
            try_finally
              (evaluate fuel' (Some (VList body)) ;;
               context <- currentContext ;;
               ret (output context))
              pop_context_and_scope
        end ;;
      match retval with
      | Some _ => observe_value retval ;; ret retval
      | None => ret retval
      end
  end

with runTemplate (fuel : nat) (template : jsval) (args : list jsval)
  {struct fuel} : M jsval :=
  match fuel with
  | O => stuck OutOfFuel
  | S fuel' =>
      match template with
      | Some (VStr name) =>
          (* word -> command *)
          scope <- read procedureScope ;;
          match scope !! name with
          | Some func => performCall fuel' func args
          | None => throw (ReferenceError ("Unbound template command " ++ name))
          end
      | Some (VList []) => ret undefined
      | Some (VList (VList names :: template)) =>
          (* arg names *)
          parentScope <- read variables ;;
          match bind_template_names names 0 args (Scope.child parentScope) with
          | inl e => throw e
          | inr scope =>
              update (with_variables (fun _ => scope)) ;;
              try_finally (evaluate fuel' (Some (VList template))) pop_scope
          end
      | Some (VList (_ :: _)) =>
          (* no arg names *)
          throw (TypeError "Template must have arguments")
      | _ => throw (TypeError "Template must be command or list")
      end
  end.

(** [execute(source)]: parse and execute a string in the global context. *)
Definition execute (fuel : nat) (source : string) : M unit :=
  fun s =>
    if running s then Throw s (Error "Logo code is already running")
    else
      match Parser.parse fuel source with
      | Parser.Failed e => Throw s e
      | Parser.Diverges => Gap OutOfFuel
      | Parser.Parsed parsed =>
          try_finally
            (retval <- evaluate fuel (Some (VList parsed)) ;;
             match retval with
             | Some _ =>
                 throw (SyntaxError ("Unhandled output value " ++ List_.toString retval))
             | None => ret tt
             end)
            (* Clean up flags *)
            (fun s => with_running false (with_breakFlag false s))
            (with_running true s)
      end.

(* ===================================================================== *)
(** * The control surface *)
(* ===================================================================== *)

(** While [execute] waits on a pending promise the host gets its turn: the
    timer of [wait] fires, or the host calls [pause], [continue] or [break].
    A turn changes the fields of the interpreter, may throw to the host, and
    may settle promises through the callbacks it calls; a promise keeps its
    first settlement. *)
Module Host.

Record turn := Turn {
  after : interp;
  thrown : option error;                      (* thrown to the caller *)
  settled : list (nat * settlement)           (* in the order of the calls *)
}.

(** [this.onbreak(reason)] *)
Definition call_onbreak (cb : callback) (reason : error) (s : interp)
  : interp * list (nat * settlement) :=
  match cb with
  | TimerBreak id => (s, [(id, Rejected reason)])
  | PausedBreak id => (with_oncontinue None s, [(id, Rejected reason)])
  end.

(** The callback of [setTimeout] in [wait]. *)
Definition timer_fires (id : nat) (s : interp) : turn :=
  Turn (with_onbreak None s) None [(id, Resolved)].

Definition pause (s : interp) : turn :=
  if negb (running s) then Turn s (Some (Error "Cannot pause when not running")) []
  else if paused s then Turn s (Some (Error "Already paused")) []
  else Turn (with_paused true s) None [].

Definition continue (s : interp) : turn :=
  if negb (running s) then Turn s (Some (Error "Cannot continue when not running")) []
  else if negb (paused s) then Turn s (Some (Error "Cannot continue when not paused")) []
  else
    let s := with_paused false s in
    match oncontinue s with
    | Some id => Turn s None [(id, Resolved)]
    | None => Turn s (Some (TypeError "this.oncontinue is not a function")) []
    end.

Definition break (s : interp) : turn :=
  if negb (running s) then Turn s (Some (Error "Cannot break when not running")) []
  else if breakFlag s then Turn s (Some (Error "Already breaking")) []
  else
    (* Interpreter loop will check this flag *)
    let s := with_breakFlag true s in
    let '(s, rejected) :=
      match onbreak s with
      | Some cb => call_onbreak cb (Error "Break requested") s
      | None => (s, [])
      end in
    if paused s then
      let t := continue s in
      Turn (after t) (thrown t) (rejected ++ settled t)
    else Turn s None rejected.

Inductive event := TimerFires | Pause | Continue | Break.

Definition pending_id (p : pending) : nat :=
  match p with Timer id _ => id | Parked id => id end.

Definition first_settlement (id : nat) (l : list (nat * settlement)) : option settlement :=
  option_map snd (find (fun e => Nat.eqb (fst e) id) l).

(** The turn taken on a suspended computation; the continuation runs once
    the turn is over, if the turn settled the promise it waits on. *)
Definition take_turn {A} (t : interp -> turn) (r : res A) : res A :=
  match r with
  | Await s p k =>
      match first_settlement (pending_id p) (settled (t s)) with
      | Some o => k (after (t s)) o
      | None => Await (after (t s)) p k
      end
  | _ => r
  end.

Definition deliver {A} (ev : event) (r : res A) : res A :=
  match ev with
  | TimerFires =>
      match r with
      | Await _ (Timer id _) _ => take_turn (timer_fires id) r
      | _ => r
      end
  | Pause => take_turn pause r
  | Continue => take_turn continue r
  | Break => take_turn break r
  end.

Definition after_events {A} (evs : list event) (r : res A) : res A :=
  fold_left (fun r ev => deliver ev r) evs r.

End Host.




(* ===================================================================== *)
(** * Observations, interpreters and inputs of the examples *)
(* ===================================================================== *)

(** What a finished computation leaves to look at: a projection of the
    final state, and the error when it failed. *)
Definition on_return {A B} (f : interp -> B) (r : res A) : option B :=
  match r with Ret s _ => Some (f s) | _ => None end.

Definition on_throw {A B} (f : interp -> B) (r : res A) : option (error * B) :=
  match r with Throw s e => Some (e, f s) | _ => None end.

(** The interpreter as the embedder of the repository sets it up: [onprint]
    installed, no [oncall], no [onvalue]. *)
Definition host : interp := Interpreter true false false.

(** The same with a tracing [oncall]. *)
Definition tracing_host : interp := Interpreter true true false.

(** The source text [s1], a double quote, [s2]. *)
Definition quoted (s1 s2 : string) : string := s1 ++ String dquote s2.

(** A chain of three scopes: [x] is bound in the middle one. *)
Definition sample_chain : Scope.chain jsval :=
  Scope.Chain [∅; {[ "x" := 7%nat ]}; ∅] {[ 7%nat := Some (VNum 1) ]} 8.

(** The rendering that the specification describes for an argument of
    [print]: a list given as argument loses its brackets, the lists nested in
    it keep theirs. *)
Definition print_rendering_of_spec (a : jsval) : string :=
  match a with
  | Some (VList items) =>
      String.concat " " (map (List_.stringify ("[", "]")) items)
  | _ => Builtins.stringify_arg ("[", "]") a
  end.

Definition print_message_of_spec (args : list jsval) : string :=
  String.concat " " (map print_rendering_of_spec (Builtins.one_and_rest args)).

Definition nested_sample : value :=
  VList [VStr "a"; VList [VStr "b"; VStr "c"]; VStr "d"].

Definition number (x : float) : jsval := Some (VNum x).

Definition repeat_block : value :=
  VList [VStr "print"; VNum 1; VStr "stop"; VStr "print"; VNum 2].

(** The numbers that the loop of [item] counts through, from [start]. *)
Fixpoint count_from (start : float) (j : nat) : float :=
  match j with
  | O => start
  | S j' => count_from (PrimFloat.add start 1%float) j'
  end.

Definition abc : jsval := Some (VStr "abc").
Definition list_abc : jsval := Some (VList [VStr "a"; VStr "b"; VStr "c"]).

(* ===================================================================== *)
(** * Notions of the further properties *)
(* ===================================================================== *)

(** ** Scopes and stacks

    The chain of scopes binds cells of a store; the notions below say
    what a piece of the interpreter leaves of the chain and of the stack of
    contexts when it is over. *)

(** Every cell that a scope of the chain binds has been allocated. *)
Definition cells_allocated {V} (c : Scope.chain V) : Prop :=
  forall f name l, In f (Scope.frames c) -> f !! name = Some l -> (l < Scope.fresh c)%nat.

(** The root of the chain: [globalScope] for the chain of the interpreter. *)
Definition root_scope {V} (c : Scope.chain V) : Scope.chain V :=
  Scope.ancestor (length (Scope.frames c) - 1) c.

(** The context stack [cs'] against [cs]: the contexts below the current
    one are the same, and a stack that holds the global context only is
    untouched. *)
Definition contexts_kept (cs cs' : list Context) : Prop :=
  tl cs' = tl cs /\ length cs' = length cs /\ (length cs = 1%nat -> cs' = cs).

(** The two stacks of [s'] against those of [s]: the contexts are kept, and
    there are as many scopes. *)
Definition stacks_kept (s s' : interp) : Prop :=
  contexts_kept (contexts s) (contexts s')
  /\ length (Scope.frames (variables s')) = length (Scope.frames (variables s)).

(** A host that leaves the two stacks alone while the interpreter waits. *)
Definition stacks_untouched (s s' : interp) : Prop :=
  contexts s' = contexts s /\ variables s' = variables s.

(** A computation all of whose ends, after whatever waits with a host that
    leaves the stacks alone, are in states that satisfy [P]. *)
Inductive ends_in {A} (P : interp -> Prop) : res A -> Prop :=
| ends_ret s a : P s -> ends_in P (Ret s a)
| ends_throw s e : P s -> ends_in P (Throw s e)
| ends_await s p k :
    (forall s' o, stacks_untouched s s' -> ends_in P (k s' o)) ->
    ends_in P (Await s p k)
| ends_gap g : ends_in P (Gap g).

(** What every piece of the interpreter keeps: the stacks, and the fact
    that the scopes bind allocated cells only. *)
Definition kept (s s' : interp) : Prop :=
  stacks_kept s s'
  /\ (cells_allocated (variables s) -> cells_allocated (variables s')).

(** A computation that keeps the state it starts from, in the sense of
    [kept]. *)
Definition keeps {A} (m : M A) : Prop := forall s, ends_in (kept s) (m s).

(** The state in which a computation settles when the host leaves the stacks
    alone while it waits. *)
Inductive settles_quietly {A} : res A -> interp -> Prop :=
| quietly_ret s a : settles_quietly (Ret s a) s
| quietly_throw s e : settles_quietly (Throw s e) s
| quietly_await s p k s' o sf :
    stacks_untouched s s' ->
    settles_quietly (k s' o) sf -> settles_quietly (Await s p k) sf.

(** A computation that is over, in state [sf]. *)
Definition finished {A} (r : res A) (sf : interp) : Prop :=
  match r with
  | Ret s _ | Throw s _ => s = sf
  | _ => False
  end.

(** The whole stack of contexts is the same. *)
Definition same_contexts (s s' : interp) : Prop := contexts s' = contexts s.

(** ** Lists, templates, calls and the control surface *)

(** The items that an argument of [se] contributes. *)
Definition sentence_items (v : value) : list value :=
  match v with VList l => l | _ => [v] end.

(** An item that [remove] keeps for the word [t]. *)
Definition differs_from (t : value) (x : value) : bool :=
  negb (List_.strict_equal_atoms t x).

(** A value that holds no number: words, booleans and lists of such. *)
Fixpoint number_free (v : value) : bool :=
  match v with
  | VNum _ => false
  | VList l => forallb number_free l
  | _ => true
  end.

(** The token [:name]. *)
Definition colon_word (name : string) : value := VStr (String ":" name).

(** An item that ends the list of argument names of [to]. *)
Definition not_colon_word (v : value) : bool :=
  match v with VStr (String ":" _) => false | _ => true end.

(** The number [x] as an argument. *)
Definition number_argument (x : float) : jsval := Some (VNum x).

(** The state in which [checkBreak] leaves a paused interpreter parked. *)
Definition parked (s : interp) : interp :=
  with_onbreak (Some (PausedBreak (promises s)))
    (with_oncontinue (Some (promises s)) (with_promises (S (promises s)) s)).

(** A call that the control surface refuses: the error it throws, the
    interpreter left as it was, and no promise settled. *)
Definition refused (t : Host.turn) (s : interp) (msg : string) : Prop :=
  Host.thrown t = Some (Error msg) /\ Host.after t = s /\ Host.settled t = [].

(** ** The text of a source *)

(** The source reads [t] from position [p] on, up to its end. *)
Definition reads (source : string) (p : nat) (t : string) : Prop :=
  forall i, String.get (p + i) source = String.get i t.

(** A character that [parseWord] adds to its token as it is. *)
Definition plain_char (c : ascii) : bool :=
  negb (reWhitespace c) && negb (reDelimiters c) && negb (JS.char_eqb c "\").

(** A run of such characters. *)
Fixpoint all_plain (w : string) : bool :=
  match w with
  | EmptyString => true
  | String c w' => plain_char c && all_plain w'
  end.

(** A word that [parseMain] hands to [parseWord] and that [parseWord] reads
    as it is written: it starts with no digit and no semicolon. *)
Definition plain_word (w : string) : bool :=
  match w with
  | EmptyString => false
  | String c w' =>
      plain_char c && negb (reDigit c) && negb (JS.char_eqb c ";") && all_plain w'
  end.

(** Words of that kind, and lists of them, nested at will. *)
Fixpoint plain (v : value) : bool :=
  match v with
  | VStr w => plain_word w
  | VList l => forallb plain l
  | _ => false
  end.

(** What ends a word: the end of the source, white space or a bracket. *)
Definition ends_word (rest : string) : bool :=
  match rest with
  | EmptyString => true
  | String c _ => reWhitespace c || JS.char_eqb c "[" || JS.char_eqb c "]"
  end.

(** The text of a list after its opening bracket. *)
Fixpoint items_text (items : list value) : string :=
  match items with
  | [] => "]"
  | x :: rest =>
      List_.stringify List_.default_delimiters x
      ++ match rest with
         | [] => "]"
         | _ :: _ => " " ++ items_text rest
         end
  end.

(** What [show] prints for a value. *)
Definition shown (v : value) : string := List_.stringify List_.default_delimiters v.

(** [parseMain], at a position from which the source reads the rendering
    of [v] and then something that ends a word, records [v] and stops behind
    the rendering. *)
Definition parsed_back (source : string) (v : value) : Prop :=
  forall fuel st rest,
    ends_word rest = true ->
    reads source (Parser.pos st) (shown v ++ rest) ->
    (String.length (shown v) + 2 <= fuel)%nat ->
    Parser.parseMain source fuel st
    = Parser.Ok tt (Parser.State (Parser.parsed st ++ [v]) (Parser.stack st)
                      (Parser.pos st + String.length (shown v))).

(** A run of digits. *)
Fixpoint all_digits (ds : string) : bool :=
  match ds with
  | EmptyString => true
  | String c ds' => reDigit c && all_digits ds'
  end.

(** What may follow the digits of an integer literal for [parseNumber] to
    stop reading: no digit, no decimal point and no exponent. *)
Definition ends_digits (rest : string) : bool :=
  match rest with
  | EmptyString => true
  | String c _ => negb (reDigit c) && negb (JS.char_eqb c ".") && negb (JS.char_eqb c "e")
  end.

(** What makes [parseNumber] record the number it has read. *)
Definition ends_number (rest : string) : bool :=
  match rest with
  | EmptyString => true
  | String c _ => reDelimiters c || reWhitespace c
  end.

(** The text of a comment: no line break in it. *)
Fixpoint on_one_line (text : string) : bool :=
  match text with
  | EmptyString => true
  | String c text' => negb (reNewline c) && on_one_line text'
  end.

(** The line feed character. *)
Definition line_feed : ascii := "010".

(** A word written with a backslash before each of its characters. *)
Fixpoint escaped (w : string) : string :=
  match w with
  | EmptyString => EmptyString
  | String c w' => String "\" (String c (escaped w'))
  end.

(** The items of a list as [show] prints them, without the brackets. *)
Fixpoint open_text (items : list value) : string :=
  match items with
  | [] => ""
  | x :: rest =>
      shown x
      ++ match rest with
         | [] => ""
         | _ :: _ => " " ++ open_text rest
         end
  end.

(** ** Inputs of the instances *)

(** An interpreter in the middle of a run. *)
Definition running_host : interp := with_running true host.

(** A procedure that waits, to be broken by the host. *)
Definition waiting_procedure : func := Procedure "f" ["x"] [VStr "wait"; VStr ":x"].

(** The template [[x] print :x]. *)
Definition printing_template : jsval :=
  Some (VList [VList [VStr "x"]; VStr "print"; VStr ":x"]).

(** A procedure that stops at once. *)
Definition stopping_procedure : func := Procedure "f" [] [VStr "stop"].

(** The scope of a procedure called from the top level, where the global [x]
    is 1. *)
Definition inner_chain : Scope.chain jsval :=
  Scope.child (Scope.bindValue Scope.empty "x" (Some (VNum 1))).

(** An interpreter whose current scope is that one. *)
Definition in_a_procedure : interp := with_variables (fun _ => inner_chain) host.

(** A paused interpreter in the middle of a run. *)
Definition paused_host : interp := with_paused true running_host.



(** The body of [to sq :n output :n * :n end]. *)
Definition square_body : list value := [VStr "output"; VStr ":n"; VStr "*"; VStr ":n"].

(** An interpreter whose variable [xs] holds a list. *)
Definition holding_a_list : interp :=
  with_variables
    (fun _ => Scope.bindValue Scope.empty "xs" (Some (VList [VStr "a"; VStr "b"]))) host.

(* ===================================================================== *)
(** * Properties *)
(* ===================================================================== *)

(** ** Running the model *)

Lemma on_return_some {B} (f : interp -> B) (r : res unit) (b : B) :
  on_return f r = Some b -> exists s, r = Ret s tt /\ f s = b.
Proof.
  destruct r as [s [] | s e | s p k | g]; simpl; intros H; try discriminate.
  exists s. split; [reflexivity | congruence].
Qed.

Lemma on_throw_some {A B} (f : interp -> B) (r : res A) (e : error) (b : B) :
  on_throw f r = Some (e, b) -> exists s, r = Throw s e /\ f s = b.
Proof.
  destruct r as [s a | s e' | s p k | g]; simpl; intros H; try discriminate.
  exists s. split; congruence.
Qed.

Ltac split_pairs :=
  repeat match goal with
         | H : (_, _) = (_, _) |- _ => apply pair_equal_spec in H; destruct H
         end.

(** Runs the computation of a goal [exists s, r = Ret s tt /\ ...] or
    [exists s, r = Throw s e /\ ...] and reads the fields [f] of the final
    state that the goal speaks about. *)
Ltac by_running f :=
  lazymatch goal with
  | |- exists s, ?r = Ret s tt /\ _ =>
      let H := fresh "H" in
      pose proof (on_return_some f r _ ltac:(vm_compute; reflexivity)) as H;
      let s := fresh "s" in
      let Hr := fresh "Hr" in
      let Hf := fresh "Hf" in
      destruct H as (s & Hr & Hf);
      exists s; split; [exact Hr|];
      split_pairs; repeat split; assumption
  | |- exists s, ?r = Throw s ?e /\ _ =>
      let H := fresh "H" in
      pose proof (on_throw_some f r e _ ltac:(vm_compute; reflexivity)) as H;
      let s := fresh "s" in
      let Hr := fresh "Hr" in
      let Hf := fresh "Hf" in
      destruct H as (s & Hr & Hf);
      exists s; split; [exact Hr|];
      split_pairs; repeat split; assumption
  end.

(** ** Scopes *)

Section ScopeFacts.

Context {V : Type}.
Implicit Types (c : Scope.chain V) (fs : list (gmap string nat)).

Lemma lookup_frames_owner fs name :
  Scope.lookup_frames fs name = None <-> Scope.owner_frames fs name = None.
Proof.
  induction fs as [|f fs IH]; simpl; [tauto|].
  destruct (f !! name); [split; discriminate|].
  rewrite IH. destruct (Scope.owner_frames fs name); simpl; split; congruence.
Qed.


Lemma owner_frames_bound fs name j :
  Scope.owner_frames fs name = Some j -> is_Some (Scope.lookup_frames fs name).
Proof.
  revert j. induction fs as [|f fs IH]; intros j Ho; simpl in *; [discriminate|].
  destruct (f !! name); [eexists; reflexivity|].
  destruct (Scope.owner_frames fs name) as [j'|]; [|discriminate].
  eapply IH; reflexivity.
Qed.


(** A name bound nowhere in the chain is found, after binding it in the
    root, from every scope of the chain. *)
Lemma lookup_frames_bind_root fs name l k :
  Scope.lookup_frames fs name = None ->
  (k < length fs)%nat ->
  Scope.lookup_frames (drop k (Scope.bind_root fs name l)) name = Some l.
Proof.
  revert k. induction fs as [|f fs IH]; intros k Hl Hk; simpl in *; [lia|].
  destruct (f !! name) eqn:Hf; [discriminate|].
  destruct fs as [|g fs].
  - destruct k; [|simpl in Hk; lia]. simpl. rewrite lookup_insert_eq. reflexivity.
  - destruct k as [|k].
    + change (drop 0 (f :: Scope.bind_root (g :: fs) name l))
        with (f :: Scope.bind_root (g :: fs) name l).
      simpl Scope.lookup_frames at 1. rewrite Hf.
      apply (IH 0%nat); [exact Hl | simpl; lia].
    + change (drop (S k) (f :: Scope.bind_root (g :: fs) name l))
        with (drop k (Scope.bind_root (g :: fs) name l)).
      apply IH; [exact Hl | simpl in *; lia].
Qed.


(** Scopes below the receiver, created before or after the call, see the
    update as well, as long as none of them binds the name itself: such a
    binding, made by [bind], shadows the one that [set] wrote to. *)
Lemma set_seen_from_scopes_without_own_binding c name val j inner :
  Scope.owner c name = Some j ->
  Forall (fun f : gmap string nat => f !! name = None) inner ->
  Scope.get (Scope.Chain (inner ++ Scope.frames (Scope.set c name val))
               (Scope.cells (Scope.set c name val))
               (Scope.fresh (Scope.set c name val))) name
  = Some val.
Proof.
  intros Ho Hinner.
  destruct (owner_frames_bound _ _ _ Ho) as [l Hl].
  unfold Scope.set, Scope.getBinding. rewrite Hl. simpl.
  unfold Scope.get, Scope.getBinding. simpl.
  assert (Hfind : Scope.lookup_frames (inner ++ Scope.frames c) name = Some l).
  { induction Hinner as [|f inner Hf _ IH]; simpl; [exact Hl|].
    rewrite Hf. exact IH. }
  rewrite Hfind. apply lookup_insert_eq.
Qed.

Lemma set_seen_from_scopes_without_own_binding_example :
  Scope.get (Scope.child (Scope.set sample_chain "x" (Some (VNum 2)))) "x"
  = Some (Some (VNum 2))
  /\ Scope.get (Scope.bindValue
                  (Scope.child (Scope.set sample_chain "x" (Some (VNum 2))))
                  "x" (Some (VNum 5))) "x"
     = Some (Some (VNum 5)).
Proof. split; reflexivity. Qed.

End ScopeFacts.


(** ** Strings *)

Lemma string_app_cons (x : ascii) (a b : string) :
  String x a ++ b = String x (a ++ b).
Proof. reflexivity. Qed.

Lemma string_app_assoc (a b c : string) : (a ++ b) ++ c = a ++ (b ++ c).
Proof.
  induction a as [|x a IH]; [reflexivity|].
  rewrite !string_app_cons, IH. reflexivity.
Qed.

Lemma string_app_empty_r (a : string) : a ++ "" = a.
Proof.
  induction a as [|x a IH]; [reflexivity|].
  rewrite string_app_cons, IH. reflexivity.
Qed.

(** ** [print] and [show] *)

(** What the loop of [List.stringify] appends to [str]: the renderings of
    the items, separated by single spaces. *)
Lemma stringify_loop_concat render items str :
  List_.stringify_loop render items true str
  = str ++ String.concat " " (map render items)
  /\ List_.stringify_loop render items false str
     = str ++ match items with
              | [] => ""
              | _ => " " ++ String.concat " " (map render items)
              end.
Proof.
  revert str. induction items as [|item rest IH]; intros str.
  - simpl. rewrite string_app_empty_r. split; reflexivity.
  - simpl List_.stringify_loop.
    destruct (IH (str ++ render item)) as [_ IH1].
    destruct (IH ((str ++ " ") ++ render item)) as [_ IH2].
    rewrite IH1, IH2.
    destruct rest as [|item' rest]; simpl;
      rewrite ?string_app_empty_r, ?string_app_assoc; split; reflexivity.
Qed.

(** C6, as stated, fails: for the list [a [b c] d], [print] renders the
    nested list without brackets, where the specification keeps them. *)
Lemma print_strips_nested_brackets :
  Builtins.print_message [Some nested_sample] = "a b c d"
  /\ print_message_of_spec [Some nested_sample] = "a [b c] d"
  /\ Builtins.print_message [Some nested_sample]
     <> print_message_of_spec [Some nested_sample]
  /\ Builtins.show_message [Some nested_sample] = "[a [b c] d]"
  /\ exists s, execute 100 "print [a [b c] d]" host = Ret s tt
               /\ printed s = ["a b c d"].
Proof.
  repeat split; try reflexivity.
  - vm_compute. discriminate.
  - by_running (fun s => printed s).
Qed.

(** C6, amended: [print] and [show] differ only in the delimiters they
    pass to [List.stringify], and these apply at every depth: [print]
    renders every list, the argument and the lists nested in it alike, as
    its items separated by spaces and without brackets, [show] renders every
    list with brackets around its items separated by spaces; a value that
    is not a list is rendered alike by both; the message is the
    renderings of the arguments separated by spaces. *)
Theorem print_and_show_differ_in_delimiters :
  (forall items,
     List_.stringify ("", "") (VList items)
     = String.concat " " (map (List_.stringify ("", "")) items))
  /\ (forall items,
        List_.stringify ("[", "]") (VList items)
        = "[" ++ String.concat " " (map (List_.stringify ("[", "]")) items) ++ "]")
  /\ (forall v delimiters,
        isList (Some v) = false ->
        List_.stringify delimiters v = List_.toString (Some v))
  /\ (forall args,
        Builtins.print_message args
        = String.concat " " (map (Builtins.stringify_arg ("", ""))
                               (Builtins.one_and_rest args))
        /\ Builtins.show_message args
           = String.concat " " (map (Builtins.stringify_arg ("[", "]"))
                                  (Builtins.one_and_rest args))).
Proof.
  repeat split.
  - intros items.
    change (List_.stringify ("", "") (VList items))
      with (List_.stringify_loop (List_.stringify ("", "")) items true "" ++ "").
    rewrite string_app_empty_r.
    destruct (stringify_loop_concat (List_.stringify ("", "")) items "") as [H _].
    rewrite H. reflexivity.
  - intros items.
    change (List_.stringify ("[", "]") (VList items))
      with (List_.stringify_loop (List_.stringify ("[", "]")) items true "[" ++ "]").
    destruct (stringify_loop_concat (List_.stringify ("[", "]")) items "[") as [H _].
    rewrite H. rewrite string_app_assoc. reflexivity.
  - intros v delimiters Hv. destruct v; try reflexivity. discriminate.
Qed.

Lemma print_and_show_differ_in_delimiters_witness :
  List_.stringify ("", "") (VStr "a") = List_.toString (Some (VStr "a")).
Proof.
  destruct print_and_show_differ_in_delimiters as (_ & _ & H & _).
  apply H. reflexivity.
Defined.

(** ** Computations *)






(** ** [execute] *)



(** The same on a normal return: paused during the [wait], parked at the
    next call and continued, [execute] resolves with both callbacks of
    [checkBreak] still in place. *)
Lemma continue_after_pause_leaves_callbacks :
  exists s,
    Host.after_events [Host.Pause; Host.TimerFires; Host.Continue]
      (execute 50 "wait 600 print 1" host)
    = Ret s tt
    /\ printed s = ["1"]
    /\ onbreak s = Some (PausedBreak 1) /\ oncontinue s = Some 1%nat.
Proof. by_running (fun s => (printed s, onbreak s, oncontinue s)). Qed.

(** Between runs the control surface refuses every call and changes
    nothing, so an interpreter that is not running has a clear [breakFlag]:
    the constructor starts that way and [execute] ends that way. *)
Lemma host_calls_refused_when_not_running s :
  running s = false ->
  Host.after (Host.pause s) = s /\ Host.thrown (Host.pause s) <> None
  /\ Host.after (Host.continue s) = s /\ Host.thrown (Host.continue s) <> None
  /\ Host.after (Host.break s) = s /\ Host.thrown (Host.break s) <> None.
Proof.
  intros Hrun. unfold Host.pause, Host.continue, Host.break. rewrite Hrun. simpl.
  repeat split; discriminate.
Qed.

(** While a run is on, [execute] is refused by the guard and changes
    nothing; [running] is set while [wait] waits for its timer. *)
Lemma execute_refused_while_running fuel source s :
  running s = true ->
  execute fuel source s = Throw s (Error "Logo code is already running").
Proof. intros Hrun. unfold execute. rewrite Hrun. reflexivity. Qed.

Example running_while_waiting :
  match execute 50 "wait 600" host with
  | Await s (Timer _ _) _ => running s
  | _ => false
  end = true.
Proof. vm_compute. reflexivity. Qed.

(** Without an [onprint] observer [print] fails: the interpreter has no
    [console] of its own. *)
Example print_needs_onprint :
  exists s,
    execute 50 "print 1" (Interpreter false false false)
    = Throw s (TypeError "Cannot read properties of undefined (reading 'log')")
    /\ printed s = [].
Proof. by_running (fun s => printed s). Qed.



(** ** [runresult] *)



(** [runresult] is the function bound to the name [runresult]. *)
Lemma runresult_is_bound ev rt fuel :
  procedureScope host !! "runresult" = Some (Builtin b_runresult)
  /\ Builtins.call ev rt fuel b_runresult = Builtins.runresult ev.
Proof. split; reflexivity. Qed.

Example runresult_of_a_reporter_and_of_a_command :
  exists s,
    execute 100 "show runresult [sum 1 2] show runresult [print 1]" host = Ret s tt
    /\ printed s = ["[3]"; "1"; "[]"].
Proof. by_running (fun s => printed s). Qed.

(** ** The parser *)

(** At a closing bracket [parseWord] records its token, here the empty
    word, and consumes nothing. *)
Lemma parseWord_at_closing_bracket source fuel st :
  JS.charAt source (Parser.pos st) = Some "]"%char ->
  Parser.parseWord_loop source (S fuel) "" st
  = Parser.Ok tt (Parser.State (Parser.parsed st ++ [VStr ""])
                    (Parser.stack st) (Parser.pos st)).
Proof.
  intros Hchar.
  cbn [Parser.parseWord_loop]. unfold Parser.bind at 1. unfold Parser.peek at 1.
  rewrite Hchar. reflexivity.
Qed.

(** [parseMain] has no case for a closing bracket and falls through to
    [parseWord].  Inside a list [parseList] takes the bracket before
    [parseMain] sees it; the main loop does not. *)
Lemma parseMain_at_closing_bracket source fuel st :
  JS.charAt source (Parser.pos st) = Some "]"%char ->
  Parser.parseMain source (S (S fuel)) st
  = Parser.Ok tt (Parser.State (Parser.parsed st ++ [VStr ""])
                    (Parser.stack st) (Parser.pos st)).
Proof.
  intros Hchar.
  transitivity (Parser.parseWord_loop source (S fuel) "" st);
    [|apply parseWord_at_closing_bracket; exact Hchar].
  cbn [Parser.parseMain]. unfold Parser.bind at 1. unfold Parser.peek at 1.
  rewrite Hchar. reflexivity.
Qed.

(** So the main loop, once at a closing bracket, is there again one turn
    later with one more token, and never ends: whatever the source before
    and after the bracket. *)
Lemma parse_loop_at_closing_bracket source fuel :
  forall st,
    JS.charAt source (Parser.pos st) = Some "]"%char ->
    Parser.parse_loop source fuel st = Parser.OutOfFuel.
Proof.
  induction fuel as [fuel IH] using lt_wf_ind. intros st Hchar.
  destruct fuel as [|fuel]; [reflexivity|].
  cbn [Parser.parse_loop]. unfold Parser.bind at 1. unfold Parser.peek at 1.
  rewrite Hchar. cbn [Parser.no_char]. unfold Parser.bind at 1.
  destruct fuel as [|[|fuel]].
  - reflexivity.
  - cbn [Parser.parseMain]. unfold Parser.bind at 1. unfold Parser.peek at 1.
    rewrite Hchar. reflexivity.
  - rewrite (parseMain_at_closing_bracket source fuel st Hchar).
    apply IH; [lia | exact Hchar].
Qed.

(** C4: on the source ["]"], a closing bracket outside of any list,
    [parse] neither returns a list nor throws, whatever the number of
    steps it is given: the main loop records empty words for ever. *)
Theorem parse_top_level_bracket_diverges :
  forall fuel, Parser.parse fuel "]" = Parser.Diverges.
Proof.
  intros fuel. unfold Parser.parse.
  rewrite parse_loop_at_closing_bracket; reflexivity.
Qed.

(** The same after other tokens. *)
Example parse_bracket_after_tokens_diverges :
  forall fuel, Parser.parse_loop "a ]" fuel (Parser.State [VStr "a"] [] 2)
               = Parser.OutOfFuel.
Proof. intros fuel. apply parse_loop_at_closing_bracket. reflexivity. Qed.

(** A number followed by a character that does not end it is dropped, and
    the parser goes on. *)
Example parse_number_before_letter :
  Parser.parse 10 "1a" = Parser.Parsed [VStr "a"].
Proof. reflexivity. Qed.

Example parse_bracket_inside_list :
  Parser.parse 20 "[a [b c] d]" = Parser.Parsed [nested_sample].
Proof. reflexivity. Qed.

(** ** Infix operators *)

(** C1: on [print 1 + 2 * 3 - 4] the interpreter prints [3], but not by
    applying the chain from left to right: the calls it makes are [2 * 3],
    then [6 - 4], then [1 + 2].  After a call, the operator that follows is
    chained at the level of the call whatever its priority, and an operator
    of the same priority is absorbed into the right operand; so
    [print 10 - 2 - 3] prints [11] and [print 1 - 2 * 3 - 4] prints [-1],
    where left-to-right application gives [5] and [-9]. *)
Theorem infix_chain_nests_to_the_right :
  (exists s,
     execute 100 "print 1 + 2 * 3 - 4" tracing_host = Ret s tt
     /\ printed s = ["3"]
     /\ calls s = [ ("*", [number 2; number 3]); ("-", [number 6; number 4]);
                    ("+", [number 1; number 2]); ("print", [number 3]) ])
  /\ (exists s,
        execute 100 "print 10 - 2 - 3" tracing_host = Ret s tt
        /\ printed s = ["11"]
        /\ calls s = [ ("-", [number 2; number 3]); ("-", [number 10; number (-1)]);
                       ("print", [number 11]) ])
  /\ (exists s,
        execute 100 "print 1 - 2 * 3 - 4" tracing_host = Ret s tt
        /\ printed s = ["-1"]).
Proof.
  repeat split; by_running (fun s => (printed s, calls s)).
Qed.

(** The priority table does make [*] bind tighter than a [+] before it. *)
Example product_binds_tighter_than_a_preceding_sum :
  exists s,
    execute 100 "print 1 + 2 * 3" tracing_host = Ret s tt
    /\ printed s = ["7"]
    /\ calls s = [ ("*", [number 2; number 3]); ("+", [number 1; number 6]);
                   ("print", [number 7]) ].
Proof. by_running (fun s => (printed s, calls s)). Qed.

(** C5: the parser records [=] as a token of its own only when it stands
    between blanks, as in [1 = 2]; it is neither a delimiter nor, for the
    evaluator, an operator, although the priority table lists it with
    priority 1 and the builtins define it among the infix operators.  So
    [1=2] parses into the single word [=2], and [print 1 = 2] prints [1] and
    then fails, [=] being taken as the name of a command with two inputs. *)
Theorem equals_sign_is_not_an_operator :
  Parser.parse 100 "1 = 2" = Parser.Parsed [VNum 1; VStr "="; VNum 2]
  /\ Parser.parse 100 "1=2" = Parser.Parsed [VStr "=2"]
  /\ Parser.parse 100 "1<2" = Parser.Parsed [VNum 1; VStr "<"; VNum 2]
  /\ isOperator (Some (VStr "=")) = false
  /\ isOperator (Some (VStr "<")) = true
  /\ precedence "=" = Some 1%nat
  /\ procedureScope host !! "=" = Some (Builtin b_equals)
  /\ (exists s,
        execute 100 "print 1 = 2" host
        = Throw s (SyntaxError "End of input expecting fixed arg")
        /\ printed s = ["1"])
  /\ (exists s,
        execute 100 "print 1 < 2" host = Ret s tt /\ printed s = ["true"]).
Proof.
  repeat split; try (vm_compute; reflexivity); by_running (fun s => printed s).
Qed.

(** ** [stop] inside [repeat] *)

(** The three places where the flag set by [stop] acts.  In a procedure
    (below the global context), [stop] sets the flag of the current
    context. *)
Lemma stop_sets_the_flag args s c c' rest :
  contexts s = c :: c' :: rest ->
  exists s',
    Builtins.stop_ args s = Ret s' undefined
    /\ contexts s' = mkContext (output c) true :: c' :: rest.
Proof.
  intros Hc. eexists.
  unfold Builtins.stop_, atGlobalContext, update_context, currentContext,
    bind, read, update, ret.
  simpl. rewrite Hc. simpl. rewrite Hc. simpl.
  split; [reflexivity|]. unfold with_contexts. simpl. rewrite Hc. reflexivity.
Qed.

(** With the flag set, the loop of [evaluate] leaves the rest of the
    instructions alone. *)
Lemma evaluate_loop_ends_when_stopped fuel iter retval s c rest :
  contexts s = c :: rest ->
  stop c = true ->
  evaluate_loop (S fuel) iter retval s = Ret s retval.
Proof.
  intros Hc Hstop.
  change (evaluate_loop (S fuel) iter retval s)
    with (bind stopped
            (fun st =>
               if st then ret retval
               else
                 match retval, iter with
                 | Some _, [] => ret retval
                 | Some _, head :: _ =>
                     throw (SyntaxError
                              ("Extra instructions after a value-returning expression: "
                               ++ List_.toString (Some head)))
                 | None, [] => ret retval
                 | None, head :: _ =>
                     if is_word (Some head) "to" then
                       bind (handleTo iter)
                         (fun iter' => evaluate_loop fuel iter' retval)
                     else
                       bind (handleArg fuel (Some 0%nat) iter)
                         (fun r => evaluate_loop fuel (snd r) (fst r))
                 end) s).
  unfold stopped, bind, currentContext, ret. simpl. rewrite Hc. simpl.
  rewrite Hstop. reflexivity.
Qed.

(** And the loop of [repeat] ends after the turn in which the flag was
    set, however many turns were asked for. *)
Lemma repeat_loop_ends_when_stopped ev n i times block s s' r c rest :
  PrimFloat.ltb i times = true ->
  ev block s = Ret s' r ->
  contexts s' = c :: rest ->
  stop c = true ->
  Builtins.repeat_loop ev (S n) i times block s = Ret s' undefined.
Proof.
  intros Hlt Hev Hc Hstop. simpl. rewrite Hlt.
  unfold bind. rewrite Hev. simpl.
  unfold currentContext. rewrite Hc. simpl. rewrite Hstop. reflexivity.
Qed.

(** C2: [to f repeat 10 [ print 1 stop print 2 ] end f] prints [1] once
    and nothing else: the block is evaluated once, in it [print] is called
    once, then [stop]; the flag set by [stop] in the context of [f] ends the
    block before [print 2], the loop of [repeat] after its first turn, and
    the body of [f]. *)
Theorem stop_ends_repeat_and_procedure :
  exists s,
    execute 100 "to f repeat 10 [ print 1 stop print 2 ] end f" tracing_host
    = Ret s tt
    /\ printed s = ["1"]
    /\ calls s = [ ("f", []); ("repeat", [number 10; Some repeat_block]);
                   ("print", [number 1]); ("stop", []) ]
    /\ procedureScope s !! "f"
       = Some (Procedure "f" [] [VStr "repeat"; VNum 10; repeat_block]).
Proof. by_running (fun s => (printed s, calls s, procedureScope s !! "f")). Qed.

(** Without the [stop] the block runs ten times. *)
Example repeat_without_stop :
  exists s,
    execute 200 "to f repeat 10 [ print 1 ] end f" host = Ret s tt
    /\ printed s = ["1"; "1"; "1"; "1"; "1"; "1"; "1"; "1"; "1"; "1"].
Proof. by_running (fun s => printed s). Qed.

(** ** Minus *)

(** The rule of [parseNumber] for a minus, on any source: unless it
    stands at the start or after a blank, and before a digit, it is recorded
    as a token of its own. *)
Lemma minus_is_a_token_unless_sign source fuel st :
  JS.charAt source (Parser.pos st) = Some "-"%char ->
  let last := match Parser.pos st with
              | O => None
              | S i => JS.charAt source i
              end in
  let next := JS.charAt source (S (Parser.pos st)) in
  (Parser.no_char last || Parser.matches reWhitespace last)
  && Parser.matches reDigit next = false ->
  Parser.parseNumber source fuel st
  = Parser.Ok tt (Parser.State (Parser.parsed st ++ [VStr "-"])
                    (Parser.stack st) (S (Parser.pos st))).
Proof.
  intros Hchar last next Hrule.
  unfold Parser.parseNumber, Parser.bind, Parser.prev, Parser.peek,
    Parser.consume, Parser.record.
  simpl. rewrite Hchar. simpl.
  fold last. fold next.
  destruct (Parser.no_char last || Parser.matches reWhitespace last);
    destruct (Parser.matches reDigit next); simpl in *;
    try discriminate; reflexivity.
Qed.


(** A minus between blanks, or right after a value, is the operator. *)
Example minus_as_operator :
  Parser.parse 100 "3 - 4 3-4"
  = Parser.Parsed [VNum 3; VStr "-"; VNum 4; VNum 3; VStr "-"; VNum 4]
  /\ exists s, execute 100 "print 3 - 4" host = Ret s tt /\ printed s = ["-1"].
Proof.
  split; [vm_compute; reflexivity|]. by_running (fun s => printed s).
Qed.

(** ** [item] *)

(** On a list the loop of [item] counts the items from 1: with the
    index that the counter reaches after [k] increments it returns the item
    [k] places after the head, the [(k+1)]-th, and past the end it raises
    the type error.  (The counters are pairwise different numbers; that is
    taken as a hypothesis here and holds by computation for each index in
    the examples.) *)
Lemma item_loop_counts_from_one thing :
  forall start k s,
    (forall j, (j < k)%nat ->
       PrimFloat.eqb (count_from start j) (count_from start k) = false) ->
    PrimFloat.eqb (count_from start k) (count_from start k) = true ->
    Builtins.item_loop thing start (count_from start k) s
    = match nth_error thing k with
      | Some x => Ret s (Some x)
      | None => Throw s (TypeError "index is beyond list length")
      end.
Proof.
  induction thing as [|x rest IH]; intros start k s Hdiff Hsame.
  - destruct k; reflexivity.
  - destruct k as [|k].
    + simpl in *. rewrite Hsame. reflexivity.
    + pose proof (Hdiff 0%nat ltac:(lia)) as Hhead.
      change (count_from start (S k))
        with (count_from (PrimFloat.add start 1%float) k) in *.
      change (count_from start 0) with start in Hhead.
      cbn [Builtins.item_loop nth_error]. rewrite Hhead.
      apply IH.
      * intros j Hj. apply (Hdiff (S j)). lia.
      * exact Hsame.
Qed.

Example item_loop_third_of_a_list s :
  count_from 1%float 2 = 3%float
  /\ Builtins.item_loop [VStr "a"; VStr "b"; VStr "c"] 1%float (count_from 1%float 2) s
     = Ret s (Some (VStr "c")).
Proof.
  split; [reflexivity|].
  rewrite item_loop_counts_from_one; [reflexivity | | reflexivity].
  intros [|[|j]] Hj; try reflexivity. lia.
Qed.

(** C7: on a list [item] counts from 1, on a word it reads
    [thing[index]], which counts from 0: [item 1] of the word [abc] is [b]
    where [first] gives [a], [item 3] returns no value, and [item 0], out
    of range and refused on a list, returns [a]. *)
Theorem item_of_a_word_counts_from_zero :
  (forall s,
     Builtins.item [number 1; abc] s = Ret s (Some (VStr "b"))
     /\ Builtins.first [abc] s = Ret s (Some (VStr "a"))
     /\ Builtins.item [number 3; abc] s = Ret s undefined
     /\ Builtins.item [number 0; abc] s = Ret s (Some (VStr "a"))
     /\ Builtins.item [number 4; abc] s
        = Throw s (TypeError "index is beyond string length")
     /\ Builtins.item [number 1; list_abc] s = Ret s (Some (VStr "a"))
     /\ Builtins.item [number 3; list_abc] s = Ret s (Some (VStr "c"))
     /\ Builtins.item [number 0; list_abc] s
        = Throw s (TypeError "index is beyond list length")
     /\ Builtins.item [number 4; list_abc] s
        = Throw s (TypeError "index is beyond list length"))
  /\ (exists s, execute 100 (quoted "print item 1 " "abc") host = Ret s tt
                /\ printed s = ["b"])
  /\ (exists s, execute 100 (quoted "print first " "abc") host = Ret s tt
                /\ printed s = ["a"]).
Proof.
  split; [intros s; repeat split; vm_compute; reflexivity|].
  split; by_running (fun s => printed s).
Qed.

(** ** Further runs of the model *)

(** A procedure with an output stays defined after the run. *)
Example procedure_with_output :
  exists s,
    execute 100 "to sq :n output :n * :n end print sq 7" host = Ret s tt
    /\ printed s = ["49"]
    /\ procedureScope s !! "sq"
       = Some (Procedure "sq" ["n"] [VStr "output"; VStr ":n"; VStr "*"; VStr ":n"]).
Proof. by_running (fun s => (printed s, procedureScope s !! "sq")). Qed.

Example list_manipulation :
  exists s,
    execute 100 "print first butfirst [a b c] print count [a [b c] d]" host = Ret s tt
    /\ printed s = ["b"; "3"].
Proof. by_running (fun s => printed s). Qed.

(** [make] inside a procedure writes to the binding of the argument; an
    unbound name becomes a global. *)
Example make_in_place_and_global :
  exists s,
    execute 200
      (quoted "to g :a make " (quoted "a 5 print :a make " "b 6 end g 1 print :b"))
      host = Ret s tt
    /\ printed s = ["5"; "6"].
Proof. by_running (fun s => printed s). Qed.

(* ===================================================================== *)
(** * Further properties *)
(* ===================================================================== *)

(** ** Scopes: shadowing *)

Section MoreScopeFacts.

Context {V : Type}.
Implicit Types (c : Scope.chain V) (fs : list (gmap string nat)).

Lemma lookup_frames_in fs name l :
  Scope.lookup_frames fs name = Some l -> exists f, In f fs /\ f !! name = Some l.
Proof.
  induction fs as [|f fs IH]; simpl; [discriminate|].
  destruct (f !! name) eqn:Hf.
  - intros [= <-]. exists f. split; [left; reflexivity | exact Hf].
  - intros H. destruct (IH H) as (g & Hin & Hg). exists g. split; [right|]; assumption.
Qed.

Lemma allocated_empty : cells_allocated (@Scope.empty V).
Proof.
  intros f name l [<-|[]] H. rewrite lookup_empty in H. discriminate.
Qed.

Lemma allocated_child c : cells_allocated c -> cells_allocated (Scope.child c).
Proof.
  intros H f name l [<-|Hin] Hf.
  - rewrite lookup_empty in Hf. discriminate.
  - exact (H f name l Hin Hf).
Qed.

Lemma allocated_ancestor k c : cells_allocated c -> cells_allocated (Scope.ancestor k c).
Proof.
  intros H f name l Hin Hf. simpl in *.
  apply (H f name l); [|exact Hf].
  rewrite <- (take_drop k (Scope.frames c)). apply in_or_app. right. exact Hin.
Qed.

Lemma allocated_bindValue c name v :
  cells_allocated c -> cells_allocated (Scope.bindValue c name v).
Proof.
  intros H f m l. unfold Scope.bindValue, Scope.newBinding, Scope.bind. simpl.
  destruct (Scope.frames c) as [|f0 fs] eqn:E; simpl; rewrite ?E.
  - intros [].
  - intros [<-|Hin] Hf.
    + destruct (decide (m = name)) as [->|Hne].
      * rewrite lookup_insert_eq in Hf. inversion Hf. lia.
      * rewrite lookup_insert_ne in Hf by congruence.
        specialize (H f0 m l). rewrite E in H. specialize (H (or_introl eq_refl) Hf). lia.
    + specialize (H f m l). rewrite E in H. specialize (H (or_intror Hin) Hf). lia.
Qed.

Lemma in_bind_root fs name l f :
  In f (Scope.bind_root fs name l) -> In f fs \/ exists g, In g fs /\ f = <[name := l]> g.
Proof.
  induction fs as [|g [|h fs] IH]; simpl in *.
  - intros [].
  - intros [<-|[]]. right. exists g. split; [left; reflexivity | reflexivity].
  - intros [<-|Hin]; [left; left; reflexivity|].
    destruct (IH Hin) as [H|(g' & H & ->)].
    + left. right. exact H.
    + right. exists g'. split; [right; exact H | reflexivity].
Qed.

Lemma allocated_set c name v : cells_allocated c -> cells_allocated (Scope.set c name v).
Proof.
  intros H f m l. unfold Scope.set.
  destruct (Scope.getBinding c name); simpl.
  - apply H.
  - intros Hin Hf. destruct (in_bind_root _ _ _ _ Hin) as [Hin'|(g & Hin' & ->)].
    + specialize (H f m l Hin' Hf). lia.
    + destruct (decide (m = name)) as [->|Hne].
      * rewrite lookup_insert_eq in Hf. inversion Hf. lia.
      * rewrite lookup_insert_ne in Hf by congruence.
        specialize (H g m l Hin' Hf). lia.
Qed.

(** X5: [bindValue] shadows. In a chain whose scopes bind allocated cells,
    after [bindValue(name, v)] the innermost scope finds [v] under [name] and
    what it found before under every other name, and every enclosing scope
    finds what it found before under every name. *)
Theorem bindValue_shadows_in_the_innermost_scope_only c name v :
  cells_allocated c ->
  Scope.frames c <> [] ->
  Scope.get (Scope.bindValue c name v) name = Some v
  /\ (forall m, m <> name -> Scope.get (Scope.bindValue c name v) m = Scope.get c m)
  /\ (forall k m,
        Scope.get (Scope.ancestor (S k) (Scope.bindValue c name v)) m
        = Scope.get (Scope.ancestor (S k) c) m).
Proof.
  intros Hwf Hne.
  destruct (Scope.frames c) as [|f fs] eqn:E; [congruence|].
  unfold Scope.bindValue, Scope.newBinding, Scope.bind, Scope.get, Scope.getBinding,
    Scope.ancestor. simpl. rewrite E. simpl.
  repeat split.
  - rewrite lookup_insert_eq. apply lookup_insert_eq.
  - intros m Hm. rewrite lookup_insert_ne by congruence.
    destruct (f !! m) as [l|] eqn:Hf.
    + apply lookup_insert_ne.
      specialize (Hwf f m l). rewrite E in Hwf. specialize (Hwf (or_introl eq_refl) Hf). lia.
    + destruct (Scope.lookup_frames fs m) as [l|] eqn:Hl; [|reflexivity].
      apply lookup_insert_ne.
      destruct (lookup_frames_in _ _ _ Hl) as (g & Hin & Hg).
      specialize (Hwf g m l). rewrite E in Hwf. specialize (Hwf (or_intror Hin) Hg). lia.
  - intros k m.
    destruct (Scope.lookup_frames (drop k fs) m) as [l|] eqn:Hl; [|reflexivity].
    apply lookup_insert_ne.
    destruct (lookup_frames_in _ _ _ Hl) as (g & Hin & Hg).
    assert (Hin' : In g fs).
    { rewrite <- (take_drop k fs). apply in_or_app. right. exact Hin. }
    specialize (Hwf g m l). rewrite E in Hwf. specialize (Hwf (or_intror Hin') Hg). lia.
Qed.

End MoreScopeFacts.

Lemma inner_chain_allocated : cells_allocated inner_chain.
Proof.
  apply allocated_child. apply allocated_bindValue. apply allocated_empty.
Qed.

Lemma bindValue_shadows_in_the_innermost_scope_only_witness :
  Scope.get (Scope.bindValue inner_chain "x" (Some (VNum 2))) "x" = Some (Some (VNum 2))
  /\ Scope.get (Scope.ancestor 1 (Scope.bindValue inner_chain "x" (Some (VNum 2)))) "x"
     = Scope.get (Scope.ancestor 1 inner_chain) "x".
Proof.
  destruct (bindValue_shadows_in_the_innermost_scope_only inner_chain "x" (Some (VNum 2))
              inner_chain_allocated ltac:(discriminate)) as (Hnew & _ & Hout).
  split; [exact Hnew | exact (Hout 0%nat "x")].
Defined.

(** ** The stacks of scopes and contexts

    Every computation of the interpreter is shown, by induction on its
    steps, to end in states that keep the stacks of the state it started
    from; the turns of the host in between leave the stacks alone. *)

Lemma contexts_kept_refl cs : contexts_kept cs cs.
Proof. repeat split. Qed.

Lemma contexts_kept_trans a b c :
  contexts_kept a b -> contexts_kept b c -> contexts_kept a c.
Proof.
  intros (H1 & H2 & H3) (H4 & H5 & H6). repeat split; try congruence.
  intros H. rewrite <- (H3 H). apply H6. rewrite (H3 H). exact H.
Qed.

Lemma stacks_kept_refl s : stacks_kept s s.
Proof. split; [apply contexts_kept_refl | reflexivity]. Qed.

Lemma stacks_kept_same s s' :
  contexts s' = contexts s -> variables s' = variables s -> stacks_kept s s'.
Proof. intros Hc Hv. split; rewrite ?Hc, ?Hv; [apply contexts_kept_refl | reflexivity]. Qed.

Lemma stacks_kept_trans a b c : stacks_kept a b -> stacks_kept b c -> stacks_kept a c.
Proof.
  intros [H1 H2] [H3 H4]. split; [eapply contexts_kept_trans; eauto | congruence].
Qed.

Lemma kept_refl s : kept s s.
Proof. split; [apply stacks_kept_refl | auto]. Qed.

Lemma kept_same s s' :
  contexts s' = contexts s -> variables s' = variables s -> kept s s'.
Proof.
  intros Hc Hv. split; [apply stacks_kept_same; assumption | rewrite Hv; auto].
Qed.

Lemma kept_trans a b c : kept a b -> kept b c -> kept a c.
Proof.
  intros [H1 H2] [H3 H4]. split; [eapply stacks_kept_trans; eauto | auto].
Qed.

Lemma ends_in_mono {A} (P Q : interp -> Prop) (r : res A) :
  (forall s, P s -> Q s) -> ends_in P r -> ends_in Q r.
Proof. intros HPQ H. induction H; constructor; auto. Qed.

Lemma ends_in_bind {A B} (P Q : interp -> Prop) (r : res A) (f : A -> M B) :
  ends_in P r -> (forall s, P s -> Q s) ->
  (forall a s, P s -> ends_in Q (f a s)) -> ends_in Q (bind_res r f).
Proof.
  intros H HPQ Hf. induction H; simpl.
  - apply Hf; assumption.
  - constructor; auto.
  - constructor. intros s' o Hs. auto.
  - constructor.
Qed.

Lemma ends_in_finally {A} (P Q : interp -> Prop) (r : res A) fin :
  ends_in P r -> (forall s, P s -> Q (fin s)) -> ends_in Q (finally_res r fin).
Proof. intros H Hf. induction H; simpl; constructor; auto. Qed.

Lemma ends_in_settles {A} (P : interp -> Prop) (r : res A) sf :
  ends_in P r -> settles_quietly r sf -> P sf.
Proof.
  intros H Hs. induction Hs; inversion H; subst; auto.
Qed.

Lemma keeps_ret {A} (a : A) : keeps (ret a).
Proof. intros s. constructor. apply kept_refl. Qed.

Lemma keeps_throw {A} e : keeps (@throw A e).
Proof. intros s. constructor. apply kept_refl. Qed.

Lemma keeps_stuck {A} g : keeps (@stuck A g).
Proof. intros s. constructor. Qed.

Lemma keeps_read {A} (f : interp -> A) : keeps (read f).
Proof. intros s. constructor. apply kept_refl. Qed.

Lemma keeps_bind {A B} (m : M A) (f : A -> M B) :
  keeps m -> (forall a, keeps (f a)) -> keeps (bind m f).
Proof.
  intros Hm Hf s. unfold bind. eapply ends_in_bind; [apply Hm|auto|].
  intros a s1 H1. simpl. eapply ends_in_mono; [|apply Hf].
  intros s2 H2. eapply kept_trans; eauto.
Qed.

Lemma keeps_update f : (forall s, kept s (f s)) -> keeps (update f).
Proof. intros H s. constructor. apply H. Qed.

Lemma keeps_determined {A} (o : option A) : keeps (determined o).
Proof. destruct o; [apply keeps_ret | apply keeps_stuck]. Qed.

Lemma keeps_newList head tail : keeps (newList head tail).
Proof. destruct head; [apply keeps_ret | apply keeps_throw]. Qed.

Lemma keeps_builder_push items val : keeps (builder_push items val).
Proof. destruct val; [apply keeps_ret | apply keeps_throw]. Qed.

Lemma keeps_currentContext : keeps currentContext.
Proof.
  intros s. unfold currentContext. destruct (contexts s); constructor; apply kept_refl.
Qed.

Lemma keeps_currentScope : keeps currentScope.
Proof.
  intros s. unfold currentScope.
  destruct (Scope.frames (variables s)); constructor; apply kept_refl.
Qed.

Lemma keeps_stopped : keeps stopped.
Proof.
  unfold stopped. apply keeps_bind; [apply keeps_currentContext | intros; apply keeps_ret].
Qed.

Lemma keeps_update_scope f :
  (forall c, length (Scope.frames (f c)) = length (Scope.frames c)) ->
  (forall c, cells_allocated c -> cells_allocated (f c)) ->
  keeps (update_scope f).
Proof.
  intros H Ha. unfold update_scope. apply keeps_bind; [apply keeps_currentScope|].
  intros _. apply keeps_update. intros s. split; [split; [apply contexts_kept_refl|]|].
  - simpl. apply H.
  - simpl. apply Ha.
Qed.

Lemma keeps_atGlobalContext : keeps atGlobalContext.
Proof. apply keeps_read. Qed.

Lemma keeps_scope_get name : keeps (scope_get name).
Proof.
  unfold scope_get. apply keeps_bind; [apply keeps_currentScope|].
  intros c. destruct (Scope.getBinding c name); [apply keeps_ret | apply keeps_throw].
Qed.

Lemma keeps_print_ str : keeps (print_ str).
Proof.
  unfold print_. apply keeps_bind; [apply keeps_read|].
  intros [|]; [|apply keeps_throw]. apply keeps_update. intros s. apply kept_same; reflexivity.
Qed.

Lemma keeps_observe_call f args : keeps (observe_call f args).
Proof.
  unfold observe_call. apply keeps_bind; [apply keeps_read|].
  intros [|]; [|apply keeps_ret]. apply keeps_update. intros s. apply kept_same; reflexivity.
Qed.

Lemma keeps_observe_value v : keeps (observe_value v).
Proof.
  unfold observe_value. apply keeps_bind; [apply keeps_read|].
  intros [|]; [|apply keeps_ret]. apply keeps_update. intros s. apply kept_same; reflexivity.
Qed.

Lemma ends_in_settle {A} (a : A) s0 s s' o :
  contexts s = contexts s0 -> variables s = variables s0 ->
  stacks_untouched s s' -> ends_in (kept s0) (settle a s' o).
Proof.
  intros Hc Hv [Hc' Hv'].
  assert (kept s0 s').
  { apply kept_same; congruence. }
  destruct o; constructor; assumption.
Qed.

Lemma keeps_checkBreak : keeps checkBreak.
Proof.
  intros s. unfold checkBreak.
  destruct (breakFlag s); [constructor; apply kept_refl|].
  destruct (paused s); [|constructor; apply kept_refl].
  constructor. intros s' o H. eapply ends_in_settle; [| |exact H]; reflexivity.
Qed.

Lemma keeps_wait args : keeps (Builtins.wait args).
Proof.
  intros s. unfold Builtins.wait. constructor.
  intros s' o H. eapply ends_in_settle; [| |exact H]; reflexivity.
Qed.

Lemma frames_bind {V} (c : Scope.chain V) name l :
  length (Scope.frames (Scope.bind c name l)) = length (Scope.frames c).
Proof. unfold Scope.bind. destruct (Scope.frames c) eqn:E; simpl; rewrite ?E; reflexivity. Qed.

Lemma frames_bindValue {V} (c : Scope.chain V) name v :
  length (Scope.frames (Scope.bindValue c name v)) = length (Scope.frames c).
Proof. unfold Scope.bindValue, Scope.newBinding. rewrite frames_bind. reflexivity. Qed.

Lemma length_bind_root fs name l : length (Scope.bind_root fs name l) = length fs.
Proof.
  induction fs as [|f [|g fs] IH]; simpl in *; try reflexivity. rewrite IH. reflexivity.
Qed.

Lemma frames_set {V} (c : Scope.chain V) name v :
  length (Scope.frames (Scope.set c name v)) = length (Scope.frames c).
Proof.
  unfold Scope.set. destruct (Scope.getBinding c name); simpl; [reflexivity|].
  apply length_bind_root.
Qed.

Lemma frames_global_bind n c :
  length (Scope.frames (Builtins.global_bind n c)) = length (Scope.frames c).
Proof.
  unfold Builtins.global_bind.
  destruct (Scope.getBinding _ n); simpl; rewrite frames_bind; simpl; [reflexivity|].
  apply length_bind_root.
Qed.

Lemma allocated_bind {V} (c : Scope.chain V) name l :
  cells_allocated c -> (l < Scope.fresh c)%nat -> cells_allocated (Scope.bind c name l).
Proof.
  intros H Hl f m l'. unfold Scope.bind.
  destruct (Scope.frames c) as [|f0 fs] eqn:E; simpl; rewrite ?E.
  - intros [].
  - intros [<-|Hin] Hf.
    + destruct (decide (m = name)) as [->|Hne].
      * rewrite lookup_insert_eq in Hf. inversion Hf; subst. exact Hl.
      * rewrite lookup_insert_ne in Hf by congruence.
        apply (H f0 m l'); [rewrite E; left; reflexivity | exact Hf].
    + apply (H f m l'); [rewrite E; right; exact Hin | exact Hf].
Qed.

Lemma allocated_global_bind n c :
  cells_allocated c -> cells_allocated (Builtins.global_bind n c).
Proof.
  intros H. unfold Builtins.global_bind.
  destruct (Scope.getBinding _ n) as [l|] eqn:Hroot.
  - apply allocated_bind; [exact H|].
    unfold Scope.getBinding in Hroot. simpl in Hroot.
    destruct (lookup_frames_in _ _ _ Hroot) as (g & Hin & Hg).
    apply (H g n l); [|exact Hg].
    rewrite <- (take_drop (length (Scope.frames c) - 1) (Scope.frames c)).
    apply in_or_app. right. exact Hin.
  - simpl. apply allocated_bind; [|simpl; lia].
    intros f m l Hin Hf. simpl in *.
    destruct (in_bind_root _ _ _ _ Hin) as [Hin'|(g & Hin' & ->)].
    + specialize (H f m l Hin' Hf). lia.
    + destruct (decide (m = n)) as [->|Hne].
      * rewrite lookup_insert_eq in Hf. inversion Hf. lia.
      * rewrite lookup_insert_ne in Hf by congruence.
        specialize (H g m l Hin' Hf). lia.
Qed.

Lemma keeps_stop_ args : keeps (Builtins.stop_ args).
Proof.
  intros s.
  unfold Builtins.stop_, bind, atGlobalContext, read, update_context, currentContext,
    update, throw, ret, bind.
  simpl. destruct (contexts s) as [|c [|c2 r]] eqn:E; simpl; rewrite ?E; simpl;
    rewrite ?E; simpl; constructor; try apply kept_refl.
  split; [|simpl; auto].
  split; simpl; [|reflexivity]. rewrite E. repeat split. simpl. discriminate.
Qed.

Lemma keeps_output_ args : keeps (Builtins.output_ args).
Proof.
  intros s.
  unfold Builtins.output_, bind, atGlobalContext, read, update_context, currentContext,
    update, throw, ret, bind.
  simpl. destruct (contexts s) as [|c [|c2 r]] eqn:E; simpl; rewrite ?E; simpl;
    rewrite ?E; simpl; constructor; try apply kept_refl.
  split; [|simpl; auto].
  split; simpl; [|reflexivity]. rewrite E. repeat split. simpl. discriminate.
Qed.

Create HintDb keeps.
#[local] Hint Resolve keeps_determined keeps_newList keeps_builder_push keeps_currentContext
  keeps_currentScope keeps_stopped keeps_atGlobalContext keeps_scope_get keeps_print_
  keeps_observe_call keeps_observe_value keeps_checkBreak keeps_wait keeps_stop_
  keeps_output_ keeps_read keeps_ret keeps_throw keeps_stuck : keeps.

Ltac keeps_auto :=
  repeat first
    [ assumption
    | apply keeps_ret | apply keeps_throw | apply keeps_stuck | apply keeps_read
    | solve [auto with keeps]
    | apply keeps_update_scope; intros;
        first [apply frames_set | apply frames_bindValue | apply frames_global_bind
              | apply allocated_set; assumption | apply allocated_bindValue; assumption
              | apply allocated_global_bind; assumption]
    | apply keeps_bind; [|intros]
    | match goal with
      | |- keeps (if ?b then _ else _) => destruct b
      | |- keeps (match ?x with _ => _ end) => destruct x
      | |- keeps (let '(_, _) := ?x in _) => destruct x
      end ].

Lemma keeps_se_loop args items : keeps (Builtins.se_loop args items).
Proof.
  revert items. induction args as [|a rest IH]; intros items; simpl; keeps_auto; apply IH.
Qed.

Lemma keeps_List_from source items : keeps (Builtins.List_from source items).
Proof.
  revert items. induction source as [|a rest IH]; intros items; simpl; keeps_auto; apply IH.
Qed.

Lemma keeps_item_loop thing n index : keeps (Builtins.item_loop thing n index).
Proof.
  revert n. induction thing as [|a rest IH]; intros n; simpl; keeps_auto; apply IH.
Qed.

Lemma keeps_remove_loop thing l : keeps (Builtins.remove_loop thing l).
Proof.
  induction l as [|a rest IH]; simpl; keeps_auto.
Qed.

Lemma keeps_local_loop all : keeps (Builtins.local_loop all).
Proof.
  induction all as [|a rest IH]; simpl; keeps_auto.
Qed.

Lemma keeps_global_loop all : keeps (Builtins.global_loop all).
Proof.
  induction all as [|a rest IH]; simpl; keeps_auto.
Qed.

#[local] Hint Resolve keeps_se_loop keeps_List_from keeps_item_loop keeps_remove_loop
  keeps_local_loop keeps_global_loop : keeps.

Section KeepsBuiltins.

Variable ev : jsval -> M jsval.
Variable rt : jsval -> list jsval -> M jsval.
Hypothesis keeps_ev : forall body, keeps (ev body).
Hypothesis keeps_rt : forall template args, keeps (rt template args).

Lemma keeps_repeat_loop n i times block : keeps (Builtins.repeat_loop ev n i times block).
Proof.
  revert i. induction n as [|n IH]; intros i; simpl; keeps_auto; auto.
Qed.

Lemma keeps_forever_loop n block : keeps (Builtins.forever_loop ev n block).
Proof.
  induction n as [|n IH]; simpl; keeps_auto; auto.
Qed.

Lemma keeps_doMap_loop n iters template acc :
  keeps (Builtins.doMap_loop rt n iters template acc).
Proof.
  revert iters acc. induction n as [|n IH]; intros iters acc; simpl; keeps_auto; auto.
Qed.

Lemma keeps_call n b args : keeps (Builtins.call ev rt n b args).
Proof.
  pose proof keeps_repeat_loop. pose proof keeps_forever_loop. pose proof keeps_doMap_loop.
  destruct b; simpl;
    unfold Builtins.true_, Builtins.false_, Builtins.and_, Builtins.or_, Builtins.not_,
      Builtins.word, Builtins.se, Builtins.list_, Builtins.fput, Builtins.lput,
      Builtins.combine, Builtins.reverse, Builtins.count, Builtins.first, Builtins.last_,
      Builtins.butfirst, Builtins.butlast, Builtins.item, Builtins.remove, Builtins.print,
      Builtins.show, Builtins.thing, Builtins.make, Builtins.local_, Builtins.global_,
      Builtins.push, Builtins.plus, Builtins.minus, Builtins.times, Builtins.divide,
      Builtins.less, Builtins.greater, Builtins.equals, Builtins.remainder,
      Builtins.emptyp, Builtins.listp, Builtins.memberp, Builtins.numberp, Builtins.wordp,
      Builtins.run, Builtins.runresult, Builtins.repeat_, Builtins.forever, Builtins.if_,
      Builtins.ifelse, Builtins.apply, Builtins.invoke, Builtins.foreach, Builtins.map_,
      Builtins.doMap, Builtins.word, Builtins.fput,
      Builtins.num, Builtins.bool_, Builtins.str, Builtins.lst;
    keeps_auto; auto.
Qed.

End KeepsBuiltins.

Lemma keeps_validateCommand command binary : keeps (validateCommand command binary).
Proof. unfold validateCommand. keeps_auto. Qed.

Lemma keeps_handleLiteral iter : keeps (handleLiteral iter).
Proof. unfold handleLiteral. keeps_auto. Qed.

Lemma keeps_handleTo iter : keeps (handleTo iter).
Proof.
  unfold handleTo. keeps_auto. apply keeps_update. intros ?. apply kept_same; reflexivity.
Qed.

#[local] Hint Resolve keeps_validateCommand keeps_handleLiteral keeps_handleTo : keeps.

Lemma frames_bind_arguments argNames index args c :
  length (Scope.frames (bind_arguments argNames index args c)) = length (Scope.frames c).
Proof.
  revert index c. induction argNames as [|n rest IH]; intros index c; simpl; [reflexivity|].
  rewrite IH. apply frames_bindValue.
Qed.

Lemma frames_bind_template_names names n args c c' :
  bind_template_names names n args c = inr c' ->
  length (Scope.frames c') = length (Scope.frames c).
Proof.
  revert n c. induction names as [|x rest IH]; intros n c; simpl.
  - intros [= <-]. reflexivity.
  - destruct (length args <? n)%nat; [discriminate|].
    intros H. rewrite (IH _ _ H). apply frames_bindValue.
Qed.

Lemma allocated_bind_arguments argNames index args c :
  cells_allocated c -> cells_allocated (bind_arguments argNames index args c).
Proof.
  revert index c. induction argNames as [|n rest IH]; intros index c H; simpl; [exact H|].
  apply IH. apply allocated_bindValue. exact H.
Qed.

Lemma allocated_bind_template_names names n args c c' :
  bind_template_names names n args c = inr c' ->
  cells_allocated c -> cells_allocated c'.
Proof.
  revert n c. induction names as [|x rest IH]; intros n c; simpl.
  - intros [= <-] H. exact H.
  - destruct (length args <? n)%nat; [discriminate|].
    intros H Ha. apply (IH _ _ H). apply allocated_bindValue. exact Ha.
Qed.

(** A procedure call: the scope and the context pushed before the body are
    popped by the [finally] block. *)
Lemma keeps_procedure (m : M jsval) argNames args :
  keeps m ->
  keeps (parentScope <- read variables ;;
         let scope := bind_arguments argNames 0 args (Scope.child parentScope) in
         update (push_scope_and_context scope) ;;
         try_finally m pop_context_and_scope).
Proof.
  intros Hm s. unfold bind, read, update, try_finally. simpl.
  eapply ends_in_finally; [apply Hm|].
  intros s2 [[(Ht & Hl & _) Hf] Ha]. simpl in *. split; [split|]; simpl.
  - rewrite Ht. apply contexts_kept_refl.
  - rewrite frames_bind_arguments in Hf. simpl in Hf.
    rewrite length_drop. rewrite Hf. lia.
  - intros H0. apply allocated_ancestor. apply Ha.
    apply allocated_bind_arguments. apply allocated_child. exact H0.
Qed.

Lemma keeps_template (m : M jsval) scope :
  keeps m ->
  forall s, length (Scope.frames scope) = S (length (Scope.frames (variables s))) ->
  (cells_allocated (variables s) -> cells_allocated scope) ->
  ends_in (kept s)
    ((update (with_variables (fun _ => scope)) ;; try_finally m pop_scope) s).
Proof.
  intros Hm s Hlen Hal. unfold bind, read, update, try_finally. simpl.
  eapply ends_in_finally; [apply Hm|].
  intros s2 [[Hc Hf] Ha]. simpl in *. split; [split|]; simpl.
  - exact Hc.
  - rewrite length_drop. rewrite Hf, Hlen. lia.
  - intros H0. apply allocated_ancestor. apply Ha. apply Hal. exact H0.
Qed.

Lemma handlers_keep fuel :
  (forall body, keeps (evaluate fuel body))
  /\ (forall iter retval, keeps (evaluate_loop fuel iter retval))
  /\ (forall prio iter, keeps (handleArg fuel prio iter))
  /\ (forall leftValue oldprio iter, keeps (handleOperator fuel leftValue oldprio iter))
  /\ (forall iter, keeps (handleVariadic fuel iter))
  /\ (forall command func literal args iter,
        keeps (variadic_loop fuel command func literal args iter))
  /\ (forall prio iter, keeps (handleFixed fuel prio iter))
  /\ (forall prio func args iter, keeps (fixed_loop fuel prio func args iter))
  /\ (forall func args, keeps (performCall fuel func args))
  /\ (forall template args, keeps (runTemplate fuel template args)).
Proof.
  induction fuel as [|fuel IH].
  - repeat split; intros; apply keeps_stuck.
  - destruct IH as (Hev & Hloop & Harg & Hop & Hvar & Hvloop & Hfix & Hfloop & Hcall & Hrt).
    repeat split.
    + intros. simpl. keeps_auto.
    + intros. simpl. keeps_auto.
    + intros. simpl. keeps_auto.
    + intros. simpl. keeps_auto.
    + intros. simpl. keeps_auto.
    + intros. simpl. keeps_auto.
    + intros. simpl. keeps_auto.
    + intros. simpl. keeps_auto.
    + intros callee args. simpl.
      apply keeps_bind; [apply keeps_checkBreak | intros _].
      apply keeps_bind; [apply keeps_observe_call | intros _].
      apply keeps_bind; [|intros; keeps_auto].
      destruct callee as [b| |funcName argNames body].
      * apply keeps_call; assumption.
      * apply keeps_ret.
      * apply keeps_procedure. keeps_auto.
    + intros template args. simpl.
      destruct template as [[n|b|name|[|[n|b|w|names] template]]|];
        try solve [keeps_auto].
      intros s. unfold bind at 1. unfold read. simpl.
      destruct (bind_template_names names 0 args (Scope.child (variables s))) as [e|scope] eqn:E.
      * apply keeps_throw.
      * apply keeps_template; [apply Hev| |].
        -- rewrite (frames_bind_template_names _ _ _ _ _ E). reflexivity.
        -- intros H0. apply (allocated_bind_template_names _ _ _ _ _ E).
           apply allocated_child. exact H0.
Qed.

Lemma stacks_untouched_refl s : stacks_untouched s s.
Proof. split; reflexivity. Qed.

Lemma continue_leaves_the_stacks s : stacks_untouched s (Host.after (Host.continue s)).
Proof.
  unfold stacks_untouched, Host.continue.
  destruct (negb (running s)); [split; reflexivity|].
  destruct (negb (paused s)); [split; reflexivity|].
  simpl. destruct (oncontinue s); split; reflexivity.
Qed.

Lemma break_leaves_the_stacks s : stacks_untouched s (Host.after (Host.break s)).
Proof.
  unfold Host.break.
  destruct (negb (running s)); [split; reflexivity|].
  destruct (breakFlag s); [split; reflexivity|].
  simpl.
  destruct (onbreak s) as [[id|id]|]; simpl.
  - destruct (paused s); simpl; [|split; reflexivity].
    apply (continue_leaves_the_stacks (with_breakFlag true s)).
  - destruct (paused s); simpl; [|split; reflexivity].
    apply (continue_leaves_the_stacks (with_oncontinue None (with_breakFlag true s))).
  - destruct (paused s); simpl; [|split; reflexivity].
    apply (continue_leaves_the_stacks (with_breakFlag true s)).
Qed.

Lemma turns_leave_the_stacks s :
  stacks_untouched s (Host.after (Host.pause s))
  /\ stacks_untouched s (Host.after (Host.continue s))
  /\ stacks_untouched s (Host.after (Host.break s))
  /\ forall id, stacks_untouched s (Host.after (Host.timer_fires id s)).
Proof.
  split; [|split; [apply continue_leaves_the_stacks|split; [apply break_leaves_the_stacks|]]].
  - unfold Host.pause. destruct (negb (running s)); [split; reflexivity|].
    destruct (paused s); split; reflexivity.
  - intros id. split; reflexivity.
Qed.

Lemma quietly_deliver {A} (ev : Host.event) (r : res A) sf :
  settles_quietly (Host.deliver ev r) sf -> settles_quietly r sf.
Proof.
  assert (Hturn : forall t, (forall s, stacks_untouched s (Host.after (t s))) ->
                            settles_quietly (Host.take_turn t r) sf -> settles_quietly r sf).
  { intros t Ht. destruct r as [s a | s e | s p k | g]; simpl; try (intros H; exact H).
    destruct (Host.first_settlement _ _) as [o|]; intros H.
    - eapply quietly_await; [apply Ht | exact H].
    - inversion H as [ | | s0 p0 k0 s' o sf0 Hu Hk]; subst.
      eapply quietly_await; [|exact Hk].
      destruct (Ht s) as [Hc Hv]. destruct Hu as [Hc' Hv']. split; congruence. }
  destruct ev; simpl.
  - destruct r as [s a | s e | s p k | g]; try (intros H; exact H).
    destruct p; [|intros H; exact H].
    apply Hturn. intros s0. apply turns_leave_the_stacks.
  - apply Hturn. intros s0. apply turns_leave_the_stacks.
  - apply Hturn. intros s0. apply turns_leave_the_stacks.
  - apply Hturn. intros s0. apply turns_leave_the_stacks.
Qed.

Lemma quietly_after_events {A} (evs : list Host.event) (r : res A) sf :
  finished (Host.after_events evs r) sf -> settles_quietly r sf.
Proof.
  revert r. induction evs as [|ev evs IH]; intros r H; simpl in H.
  - destruct r; simpl in H; try contradiction; subst; constructor.
  - apply (quietly_deliver ev). apply IH. exact H.
Qed.

Lemma on_return_any {A B} (f : interp -> B) (r : res A) (b : B) :
  on_return f r = Some b -> exists s a, r = Ret s a /\ f s = b.
Proof.
  destruct r as [s a | s e | s p k | g]; simpl; intros H; try discriminate.
  exists s, a. split; [reflexivity | congruence].
Qed.

Lemma evaluate_keeps fuel body : keeps (evaluate fuel body).
Proof. apply (handlers_keep fuel). Qed.

Lemma performCall_keeps fuel func args : keeps (performCall fuel func args).
Proof. apply (handlers_keep fuel). Qed.

Lemma runTemplate_keeps fuel template args : keeps (runTemplate fuel template args).
Proof. apply (handlers_keep fuel). Qed.

Lemma execute_keeps fuel source : keeps (execute fuel source).
Proof.
  intros s. unfold execute. destruct (running s); [constructor; apply kept_refl|].
  destruct (Parser.parse fuel source) as [parsed | e | ];
    [|constructor; apply kept_refl|constructor].
  unfold try_finally. eapply ends_in_finally.
  - apply (keeps_bind (evaluate fuel (Some (VList parsed)))).
    + apply evaluate_keeps.
    + intros [v|]; [apply keeps_throw | apply keeps_ret].
  - intros s2 H2. exact H2.
Qed.

(** X1: when a call made by [performCall] is over, whether the callee
    returned or threw (a requested break included) and whatever turns the
    host took while it waited, the stack of contexts is as deep as before the
    call, the contexts below the current one are the same, a stack that held
    the global context only is unchanged, and the stack of scopes is as deep
    as before: the scope and the context that a procedure pushes are popped
    on every exit. *)
Theorem call_restores_the_stacks fuel func args s evs sf :
  finished (Host.after_events evs (performCall fuel func args s)) sf ->
  stacks_kept s sf.
Proof.
  intros H. apply quietly_after_events in H.
  apply (ends_in_settles (kept s) _ sf (performCall_keeps fuel func args s) H).
Qed.

Lemma call_restores_the_stacks_witness :
  exists sf,
    finished (Host.after_events [Host.Break]
                (performCall 40 waiting_procedure [number 600] running_host)) sf
    /\ stacks_kept running_host sf.
Proof.
  destruct (on_throw_some (fun _ => tt)
              (Host.after_events [Host.Break]
                 (performCall 40 waiting_procedure [number 600] running_host))
              (Error "Break requested") tt ltac:(vm_compute; reflexivity))
    as (sf & Hr & _).
  exists sf.
  assert (Hf : finished (Host.after_events [Host.Break]
                           (performCall 40 waiting_procedure [number 600] running_host))
                 sf) by (rewrite Hr; reflexivity).
  split; [exact Hf|].
  exact (call_restores_the_stacks 40 waiting_procedure [number 600] running_host
           [Host.Break] sf Hf).
Defined.

(** X2: the same for [runTemplate]: the scope pushed for the names of a
    template is popped on every exit, and the contexts are left as by a call. *)
Theorem template_restores_the_stacks fuel template args s evs sf :
  finished (Host.after_events evs (runTemplate fuel template args s)) sf ->
  stacks_kept s sf.
Proof.
  intros H. apply quietly_after_events in H.
  apply (ends_in_settles (kept s) _ sf (runTemplate_keeps fuel template args s) H).
Qed.

Lemma template_restores_the_stacks_witness :
  exists sf,
    finished (Host.after_events [] (runTemplate 40 printing_template [number 1] host)) sf
    /\ stacks_kept host sf.
Proof.
  destruct (on_return_any (fun s => printed s)
              (runTemplate 40 printing_template [number 1] host)
              ["1"] ltac:(vm_compute; reflexivity))
    as (sf & a & Hr & _).
  exists sf.
  assert (Hf : finished (Host.after_events []
                           (runTemplate 40 printing_template [number 1] host)) sf)
    by (rewrite Hr; reflexivity).
  split; [exact Hf|].
  exact (template_restores_the_stacks 40 printing_template [number 1] host [] sf Hf).
Defined.

(** X3: [execute] on an interpreter whose context stack holds the global
    context only ends, however it ends, with that same context alone on the
    stack, neither stopped nor given an output, and with as many scopes as
    before: [stop] and [output] act below the global context only, and every
    push is undone. *)
Theorem execute_leaves_the_global_context fuel source s evs sf g :
  contexts s = [g] ->
  finished (Host.after_events evs (execute fuel source s)) sf ->
  contexts sf = [g]
  /\ length (Scope.frames (variables sf)) = length (Scope.frames (variables s)).
Proof.
  intros Hg H. apply quietly_after_events in H.
  destruct (ends_in_settles _ _ _ (execute_keeps fuel source s) H) as [[(_ & _ & Hc) Hf] _].
  split; [|exact Hf]. rewrite <- Hg. apply Hc. rewrite Hg. reflexivity.
Qed.

Lemma execute_leaves_the_global_context_witness :
  exists sf,
    finished (Host.after_events [] (execute 100 "to f stop end f print 1" host)) sf
    /\ contexts sf = [mkContext undefined false]
    /\ length (Scope.frames (variables sf)) = 1%nat.
Proof.
  destruct (on_return_some (fun s => printed s)
              (execute 100 "to f stop end f print 1" host)
              ["1"] ltac:(vm_compute; reflexivity))
    as (sf & Hr & _).
  exists sf.
  assert (Hf : finished (Host.after_events []
                           (execute 100 "to f stop end f print 1" host)) sf)
    by (rewrite Hr; reflexivity).
  split; [exact Hf|].
  exact (execute_leaves_the_global_context 100 "to f stop end f print 1" host [] sf
           (mkContext undefined false) eq_refl Hf).
Defined.

(** The scopes of an interpreter bind allocated cells only, from its
    construction on and after every run. *)
Lemma execute_keeps_cells_allocated fuel source s evs sf :
  cells_allocated (variables s) ->
  finished (Host.after_events evs (execute fuel source s)) sf ->
  cells_allocated (variables sf).
Proof.
  intros Ha H. apply quietly_after_events in H.
  destruct (ends_in_settles _ _ _ (execute_keeps fuel source s) H) as [_ Hk].
  apply Hk. exact Ha.
Qed.

Lemma ends_in_same_contexts_bind {A B} (m : M A) (f : A -> M B) s :
  ends_in (same_contexts s) (m s) ->
  (forall a s1, same_contexts s s1 -> ends_in (same_contexts s1) (f a s1)) ->
  ends_in (same_contexts s) (bind m f s).
Proof.
  intros Hm Hf. unfold bind. eapply ends_in_bind; [exact Hm|auto|].
  intros a s1 H1. eapply ends_in_mono; [|apply Hf; exact H1].
  intros s2 H2. unfold same_contexts in *. congruence.
Qed.

Lemma checkBreak_same_contexts s : ends_in (same_contexts s) (checkBreak s).
Proof.
  unfold checkBreak.
  destruct (breakFlag s); [constructor; reflexivity|].
  destruct (paused s); [|constructor; reflexivity].
  constructor. intros s' [|reason] [Hc _]; constructor; exact Hc.
Qed.

Lemma observe_call_same_contexts f args s :
  ends_in (same_contexts s) (observe_call f args s).
Proof.
  unfold observe_call, bind, read. simpl. destruct (oncall s); constructor; reflexivity.
Qed.

Lemma observe_value_same_contexts v s :
  ends_in (same_contexts s) (observe_value v s).
Proof.
  unfold observe_value, bind, read. simpl. destruct (onvalue s); constructor; reflexivity.
Qed.

(** X4: a call of a procedure made by [procedure] leaves every context of the
    caller as it was, the current one included: [stop] and [output] in the
    callee end the callee, never the caller. *)
Theorem procedure_call_leaves_the_contexts_of_the_caller
  fuel funcName argNames body args s evs sf :
  finished (Host.after_events evs
              (performCall fuel (Procedure funcName argNames body) args s)) sf ->
  contexts sf = contexts s.
Proof.
  intros H. apply quietly_after_events in H.
  eapply (ends_in_settles (same_contexts s)); [|exact H].
  destruct fuel as [|fuel]; [constructor|]. simpl.
  apply ends_in_same_contexts_bind; [apply checkBreak_same_contexts|].
  intros _ s1 H1.
  apply ends_in_same_contexts_bind; [apply observe_call_same_contexts|].
  intros _ s2 H2.
  apply ends_in_same_contexts_bind.
  - unfold bind, read, update, try_finally. simpl.
    eapply ends_in_finally.
    + apply (keeps_bind (evaluate fuel (Some (VList body)))).
      * apply evaluate_keeps.
      * intros _. apply keeps_bind; [apply keeps_currentContext | intros; apply keeps_ret].
    + intros s3 [[(Ht & _) _] _]. unfold same_contexts. simpl in *. exact Ht.
  - intros [v|] s3 H3.
    + apply ends_in_same_contexts_bind; [apply observe_value_same_contexts|].
      intros _ s4 H4. constructor. reflexivity.
    + constructor. reflexivity.
Qed.

Lemma procedure_call_leaves_the_contexts_of_the_caller_witness :
  exists sf,
    finished (Host.after_events [] (performCall 40 stopping_procedure [] host)) sf
    /\ contexts sf = contexts host.
Proof.
  destruct (on_return_any (fun s => printed s)
              (performCall 40 stopping_procedure [] host)
              [] ltac:(vm_compute; reflexivity))
    as (sf & a & Hr & _).
  exists sf.
  assert (Hf : finished (Host.after_events [] (performCall 40 stopping_procedure [] host))
                 sf)
    by (rewrite Hr; reflexivity).
  split; [exact Hf|].
  exact (procedure_call_leaves_the_contexts_of_the_caller 40 "f" [] [VStr "stop"] []
           host [] sf Hf).
Defined.

(** ** [local] and [global] *)

Lemma lookup_root_bind_root fs name l :
  fs <> [] ->
  Scope.lookup_frames (drop (length fs - 1) (Scope.bind_root fs name l)) name = Some l.
Proof.
  induction fs as [|f [|g fs] IH]; intros Hne; [congruence| |].
  - simpl. rewrite lookup_insert_eq. reflexivity.
  - change (Scope.bind_root (f :: g :: fs) name l) with (f :: Scope.bind_root (g :: fs) name l).
    replace (length (f :: g :: fs) - 1)%nat with (S (length (g :: fs) - 1)) by (simpl; lia).
    simpl drop. apply IH. discriminate.
Qed.

(** Binding a name in the innermost scope to the cell that the root binds
    it to leaves the root's own answer. *)
Lemma lookup_root_insert (f : gmap string nat) fs name l :
  Scope.lookup_frames (drop (length (f :: fs) - 1) (f :: fs)) name = Some l ->
  Scope.lookup_frames (drop (length (f :: fs) - 1) (<[name := l]> f :: fs)) name = Some l.
Proof.
  destruct fs as [|g fs]; simpl.
  - intros _. rewrite lookup_insert_eq. reflexivity.
  - intros H. exact H.
Qed.

Lemma global_bind_shares_the_root_cell name (c : Scope.chain jsval) :
  Scope.frames c <> [] ->
  exists l,
    Scope.getBinding (Builtins.global_bind name c) name = Some l
    /\ Scope.getBinding (root_scope (Builtins.global_bind name c)) name = Some l.
Proof.
  intros Hne. unfold Builtins.global_bind, root_scope.
  destruct (Scope.frames c) as [|f fs] eqn:E; [congruence|].
  destruct (Scope.getBinding (Scope.ancestor (length (f :: fs) - 1) c) name) as [l|] eqn:Hroot.
  - exists l. unfold Scope.bind, Scope.getBinding, Scope.ancestor in *. rewrite E in *.
    simpl Scope.frames in *. split.
    + simpl. rewrite lookup_insert_eq. reflexivity.
    + replace (length (<[name:=l]> f :: fs) - 1)%nat with (length (f :: fs) - 1)%nat
        by reflexivity.
      apply lookup_root_insert. exact Hroot.
  - exists (Scope.fresh c).
    unfold Scope.newBinding, Scope.bind, Scope.getBinding, Scope.ancestor in *.
    simpl Scope.frames in *. rewrite E in *.
    pose proof (lookup_root_bind_root (f :: fs) name (Scope.fresh c) ltac:(discriminate)) as Hr.
    destruct (Scope.bind_root (f :: fs) name (Scope.fresh c)) as [|f' fs'] eqn:Eb.
    { pose proof (f_equal length Eb) as Hl.
      rewrite (length_bind_root (f :: fs)) in Hl. discriminate. }
    assert (Hlen : length (f' :: fs') = length (f :: fs)).
    { rewrite <- Eb. apply length_bind_root. }
    simpl Scope.frames. split.
    + simpl. rewrite lookup_insert_eq. reflexivity.
    + replace (length (<[name:=Scope.fresh c]> f' :: fs') - 1)%nat
        with (length (f' :: fs') - 1)%nat by reflexivity.
      apply lookup_root_insert. rewrite Hlen. exact Hr.
Qed.

Lemma update_scope_runs f s :
  Scope.frames (variables s) <> [] ->
  update_scope f s = Ret (with_variables f s) tt.
Proof.
  intros Hne. unfold update_scope, bind, currentScope, update.
  destruct (Scope.frames (variables s)); [congruence | reflexivity].
Qed.

Lemma thing_reads name s v :
  Scope.get (variables s) name = Some v ->
  Builtins.thing [Some (VStr name)] s = Ret s v.
Proof.
  intros Hget. unfold Builtins.thing. simpl. unfold bind, currentScope.
  unfold Scope.get in Hget.
  destruct (Scope.getBinding (variables s) name) as [l|] eqn:Hb; [|discriminate].
  unfold Scope.getBinding in Hb.
  destruct (Scope.frames (variables s)) eqn:E; [discriminate|].
  simpl. unfold Scope.getBinding at 1. rewrite E, Hb.
  unfold Scope.get, Scope.getBinding. rewrite E, Hb, Hget. reflexivity.
Qed.

Lemma nonempty_length {A} (l l' : list A) : length l' = length l -> l <> [] -> l' <> [].
Proof. destruct l, l'; simpl; congruence. Qed.

(** X7: [global] on a name followed by [make] on that name: the value is
    written to the binding of the global scope, whatever the scopes in
    between bind under that name, and [thing] reads it back in the current
    scope. *)
Theorem global_then_make_writes_the_global_binding name v s :
  Scope.frames (variables s) <> [] ->
  exists s1 s2,
    Builtins.global_ [Some (VStr name)] s = Ret s1 undefined
    /\ Builtins.make [Some (VStr name); v] s1 = Ret s2 undefined
    /\ Builtins.thing [Some (VStr name)] s2 = Ret s2 v
    /\ Scope.get (root_scope (variables s2)) name = Some v.
Proof.
  intros Hne.
  set (c1 := Builtins.global_bind name (variables s)).
  assert (Hne1 : Scope.frames c1 <> []).
  { eapply nonempty_length; [apply frames_global_bind | exact Hne]. }
  destruct (global_bind_shares_the_root_cell name (variables s) Hne) as (l & Hown & Hroot).
  fold c1 in Hown, Hroot.
  exists (with_variables (Builtins.global_bind name) s).
  exists (with_variables (fun c => Scope.set c name v)
            (with_variables (Builtins.global_bind name) s)).
  assert (Hset : Scope.set c1 name v
                 = Scope.Chain (Scope.frames c1) (<[l := v]> (Scope.cells c1)) (Scope.fresh c1)).
  { unfold Scope.set. rewrite Hown. reflexivity. }
  repeat split.
  - unfold Builtins.global_, Builtins.all_names. simpl.
    unfold bind at 1. unfold bind at 1. rewrite (update_scope_runs _ s Hne). reflexivity.
  - unfold Builtins.make. simpl. unfold bind.
    rewrite update_scope_runs by exact Hne1. reflexivity.
  - apply thing_reads. simpl. fold c1. rewrite Hset.
    unfold Scope.get, Scope.getBinding in *. simpl. rewrite Hown. apply lookup_insert_eq.
  - simpl. fold c1. rewrite Hset. unfold root_scope, Scope.get, Scope.getBinding in *.
    simpl in *. rewrite Hroot. apply lookup_insert_eq.
Qed.

Lemma global_then_make_writes_the_global_binding_witness :
  exists s1 s2,
    Builtins.global_ [Some (VStr "x")] in_a_procedure = Ret s1 undefined
    /\ Builtins.make [Some (VStr "x"); Some (VNum 2)] s1 = Ret s2 undefined
    /\ Builtins.thing [Some (VStr "x")] s2 = Ret s2 (Some (VNum 2))
    /\ Scope.get (root_scope (variables s2)) "x" = Some (Some (VNum 2)).
Proof.
  exact (global_then_make_writes_the_global_binding "x" (Some (VNum 2)) in_a_procedure
           ltac:(discriminate)).
Defined.

(** X6: [local] on a name followed by [make] on that name: both return
    nothing, [thing] then reads the value back in the current scope, and
    every scope around it finds what it found before under every name, the
    name itself included. *)
Theorem local_then_make_stays_in_the_current_scope name v s :
  cells_allocated (variables s) ->
  Scope.frames (variables s) <> [] ->
  exists s1 s2,
    Builtins.local_ [Some (VStr name)] s = Ret s1 undefined
    /\ Builtins.make [Some (VStr name); v] s1 = Ret s2 undefined
    /\ Builtins.thing [Some (VStr name)] s2 = Ret s2 v
    /\ forall k m,
         Scope.get (Scope.ancestor (S k) (variables s2)) m
         = Scope.get (Scope.ancestor (S k) (variables s)) m.
Proof.
  intros Hwf Hne.
  set (c1 := Scope.bindValue (variables s) name undefined).
  assert (Hne1 : Scope.frames c1 <> []).
  { eapply nonempty_length; [apply frames_bindValue | exact Hne]. }
  assert (Hown : Scope.getBinding c1 name = Some (Scope.fresh (variables s))).
  { unfold c1, Scope.bindValue, Scope.newBinding, Scope.bind, Scope.getBinding. simpl.
    destruct (Scope.frames (variables s)); [congruence|]. simpl.
    rewrite lookup_insert_eq. reflexivity. }
  exists (with_variables (fun c => Scope.bindValue c name undefined) s).
  exists (with_variables (fun c => Scope.set c name v)
            (with_variables (fun c => Scope.bindValue c name undefined) s)).
  assert (Hset : Scope.set c1 name v
                 = Scope.Chain (Scope.frames c1)
                     (<[Scope.fresh (variables s) := v]> (Scope.cells c1)) (Scope.fresh c1)).
  { unfold Scope.set. rewrite Hown. reflexivity. }
  repeat split.
  - unfold Builtins.local_, Builtins.all_names. simpl.
    unfold bind at 1. unfold bind at 1. rewrite (update_scope_runs _ s Hne). reflexivity.
  - unfold Builtins.make. simpl. unfold bind.
    rewrite update_scope_runs by exact Hne1. reflexivity.
  - apply thing_reads. simpl. fold c1. rewrite Hset.
    unfold Scope.get, Scope.getBinding in *. simpl. rewrite Hown. apply lookup_insert_eq.
  - intros k m. simpl. fold c1. rewrite Hset.
    destruct (bindValue_shadows_in_the_innermost_scope_only (variables s) name undefined
                Hwf Hne) as (_ & _ & Hout).
    rewrite <- (Hout k m). fold c1.
    unfold Scope.get, Scope.getBinding, Scope.ancestor. simpl.
    destruct (Scope.lookup_frames (drop (S k) (Scope.frames c1)) m) as [l|] eqn:Hl;
      [|reflexivity].
    apply lookup_insert_ne.
    destruct (lookup_frames_in _ _ _ Hl) as (g & Hin & Hg).
    (* a cell bound by an enclosing scope was allocated before the new one *)
    assert (Hin' : In g (Scope.frames (variables s))).
    { unfold c1, Scope.bindValue, Scope.newBinding, Scope.bind in Hin. simpl in Hin.
      destruct (Scope.frames (variables s)) as [|f fs] eqn:E; [congruence|].
      simpl in Hin. right. rewrite <- (take_drop k fs). apply in_or_app. right. exact Hin. }
    specialize (Hwf g m l Hin' Hg). lia.
Qed.

Lemma local_then_make_stays_in_the_current_scope_witness :
  exists s1 s2,
    Builtins.local_ [Some (VStr "x")] in_a_procedure = Ret s1 undefined
    /\ Builtins.make [Some (VStr "x"); Some (VNum 2)] s1 = Ret s2 undefined
    /\ Builtins.thing [Some (VStr "x")] s2 = Ret s2 (Some (VNum 2))
    /\ forall k m,
         Scope.get (Scope.ancestor (S k) (variables s2)) m
         = Scope.get (Scope.ancestor (S k) (variables in_a_procedure)) m.
Proof.
  exact (local_then_make_stays_in_the_current_scope "x" (Some (VNum 2)) in_a_procedure
           inner_chain_allocated ltac:(discriminate)).
Defined.

(** ** [push] *)

Lemma lookup_frames_bind_root_other fs key name l :
  name <> key ->
  Scope.lookup_frames (Scope.bind_root fs key l) name = Scope.lookup_frames fs name.
Proof.
  intros Hne. induction fs as [|f [|g fs] IH]; [reflexivity| |].
  - simpl. rewrite lookup_insert_ne by congruence. reflexivity.
  - change (Scope.bind_root (f :: g :: fs) key l)
      with (f :: Scope.bind_root (g :: fs) key l).
    cbn [Scope.lookup_frames]. rewrite IH. reflexivity.
Qed.

(** X25: [push] on a variable that holds a list returns nothing and leaves
    the variable as it was: the new list is passed to [set] where the name
    belongs, with no value, so that the variable named by the text of the new
    list, brackets included, is set to [undefined]. *)
Theorem push_leaves_the_variable_as_it_was name l v s :
  let key := List_.toString (Some (VList (v :: l))) in
  cells_allocated (variables s) ->
  Scope.get (variables s) name = Some (Some (VList l)) ->
  name <> key ->
  Scope.getBinding (variables s) key = None ->
  exists s',
    Builtins.push [Some (VStr name); Some v] s = Ret s' undefined
    /\ Scope.get (variables s') name = Some (Some (VList l))
    /\ Scope.get (variables s') key = Some undefined.
Proof.
  intros key Hwf Hget Hne Hfree.
  assert (Hbound : exists cell, Scope.getBinding (variables s) name = Some cell
                                /\ Scope.cells (variables s) !! cell = Some (Some (VList l))).
  { unfold Scope.get in Hget.
    destruct (Scope.getBinding (variables s) name) as [cell|]; [|discriminate]. eauto. }
  destruct Hbound as (cell & Hcell & Hval).
  assert (Hframes : Scope.frames (variables s) <> []).
  { unfold Scope.getBinding in Hcell. destruct (Scope.frames (variables s)); [|discriminate].
    discriminate. }
  assert (Hlt : (cell < Scope.fresh (variables s))%nat).
  { unfold Scope.getBinding in Hcell.
    destruct (lookup_frames_in _ _ _ Hcell) as (f & Hin & Hf). exact (Hwf f name cell Hin Hf). }
  exists (with_variables (fun c => Scope.set c key undefined) s).
  split; [|split].
  - unfold Builtins.push. cbn [arg nth]. unfold bind at 1.
    change (Coerce.toPropertyKey (Some (VStr name))) with name.
    unfold scope_get, bind, currentScope.
    destruct (Scope.frames (variables s)) eqn:E; [congruence|].
    cbn [bind_res]. rewrite Hcell. unfold ret at 1. rewrite Hget. cbn [default bind_res].
    unfold newList, ret at 1. cbn [bind_res].
    unfold update_scope, bind, currentScope. cbn [id]. rewrite E. reflexivity.
  - simpl. unfold Scope.set. rewrite Hfree. simpl.
    unfold Scope.get, Scope.getBinding in *. simpl.
    rewrite lookup_frames_bind_root_other by exact Hne.
    rewrite Hcell. rewrite lookup_insert_ne by lia. exact Hval.
  - simpl. unfold Scope.set. rewrite Hfree. simpl.
    unfold Scope.get, Scope.getBinding in *. simpl.
    pose proof (lookup_frames_bind_root (Scope.frames (variables s)) key
                  (Scope.fresh (variables s)) 0 Hfree) as Hroot.
    rewrite drop_0 in Hroot. rewrite Hroot.
    + apply lookup_insert_eq.
    + destruct (Scope.frames (variables s)); [congruence | simpl; lia].
Qed.

Lemma push_leaves_the_variable_as_it_was_witness :
  exists s',
    Builtins.push [Some (VStr "xs"); Some (VStr "c")] holding_a_list = Ret s' undefined
    /\ Scope.get (variables s') "xs" = Some (Some (VList [VStr "a"; VStr "b"]))
    /\ Scope.get (variables s') "[c a b]" = Some undefined.
Proof.
  exact (push_leaves_the_variable_as_it_was "xs" [VStr "a"; VStr "b"] (VStr "c")
           holding_a_list (allocated_bindValue _ _ _ allocated_empty) eq_refl
           ltac:(discriminate) eq_refl).
Defined.

(** ** Lists and words *)

(** X8: a list that is not empty is rebuilt from its parts: [fput] of its
    [first] on its [butfirst] gives the list, and so does [lput] of its
    [last] on its [butlast]. *)
Theorem list_is_rebuilt_from_its_ends (l : list value) s :
  l <> [] ->
  (exists h t,
      Builtins.first [Some (VList l)] s = Ret s h
      /\ Builtins.butfirst [Some (VList l)] s = Ret s t
      /\ Builtins.fput [h; t] s = Ret s (Some (VList l)))
  /\ (exists i e,
        Builtins.butlast [Some (VList l)] s = Ret s i
        /\ Builtins.last_ [Some (VList l)] s = Ret s e
        /\ Builtins.lput [e; i] s = Ret s (Some (VList l))).
Proof.
  intros Hne. split.
  - destruct l as [|x l]; [congruence|].
    exists (Some x), (Some (VList l)). repeat split; reflexivity.
  - destruct (exists_last Hne) as (i & e & ->).
    exists (Some (VList i)), (Some e).
    assert (Hcons : exists y r, (i ++ [e])%list = y :: r).
    { destruct i; simpl; eauto. }
    destruct Hcons as (y & r & Hcons).
    unfold Builtins.butlast, Builtins.last_, Builtins.lput, Builtins.lst. simpl.
    rewrite Hcons. rewrite <- Hcons.
    rewrite removelast_last. simpl List.map. rewrite List.map_app. simpl List.map. rewrite List.last_last. repeat split; reflexivity.
Qed.

Lemma list_is_rebuilt_from_its_ends_witness :
  (exists h t,
      Builtins.first [list_abc] host = Ret host h
      /\ Builtins.butfirst [list_abc] host = Ret host t
      /\ Builtins.fput [h; t] host = Ret host list_abc)
  /\ (exists i e,
        Builtins.butlast [list_abc] host = Ret host i
        /\ Builtins.last_ [list_abc] host = Ret host e
        /\ Builtins.lput [e; i] host = Ret host list_abc).
Proof.
  exact (list_is_rebuilt_from_its_ends [VStr "a"; VStr "b"; VStr "c"] host
           ltac:(discriminate)).
Defined.

(** X9: on a word that is not empty [first] returns the first character and
    [butfirst] the rest, and [word] of the two gives the word back; [butlast]
    returns the empty word whatever the word ([substr] with a negative
    length). *)
Theorem word_is_rebuilt_from_first_and_butfirst (c : ascii) (w : string) s :
  Builtins.first [Some (VStr (String c w))] s = Ret s (Some (VStr (JS.char_string c)))
  /\ Builtins.butfirst [Some (VStr (String c w))] s = Ret s (Some (VStr w))
  /\ Builtins.word [Some (VStr (JS.char_string c)); Some (VStr w)] s
     = Ret s (Some (VStr (String c w)))
  /\ Builtins.butlast [Some (VStr (String c w))] s = Ret s (Some (VStr "")).
Proof. repeat split; reflexivity. Qed.

(** X10: [reverse] of the [reverse] of a list is the list, and [first] of the
    reversed list answers as [last] of the list does, the error on the empty
    list included. *)
Theorem reverse_twice_gives_the_list_back (l : list value) s :
  exists r,
    Builtins.reverse [Some (VList l)] s = Ret s (Some (VList r))
    /\ Builtins.reverse [Some (VList r)] s = Ret s (Some (VList l))
    /\ Builtins.first [Some (VList r)] s = Builtins.last_ [Some (VList l)] s.
Proof.
  exists (rev l). unfold Builtins.reverse, Builtins.lst. simpl.
  rewrite !rev_append_rev, !app_nil_r, rev_involutive. repeat split.
  destruct l as [|x l] using rev_ind; [reflexivity|].
  rewrite rev_app_distr. simpl.
  unfold Builtins.last_. simpl.
  destruct (l ++ [x])%list eqn:E; [destruct l; discriminate|]. rewrite <- E.
  rewrite List.map_app. simpl List.map. rewrite List.last_last. reflexivity.
Qed.

Lemma se_loop_splices (vs : list value) (items : list value) s :
  Builtins.se_loop (map Some vs) items s
  = Ret s (items ++ concat (map sentence_items vs))%list.
Proof.
  revert items. induction vs as [|v vs IH]; intros items; simpl.
  - rewrite app_nil_r. reflexivity.
  - destruct v; simpl; unfold bind; simpl; rewrite IH; rewrite <- app_assoc; reflexivity.
Qed.

Lemma List_from_collects (vs : list value) (items : list value) s :
  Builtins.List_from (map Some vs) items s = Ret s (items ++ vs)%list.
Proof.
  revert items. induction vs as [|v vs IH]; intros items; simpl.
  - rewrite app_nil_r. reflexivity.
  - unfold bind; simpl. rewrite IH, <- app_assoc. reflexivity.
Qed.

(** X11: with two or more arguments, all of them values, [se] returns the
    list in which each list argument is replaced by its items (one level
    only) and each other argument stands for itself, and [list] returns the
    list of the arguments themselves. *)
Theorem se_splices_and_list_wraps (vs : list value) s :
  (2 <= length vs)%nat ->
  Builtins.se (map Some vs) s = Ret s (Some (VList (concat (map sentence_items vs))))
  /\ Builtins.list_ (map Some vs) s = Ret s (Some (VList vs)).
Proof.
  intros Hlen. destruct vs as [|a [|b vs]]; simpl in Hlen; try lia.
  split.
  - unfold Builtins.se, bind.
    change (Builtins.two_and_rest (map Some (a :: b :: vs))) with (map Some (a :: b :: vs)).
    rewrite se_loop_splices. reflexivity.
  - unfold Builtins.list_, bind. simpl. rewrite drop_0, List_from_collects. reflexivity.
Qed.

Lemma se_splices_and_list_wraps_witness :
  Builtins.se [Some (VStr "a"); Some (VList [VStr "b"; VStr "c"])] host
  = Ret host (Some (VList [VStr "a"; VStr "b"; VStr "c"]))
  /\ Builtins.list_ [Some (VStr "a"); Some (VList [VStr "b"; VStr "c"])] host
     = Ret host (Some (VList [VStr "a"; VList [VStr "b"; VStr "c"]])).
Proof.
  exact (se_splices_and_list_wraps [VStr "a"; VList [VStr "b"; VStr "c"]] host (le_n 2)).
Defined.

(** X12: [remove] of a word, number or boolean from a list returns the items
    that are not strictly equal to it, in their order; removing it again
    changes nothing. *)
Theorem remove_filters_a_word_out (t : value) (l : list value) s :
  isWord (Some t) = true ->
  let remaining := List.filter (differs_from t) l in
  Builtins.remove [Some t; Some (VList l)] s = Ret s (Some (VList remaining))
  /\ Builtins.remove [Some t; Some (VList remaining)] s = Ret s (Some (VList remaining)).
Proof.
  intros Hw remaining.
  assert (Hloop : forall l', Builtins.remove_loop (Some t) l' s
                             = Ret s (List.filter (differs_from t) l')).
  { induction l' as [|x l' IH]; [reflexivity|].
    cbn [Builtins.remove_loop List.filter]. unfold bind.
    assert (Hk : List_.strict_not_equal (Some t) x = Some (differs_from t x)).
    { destruct t; try discriminate; reflexivity. }
    rewrite Hk. cbn [determined ret bind_res]. rewrite IH. cbn [bind_res].
    destruct (differs_from t x); reflexivity. }
  assert (Hidem : List.filter (differs_from t) remaining = remaining).
  { subst remaining. induction l as [|x l IH]; [reflexivity|]. simpl.
    destruct (differs_from t x) eqn:E; simpl; rewrite ?E, IH; reflexivity. }
  unfold Builtins.remove, bind. cbn [arg nth]. rewrite !Hloop. cbn [bind_res].
  fold remaining. rewrite Hidem. split; reflexivity.
Qed.

Lemma remove_filters_a_word_out_witness :
  Builtins.remove [Some (VStr "a"); Some (VList [VStr "a"; VStr "b"; VStr "a"])] host
  = Ret host (Some (VList [VStr "b"]))
  /\ Builtins.remove [Some (VStr "a"); Some (VList [VStr "b"])] host
     = Ret host (Some (VList [VStr "b"])).
Proof.
  exact (remove_filters_a_word_out (VStr "a") [VStr "a"; VStr "b"; VStr "a"] host eq_refl).
Defined.

Lemma value_induction (P : value -> Prop) :
  (forall n, P (VNum n)) -> (forall b, P (VBool b)) -> (forall s, P (VStr s)) ->
  (forall l, Forall P l -> P (VList l)) ->
  forall v, P v.
Proof.
  intros Hn Hb Hs Hl.
  fix IH 1. intros [n|b|s|l]; [apply Hn | apply Hb | apply Hs |].
  apply Hl. induction l as [|x l IHl]; constructor; [apply IH | exact IHl].
Qed.

Lemma equal_heads_structural a :
  number_free a = true ->
  forall b, number_free b = true ->
    (List_.equal_heads a b = true <-> a = b)
    /\ List_.same_shape a b = List_.equal_heads a b.
Proof.
  induction a as [n|x|x|la IH] using value_induction; intros Ha b Hb;
    try discriminate.
  - destruct b as [n|y|y|lb]; try discriminate; simpl.
    + split; [|reflexivity]. destruct x, y; simpl; split; congruence.
    + split; [split; congruence | reflexivity].
    + split; [split; congruence | reflexivity].
  - destruct b as [n|y|y|lb]; try discriminate; simpl.
    + split; [split; congruence | reflexivity].
    + split; [|reflexivity]. rewrite String.eqb_eq. split; congruence.
    + split; [split; congruence | reflexivity].
  - destruct b as [n|y|y|lb]; try discriminate.
    + simpl. split; [split; congruence | reflexivity].
    + simpl. split; [split; congruence | reflexivity].
    + simpl in Ha, Hb. revert lb Hb.
      induction IH as [|x la Hx _ IHla]; intros [|y lb] Hb.
      * split; [split; reflexivity | reflexivity].
      * simpl. split; [split; congruence | reflexivity].
      * simpl. split; [split; congruence | reflexivity].
      * simpl in Ha, Hb. apply andb_prop in Ha. apply andb_prop in Hb.
        destruct Ha as [Hax Hal], Hb as [Hby Hbl].
        destruct (Hx Hax y Hby) as [Hxy Hsxy].
        destruct (IHla Hal lb Hbl) as [Hl Hsl].
        change (List_.equal_heads (VList (x :: la)) (VList (y :: lb)))
          with (List_.equal_heads x y && List_.equal_heads (VList la) (VList lb)).
        change (List_.same_shape (VList (x :: la)) (VList (y :: lb)))
          with (List_.same_shape x y && List_.same_shape (VList la) (VList lb)).
        rewrite Hsxy, Hsl. split; [|reflexivity].
        rewrite andb_true_iff, Hxy, Hl. split.
        -- intros [-> H]. inversion H. reflexivity.
        -- intros H. inversion H. split; reflexivity.
Qed.

(** X13: on values that hold no number, [=] and [equalp] return true for the
    same tree of words and booleans and false for two different ones, whether
    or not the two are one record. *)
Theorem equalp_is_structural_without_numbers (a b : value) s :
  number_free a = true -> number_free b = true ->
  (a = b -> Builtins.equals [Some a; Some b] s = Ret s (Some (VBool true)))
  /\ (a <> b -> Builtins.equals [Some a; Some b] s = Ret s (Some (VBool false))).
Proof.
  intros Ha Hb. destruct (equal_heads_structural a Ha b Hb) as [Heq Hshape].
  unfold Builtins.equals, bind, List_.equal. cbn [arg nth].
  rewrite Hshape.
  destruct (List_.equal_heads a b) eqn:E.
  - split; [reflexivity|]. intros Hne. exfalso. apply Hne. apply Heq. reflexivity.
  - rewrite andb_false_r. split; [|reflexivity].
    intros H. apply Heq in H. discriminate.
Qed.

Lemma equalp_is_structural_without_numbers_witness :
  Builtins.equals [Some nested_sample; Some nested_sample] host = Ret host (Some (VBool true))
  /\ Builtins.equals [Some nested_sample; Some (VList [])] host
     = Ret host (Some (VBool false)).
Proof.
  split.
  - exact (proj1 (equalp_is_structural_without_numbers nested_sample nested_sample host
                    eq_refl eq_refl) eq_refl).
  - exact (proj2 (equalp_is_structural_without_numbers nested_sample (VList []) host
                    eq_refl eq_refl) ltac:(discriminate)).
Defined.

(** ** Templates and procedure definitions *)

Lemma bind_template_names_checks names n args (c : Scope.chain jsval) :
  ((length names + n <= S (length args))%nat ->
     exists scope, bind_template_names names n args c = inr scope)
  /\ ((S (length args) < length names + n)%nat -> names <> [] ->
        bind_template_names names n args c
        = inl (ReferenceError "Not enough arguments given to template")).
Proof.
  revert n c. induction names as [|name rest IH]; intros n c.
  - split; [intros _; eexists; reflexivity | intros _ H; congruence].
  - cbn [bind_template_names length]. split.
    + intros H. destruct (Nat.ltb_spec (length args) n) as [Hlt|Hge]; [lia|].
      apply IH. lia.
    + intros H _. destruct (Nat.ltb_spec (length args) n) as [Hlt|Hge]; [reflexivity|].
      destruct rest as [|name' rest'].
      * simpl in H. lia.
      * apply IH; [simpl in *; lia | discriminate].
Qed.

(** X14: a template with a list of names fails with the reference error only
    when it has at least two names more than there are arguments; with one
    name more the names are bound all the same (the last to [undefined]) and
    the body is evaluated in the new scope. *)
Theorem template_asks_for_one_argument_less fuel names body args s :
  ((S (length args) < length names)%nat ->
     runTemplate (S fuel) (Some (VList (VList names :: body))) args s
     = Throw s (ReferenceError "Not enough arguments given to template"))
  /\ ((length names <= S (length args))%nat ->
        exists scope,
          bind_template_names names 0 args (Scope.child (variables s)) = inr scope
          /\ runTemplate (S fuel) (Some (VList (VList names :: body))) args s
             = finally_res
                 (evaluate fuel (Some (VList body)) (with_variables (fun _ => scope) s))
                 pop_scope).
Proof.
  destruct (bind_template_names_checks names 0 args (Scope.child (variables s)))
    as [Hok Hfail].
  split; intros H.
  - cbn [runTemplate]. unfold bind at 1. unfold read. cbn [bind_res].
    rewrite Hfail; [reflexivity | lia | destruct names; simpl in H; [lia | discriminate]].
  - destruct Hok as [scope Hscope]; [lia|].
    exists scope. split; [exact Hscope|].
    cbn [runTemplate]. unfold bind at 1. unfold read. cbn [bind_res].
    rewrite Hscope. reflexivity.
Qed.

Lemma template_asks_for_one_argument_less_witness :
  runTemplate 5 (Some (VList [VList [VStr "a"; VStr "b"; VStr "c"]; VStr "show"; VStr ":c"]))
    [number 1] host
  = Throw host (ReferenceError "Not enough arguments given to template")
  /\ exists scope,
       bind_template_names [VStr "a"; VStr "b"] 0 [number 1]
         (Scope.child (variables host)) = inr scope
       /\ runTemplate 5 (Some (VList [VList [VStr "a"; VStr "b"]; VStr "show"; VStr ":a"]))
            [number 1] host
          = finally_res
              (evaluate 4 (Some (VList [VStr "show"; VStr ":a"]))
                 (with_variables (fun _ => scope) host))
              pop_scope.
Proof.
  split.
  - exact (proj1 (template_asks_for_one_argument_less 4
                    [VStr "a"; VStr "b"; VStr "c"] [VStr "show"; VStr ":c"] [number 1] host)
             ltac:(simpl; lia)).
  - exact (proj2 (template_asks_for_one_argument_less 4
                    [VStr "a"; VStr "b"] [VStr "show"; VStr ":a"] [number 1] host)
             ltac:(simpl; lia)).
Defined.





Lemma collect_arg_names_collects names acc x tail :
  not_colon_word x = true ->
  collect_arg_names (List.map colon_word names ++ x :: tail) acc
  = inr ((acc ++ names)%list, x :: tail).
Proof.
  intros Hx. revert acc. induction names as [|n names IH]; intros acc.
  - rewrite app_nil_r. simpl.
    destruct x as [| |[|c w]|]; try reflexivity.
    unfold not_colon_word in Hx.
    destruct c as [[] [] [] [] [] [] [] []]; try reflexivity; discriminate.
  - simpl. rewrite IH. rewrite <- app_assoc. reflexivity.
Qed.

Lemma collect_body_collects body acc rest :
  (forall x, In x body -> is_word (Some x) "end" = false) ->
  collect_body (body ++ VStr "end" :: rest) acc = inr ((acc ++ body)%list, rest).
Proof.
  revert acc. induction body as [|x body IH]; intros acc Hbody.
  - rewrite app_nil_r. reflexivity.
  - cbn [app collect_body]. rewrite (Hbody x (or_introl eq_refl)).
    rewrite IH; [|intros y Hy; apply Hbody; right; exact Hy].
    rewrite <- app_assoc. reflexivity.
Qed.

(** X16: [to name :a :b ... body end]: the words that start with a colon
    after the name are the argument names, the items up to the first word
    [end] the body; the name is bound in the procedure scope to that
    procedure, in place of what it was bound to, where [validateCommand]
    finds it; the cursor is left behind [end], and scopes and contexts are
    untouched. *)
Theorem to_defines_the_procedure name names body rest s :
  (forall x, In x body -> is_word (Some x) "end" = false) ->
  not_colon_word (hd (VStr "end") body) = true ->
  exists s',
    handleTo (VStr "to" :: VStr name :: List.map colon_word names
                ++ body ++ VStr "end" :: rest)%list s
    = Ret s' rest
    /\ procedureScope s' = <[name := Procedure name names body]> (procedureScope s)
    /\ validateCommand (Some (VStr name)) true s' = Ret s' (Procedure name names body)
    /\ variables s' = variables s /\ contexts s' = contexts s.
Proof.
  intros Hbody Hfirst.
  exists (with_procedureScope (fun scope => <[name := Procedure name names body]> scope) s).
  assert (Hiter : exists x tail, (body ++ VStr "end" :: rest)%list = x :: tail
                                 /\ not_colon_word x = true).
  { destruct body as [|x body]; simpl in *; eauto. }
  destruct Hiter as (x & tail & Hiter & Hx).
  repeat split.
  - unfold handleTo. cbn [tl]. rewrite Hiter.
    rewrite (collect_arg_names_collects names [] x tail Hx). rewrite <- Hiter.
    rewrite (collect_body_collects body [] rest Hbody). reflexivity.
  - unfold validateCommand. simpl. unfold bind, read. simpl.
    rewrite lookup_insert_eq. reflexivity.
Qed.

Lemma square_body_has_no_end :
  forall x, In x square_body -> is_word (Some x) "end" = false.
Proof. intros x [<-|[<-|[<-|[<-|[]]]]]; reflexivity. Qed.

Lemma to_defines_the_procedure_witness :
  exists s',
    handleTo (VStr "to" :: VStr "sq" :: List.map colon_word ["n"]
                ++ square_body ++ VStr "end" :: [VStr "print"; VStr "sq"; VNum 7])%list host
    = Ret s' [VStr "print"; VStr "sq"; VNum 7]
    /\ procedureScope s' = <["sq" := Procedure "sq" ["n"] square_body]> (procedureScope host)
    /\ validateCommand (Some (VStr "sq")) true s' = Ret s' (Procedure "sq" ["n"] square_body)
    /\ variables s' = variables host /\ contexts s' = contexts host.
Proof.
  exact (to_defines_the_procedure "sq" ["n"] square_body
           [VStr "print"; VStr "sq"; VNum 7] host square_body_has_no_end eq_refl).
Defined.

(** ** Calls with number literals *)

Lemma stopped_reads_the_flag s c cs :
  contexts s = c :: cs -> stopped s = Ret s (stop c).
Proof.
  intros Hc. unfold stopped, bind, currentContext, ret. rewrite Hc. reflexivity.
Qed.

(** A number literal that no operator follows is an argument of its own. *)
Lemma handleArg_number fuel prio x more s :
  onvalue s = false ->
  isOperator (hd_error more) = false ->
  handleArg (S fuel) prio (VNum x :: more) s = Ret s (Some (VNum x), more).
Proof.
  intros Hobs Hop. simpl.
  unfold bind, handleLiteral, observe_value, bind, read, ret. simpl.
  rewrite Hobs. simpl. rewrite Hop. reflexivity.
Qed.

Lemma fixed_loop_step fuel prio callee args iter :
  fixed_loop (S fuel) prio callee args iter
  = (st <- stopped ;;
     if st then ret (undefined, iter)
     else if (func_length callee <=? length args)%nat then
       retval <- performCall fuel callee args ;; ret (retval, iter)
     else
       match iter with
       | [] => throw (SyntaxError "End of input expecting fixed arg")
       | head :: _ =>
           if is_word (Some head) ")" then throw (SyntaxError "Unexpected close paren")
           else
             r <- handleArg fuel prio iter ;;
             match fst r with
             | None =>
                 throw (SyntaxError ("Expected output from arg to " ++ func_name callee))
             | Some _ => fixed_loop fuel prio callee (args ++ [fst r]) (snd r)
             end
       end).
Proof. reflexivity. Qed.

Lemma fixed_loop_collects callee prio rest s c cs m :
  contexts s = c :: cs -> stop c = false ->
  onvalue s = false ->
  isOperator (hd_error rest) = false ->
  forall remaining args,
    func_length callee = (length args + length remaining)%nat ->
    fixed_loop (S (length remaining + m)) prio callee args
      (List.map VNum remaining ++ rest)%list s
    = bind (performCall m callee (args ++ List.map number_argument remaining)%list)
        (fun r => ret (r, rest)) s.
Proof.
  intros Hc Hstop Hobs Hop.
  induction remaining as [|x remaining IH]; intros args Hlen.
  - simpl length. simpl List.map. rewrite !app_nil_r. simpl app.
    cbn [Nat.add]. rewrite fixed_loop_step. unfold bind at 1.
    rewrite (stopped_reads_the_flag s c cs Hc), Hstop. cbn [bind_res].
    replace (func_length callee <=? length args)%nat with true
      by (symmetry; apply Nat.leb_le; simpl in Hlen; lia).
    reflexivity.
  - simpl length. cbn [Nat.add List.map app].
    rewrite fixed_loop_step. unfold bind at 1.
    rewrite (stopped_reads_the_flag s c cs Hc), Hstop. cbn [bind_res].
    replace (func_length callee <=? length args)%nat with false
      by (symmetry; apply Nat.leb_gt; simpl in Hlen; lia).
    cbn [is_word]. unfold bind at 1.
    rewrite handleArg_number; [|exact Hobs|].
    + cbn [bind_res fst snd].
      change (Some (VNum x)) with (number_argument x).
      rewrite (IH (args ++ [number_argument x])%list).
      * rewrite <- app_assoc. reflexivity.
      * rewrite length_app. simpl in *. lia.
    + destruct remaining; [exact Hop | reflexivity].
Qed.

(** X17: a command word followed by number literals: [handleFixed] takes as
    many of them as the function bound to the word has parameters, calls the
    function with these, and leaves the cursor at the rest; what follows is
    not looked at, but for an operator right behind the last argument. *)
Theorem fixed_call_takes_as_many_arguments_as_the_callee_has
  name callee nums rest prio s c cs m :
  procedureScope s !! name = Some callee ->
  is_word (Some (VStr name)) "-" = false ->
  is_word (Some (VStr name)) ")" = false ->
  func_length callee = length nums ->
  contexts s = c :: cs -> stop c = false ->
  onvalue s = false ->
  isOperator (hd_error rest) = false ->
  handleFixed (S (S (length nums + m))) prio
    (VStr name :: List.map VNum nums ++ rest)%list s
  = bind (performCall m callee (List.map number_argument nums))
      (fun r => ret (r, rest)) s.
Proof.
  intros Hbound Hminus Hparen Hlen Hc Hstop Hobs Hop.
  cbn [handleFixed hd_error tl]. rewrite Hparen.
  unfold bind at 1. unfold validateCommand. rewrite Hminus. cbn [negb andb].
  unfold bind at 1. unfold read. cbn [bind_res]. rewrite Hbound.
  unfold ret at 1. cbn [bind_res].
  apply (fixed_loop_collects callee prio rest s c cs m Hc Hstop Hobs Hop nums []).
  simpl. exact Hlen.
Qed.

Lemma fixed_call_takes_as_many_arguments_as_the_callee_has_witness :
  handleFixed (S (S (length [1%float; 2%float] + 3))) (Some 0%nat)
    (VStr "sum" :: List.map VNum [1%float; 2%float] ++ [VStr "print"])%list host
  = bind (performCall 3 (Builtin b_sum) (List.map number_argument [1%float; 2%float]))
      (fun r => ret (r, [VStr "print"])) host.
Proof.
  exact (fixed_call_takes_as_many_arguments_as_the_callee_has "sum" (Builtin b_sum)
           [1%float; 2%float] [VStr "print"] (Some 0%nat) host (mkContext undefined false)
           [] 3 ltac:(vm_compute; reflexivity) eq_refl eq_refl eq_refl eq_refl eq_refl
           eq_refl eq_refl).
Defined.

Lemma variadic_loop_step fuel command callee literal args iter :
  variadic_loop (S fuel) command callee literal args iter
  = (st <- stopped ;;
     if st then ret (undefined, iter)
     else
       match iter with
       | [] => throw (SyntaxError "End of input expecting variadic arg")
       | head :: rest =>
           if is_word (Some head) ")" then
             match callee with
             | Some f =>
                 if (length args <? func_length f)%nat then
                   throw (SyntaxError ("Not enough args to " ++ List_.toString command))
                 else
                   retval <- performCall fuel f args ;; ret (retval, rest)
             | None =>
                 match args with
                 | _ :: _ => throw (SyntaxError "Got unexpected args to a literal")
                 | [] => ret (literal, rest)
                 end
             end
           else
             r <- handleArg fuel (Some 0%nat) iter ;;
             match fst r with
             | None =>
                 throw (SyntaxError
                          ("Expected output from arg to " ++ List_.toString command))
             | Some _ =>
                 variadic_loop fuel command callee literal (args ++ [fst r]) (snd r)
             end
       end).
Proof. reflexivity. Qed.

Lemma variadic_loop_collects command callee rest s c cs m :
  contexts s = c :: cs -> stop c = false ->
  onvalue s = false ->
  forall remaining args,
    variadic_loop (S (length remaining + m)) command (Some callee) undefined args
      (List.map VNum remaining ++ VStr ")" :: rest)%list s
    = if (length (args ++ List.map number_argument remaining) <? func_length callee)%nat
      then Throw s (SyntaxError ("Not enough args to " ++ List_.toString command))
      else bind (performCall m callee (args ++ List.map number_argument remaining)%list)
             (fun r => ret (r, rest)) s.
Proof.
  intros Hc Hstop Hobs.
  induction remaining as [|x remaining IH]; intros args.
  - simpl length. simpl List.map. rewrite !app_nil_r. simpl app.
    cbn [Nat.add]. rewrite variadic_loop_step. unfold bind at 1.
    rewrite (stopped_reads_the_flag s c cs Hc), Hstop. cbn [bind_res].
    change (is_word (Some (VStr ")")) ")") with true. cbv iota.
    destruct (length args <? func_length callee)%nat; reflexivity.
  - simpl length. cbn [Nat.add List.map app].
    rewrite variadic_loop_step. unfold bind at 1.
    rewrite (stopped_reads_the_flag s c cs Hc), Hstop. cbn [bind_res].
    cbn [is_word]. unfold bind at 1.
    rewrite handleArg_number; [|exact Hobs|].
    + cbn [bind_res fst snd].
      change (Some (VNum x)) with (number_argument x).
      rewrite (IH (args ++ [number_argument x])%list).
      rewrite <- app_assoc. reflexivity.
    + destruct remaining; reflexivity.
Qed.

(** X18: a command word and number literals in parentheses: [handleVariadic]
    calls the function with all the literals up to the closing parenthesis,
    whatever their number above that of its parameters, and with fewer than
    its parameters it fails with the syntax error without calling it. *)
Theorem variadic_call_takes_the_arguments_up_to_the_paren
  name callee nums rest s c cs m :
  procedureScope s !! name = Some callee ->
  isProcedure (Some (VStr name)) = true ->
  is_word (Some (VStr name)) "-" = false ->
  contexts s = c :: cs -> stop c = false ->
  onvalue s = false ->
  handleVariadic (S (S (length nums + m)))
    (VStr "(" :: VStr name :: List.map VNum nums ++ VStr ")" :: rest)%list s
  = if (length nums <? func_length callee)%nat
    then Throw s (SyntaxError ("Not enough args to " ++ name))
    else bind (performCall m callee (List.map number_argument nums))
           (fun r => ret (r, rest)) s.
Proof.
  intros Hbound Hproc Hminus Hc Hstop Hobs.
  cbn [handleVariadic hd_error tl]. rewrite Hproc.
  unfold bind at 1. unfold validateCommand. rewrite Hminus. cbn [negb andb].
  unfold bind at 1. unfold read. cbn [bind_res]. rewrite Hbound.
  unfold ret at 1. cbn [bind_res].
  rewrite (variadic_loop_collects (Some (VStr name)) callee rest s c cs m Hc Hstop Hobs
             nums []).
  simpl app. rewrite length_map. reflexivity.
Qed.

Lemma variadic_call_takes_the_arguments_up_to_the_paren_witness :
  handleVariadic (S (S (length [1%float; 2%float; 3%float] + 3)))
    (VStr "(" :: VStr "sum" :: List.map VNum [1%float; 2%float; 3%float]
       ++ VStr ")" :: [VStr "print"])%list host
  = bind (performCall 3 (Builtin b_sum)
            (List.map number_argument [1%float; 2%float; 3%float]))
      (fun r => ret (r, [VStr "print"])) host.
Proof.
  exact (variadic_call_takes_the_arguments_up_to_the_paren "sum" (Builtin b_sum)
           [1%float; 2%float; 3%float] [VStr "print"] host (mkContext undefined false)
           [] 3 ltac:(vm_compute; reflexivity) eq_refl eq_refl eq_refl eq_refl eq_refl).
Defined.

(** ** [pause], [continue] and [break] *)

(** X19: a running, paused interpreter parks at [checkBreak] on a promise
    that only [continue] or [break] settle: [continue] throws nothing and
    resumes the computation with [paused] cleared, and a further [pause] is
    refused and leaves it parked. *)
Theorem continue_resumes_a_parked_run s :
  running s = true -> paused s = true -> breakFlag s = false ->
  checkBreak s = Await (parked s) (Parked (promises s)) (settle tt)
  /\ Host.thrown (Host.continue (parked s)) = None
  /\ Host.deliver Host.Continue (checkBreak s) = Ret (with_paused false (parked s)) tt
  /\ Host.deliver Host.Pause (checkBreak s) = checkBreak s.
Proof.
  intros Hrun Hpaused Hbrk.
  assert (Hcb : checkBreak s = Await (parked s) (Parked (promises s)) (settle tt)).
  { unfold checkBreak. rewrite Hbrk, Hpaused. reflexivity. }
  rewrite Hcb. repeat split.
  - unfold Host.continue. simpl. rewrite Hrun, Hpaused. reflexivity.
  - unfold Host.deliver, Host.take_turn, Host.continue. simpl.
    rewrite Hrun, Hpaused. simpl.
    unfold Host.first_settlement. simpl. rewrite Nat.eqb_refl. reflexivity.
  - unfold Host.deliver, Host.take_turn, Host.pause. simpl.
    rewrite Hrun, Hpaused. reflexivity.
Qed.

Lemma continue_resumes_a_parked_run_witness :
  checkBreak paused_host = Await (parked paused_host) (Parked 0) (settle tt)
  /\ Host.thrown (Host.continue (parked paused_host)) = None
  /\ Host.deliver Host.Continue (checkBreak paused_host)
     = Ret (with_paused false (parked paused_host)) tt
  /\ Host.deliver Host.Pause (checkBreak paused_host) = checkBreak paused_host.
Proof.
  exact (continue_resumes_a_parked_run paused_host eq_refl eq_refl eq_refl).
Defined.

(** X20: [break] on a parked run rejects the promise of [checkBreak], so that
    the run fails with the break error, and then throws a type error to its
    own caller: the callback stored in [onbreak] has cleared [oncontinue]
    when [break] goes on to call [continue]. *)
Theorem break_on_a_parked_run_throws_to_its_caller s :
  running s = true -> paused s = true -> breakFlag s = false ->
  Host.thrown (Host.break (parked s)) = Some (TypeError "this.oncontinue is not a function")
  /\ exists s',
       Host.deliver Host.Break (checkBreak s) = Throw s' (Error "Break requested")
       /\ breakFlag s' = true /\ paused s' = false /\ oncontinue s' = None.
Proof.
  intros Hrun Hpaused Hbrk.
  assert (Hcb : checkBreak s = Await (parked s) (Parked (promises s)) (settle tt)).
  { unfold checkBreak. rewrite Hbrk, Hpaused. reflexivity. }
  rewrite Hcb.
  assert (Hturn : Host.break (parked s)
                  = Host.Turn (with_paused false
                                 (with_oncontinue None (with_breakFlag true (parked s))))
                      (Some (TypeError "this.oncontinue is not a function"))
                      [(promises s, Rejected (Error "Break requested"))]).
  { unfold Host.break.
    change (running (parked s)) with (running s).
    change (breakFlag (parked s)) with (breakFlag s).
    rewrite Hrun, Hbrk. cbn [negb].
    change (onbreak (with_breakFlag true (parked s)))
      with (Some (PausedBreak (promises s))).
    cbn [Host.call_onbreak].
    change (paused (with_oncontinue None (with_breakFlag true (parked s))))
      with (paused s).
    rewrite Hpaused.
    unfold Host.continue.
    change (running (with_oncontinue None (with_breakFlag true (parked s))))
      with (running s).
    change (paused (with_oncontinue None (with_breakFlag true (parked s))))
      with (paused s).
    rewrite Hrun, Hpaused. reflexivity. }
  split.
  - rewrite Hturn. reflexivity.
  - exists (with_paused false (with_oncontinue None (with_breakFlag true (parked s)))).
    split; [|repeat split].
    unfold Host.deliver, Host.take_turn. rewrite Hturn.
    cbn [Host.settled Host.after Host.pending_id].
    unfold Host.first_settlement. cbn [find fst]. rewrite Nat.eqb_refl. reflexivity.
Qed.

Lemma break_on_a_parked_run_throws_to_its_caller_witness :
  Host.thrown (Host.break (parked paused_host))
  = Some (TypeError "this.oncontinue is not a function")
  /\ exists s',
       Host.deliver Host.Break (checkBreak paused_host) = Throw s' (Error "Break requested")
       /\ breakFlag s' = true /\ paused s' = false /\ oncontinue s' = None.
Proof.
  exact (break_on_a_parked_run_throws_to_its_caller paused_host eq_refl eq_refl eq_refl).
Defined.

(** X21: the guards of the control surface: [pause], [continue] and [break]
    on an interpreter that is not running, [pause] on a paused one,
    [continue] on one that is not paused and [break] on one that is breaking
    already each throw their error, change no field and settle no promise. *)
Theorem control_surface_refuses_out_of_turn s :
  (running s = false ->
     refused (Host.pause s) s "Cannot pause when not running"
     /\ refused (Host.continue s) s "Cannot continue when not running"
     /\ refused (Host.break s) s "Cannot break when not running")
  /\ (running s = true -> paused s = true ->
        refused (Host.pause s) s "Already paused")
  /\ (running s = true -> paused s = false ->
        refused (Host.continue s) s "Cannot continue when not paused")
  /\ (running s = true -> breakFlag s = true ->
        refused (Host.break s) s "Already breaking").
Proof.
  unfold refused, Host.pause, Host.continue, Host.break.
  repeat split; intros; repeat match goal with H : _ = _ |- _ => rewrite H end;
    reflexivity.
Qed.

Lemma control_surface_refuses_out_of_turn_witness :
  refused (Host.break host) host "Cannot break when not running"
  /\ refused (Host.pause paused_host) paused_host "Already paused"
  /\ refused (Host.continue running_host) running_host "Cannot continue when not paused".
Proof.
  split; [|split].
  - exact (proj2 (proj2 (proj1 (control_surface_refuses_out_of_turn host) eq_refl))).
  - exact (proj1 (proj2 (control_surface_refuses_out_of_turn paused_host)) eq_refl eq_refl).
  - exact (proj1 (proj2 (proj2 (control_surface_refuses_out_of_turn running_host)))
             eq_refl eq_refl).
Defined.

(** ** Reading a source

    The parser reads its source by position; [reads source p t] says that
    the source goes on with the text [t] from position [p], which is all
    that a function of the parser depends on. *)

Lemma string_length_app (a b : string) :
  String.length (a ++ b) = (String.length a + String.length b)%nat.
Proof.
  induction a as [|x a IH]; [reflexivity|].
  rewrite string_app_cons. simpl. rewrite IH. reflexivity.
Qed.

Lemma reads_cons source p c t :
  reads source p (String c t) ->
  JS.charAt source p = Some c /\ reads source (S p) t.
Proof.
  intros H. split.
  - specialize (H 0%nat). rewrite Nat.add_0_r in H. exact H.
  - intros i. specialize (H (S i)). rewrite Nat.add_succ_r in H. exact H.
Qed.

Lemma reads_end source p : reads source p "" -> JS.charAt source p = None.
Proof. intros H. specialize (H 0%nat). rewrite Nat.add_0_r in H. exact H. Qed.

Lemma reads_app source p a b :
  reads source p (a ++ b) -> reads source (p + String.length a) b.
Proof.
  revert p. induction a as [|x a IH]; intros p H.
  - simpl. rewrite Nat.add_0_r. exact H.
  - rewrite string_app_cons in H. apply reads_cons in H. destruct H as [_ H].
    simpl. rewrite Nat.add_succ_r. apply (IH (S p)). exact H.
Qed.

Lemma reads_whole source : reads source 0 (source ++ "").
Proof. intros i. rewrite string_app_empty_r. reflexivity. Qed.

(** One turn of each loop of the parser, at a position whose character is
    known. *)
Lemma parseWord_loop_step source fuel token st :
  Parser.parseWord_loop source (S fuel) token st
  = let char := JS.charAt source (Parser.pos st) in
    if Parser.no_char char || Parser.matches reWhitespace char
    then Parser.record (VStr token) st
    else if Parser.matches reDelimiters char then
      if String.eqb token (JS.char_string dquote)
         && negb (Parser.is_char char "[") && negb (Parser.is_char char "]")
      then Parser.parseWord_loop source fuel (token ++ Parser.char_text char)
             (Parser.State (Parser.parsed st) (Parser.stack st) (S (Parser.pos st)))
      else Parser.record (VStr token) st
    else if Parser.is_char char "\" then
      Parser.parseWord_loop source fuel
        (token ++ Parser.char_text (JS.charAt source (S (Parser.pos st))))
        (Parser.State (Parser.parsed st) (Parser.stack st) (S (S (Parser.pos st))))
    else
      Parser.parseWord_loop source fuel (token ++ Parser.char_text char)
        (Parser.State (Parser.parsed st) (Parser.stack st) (S (Parser.pos st))).
Proof.
  cbn [Parser.parseWord_loop]. unfold Parser.bind at 1. unfold Parser.peek at 1.
  cbv zeta.
  destruct (Parser.no_char _ || Parser.matches reWhitespace _); [reflexivity|].
  destruct (Parser.matches reDelimiters _).
  { destruct (_ && _ && _); reflexivity. }
  destruct (Parser.is_char _ "\"); reflexivity.
Qed.

Lemma parseMain_step source fuel st :
  Parser.parseMain source (S fuel) st
  = let char := JS.charAt source (Parser.pos st) in
    if Parser.no_char char then Parser.Throw (SyntaxError "End of input")
    else if Parser.is_char char ";" then Parser.parseComment source fuel st
    else if Parser.is_char char "[" then
      Parser.parseList_loop source fuel
        (Parser.State [] (Parser.parsed st :: Parser.stack st) (S (Parser.pos st)))
    else if Parser.matches reWhitespace char then
      Parser.Ok tt (Parser.State (Parser.parsed st) (Parser.stack st) (S (Parser.pos st)))
    else if Parser.matches reNewline char then
      Parser.Ok tt (Parser.State (Parser.parsed st) (Parser.stack st) (S (Parser.pos st)))
    else if Parser.is_char char "-" || Parser.matches reDigit char then
      Parser.parseNumber source fuel st
    else if Parser.is_char char "(" || Parser.is_char char ")" then
      Parser.Ok tt (Parser.State (Parser.parsed st ++ [VStr (Parser.char_text char)])
                      (Parser.stack st) (S (Parser.pos st)))
    else if Parser.matches reOperators char then
      Parser.Ok tt (Parser.State (Parser.parsed st ++ [VStr (Parser.char_text char)])
                      (Parser.stack st) (S (Parser.pos st)))
    else Parser.parseWord source fuel st.
Proof.
  cbn [Parser.parseMain]. unfold Parser.bind at 1. unfold Parser.peek at 1.
  cbv zeta.
  destruct (Parser.no_char _); [reflexivity|].
  destruct (Parser.is_char _ ";"); [reflexivity|].
  destruct (Parser.is_char _ "["); [reflexivity|].
  destruct (Parser.matches reWhitespace _); [reflexivity|].
  destruct (Parser.matches reNewline _); [reflexivity|].
  destruct (Parser.is_char _ "-" || Parser.matches reDigit _); [reflexivity|].
  destruct (Parser.is_char _ "(" || Parser.is_char _ ")"); [reflexivity|].
  destruct (Parser.matches reOperators _); reflexivity.
Qed.

Lemma parseList_loop_step source fuel st :
  Parser.parseList_loop source (S fuel) st
  = let char := JS.charAt source (Parser.pos st) in
    if Parser.no_char char then Parser.Throw (SyntaxError "End of input in list")
    else if Parser.is_char char "]" then
      match Parser.stack st with
      | saved :: rest =>
          Parser.Ok tt (Parser.State (saved ++ [VList (Parser.parsed st)]) rest
                          (S (Parser.pos st)))
      | [] => Parser.Throw (TypeError "undefined is not iterable")
      end
    else
      match Parser.parseMain source fuel st with
      | Parser.Ok _ st' => Parser.parseList_loop source fuel st'
      | Parser.Throw e => Parser.Throw e
      | Parser.OutOfFuel => Parser.OutOfFuel
      end.
Proof.
  cbn [Parser.parseList_loop]. unfold Parser.bind at 1. unfold Parser.peek at 1.
  cbv zeta.
  destruct (Parser.no_char _); [reflexivity|].
  destruct (Parser.is_char _ "]").
  - unfold Parser.bind, Parser.consume, Parser.pop, Parser.record. simpl.
    destruct (Parser.stack st); reflexivity.
  - reflexivity.
Qed.

Lemma parse_loop_step source fuel st :
  Parser.parse_loop source (S fuel) st
  = if Parser.no_char (JS.charAt source (Parser.pos st)) then Parser.Ok (Parser.parsed st) st
    else
      match Parser.parseMain source fuel st with
      | Parser.Ok _ st' => Parser.parse_loop source fuel st'
      | Parser.Throw e => Parser.Throw e
      | Parser.OutOfFuel => Parser.OutOfFuel
      end.
Proof.
  cbn [Parser.parse_loop]. unfold Parser.bind at 1. unfold Parser.peek at 1.
  destruct (Parser.no_char _); reflexivity.
Qed.

Lemma plain_char_is_no_special c :
  plain_char c = true ->
  reWhitespace c = false /\ reDelimiters c = false /\ JS.char_eqb c "\" = false.
Proof.
  unfold plain_char. intros H.
  apply andb_prop in H. destruct H as [H H3].
  apply andb_prop in H. destruct H as [H1 H2].
  apply negb_true_iff in H1, H2, H3. repeat split; assumption.
Qed.

Lemma no_delimiter_is_no_bracket c :
  reDelimiters c = false ->
  JS.char_eqb c "[" = false /\ JS.char_eqb c "]" = false /\ JS.char_eqb c "-" = false
  /\ JS.char_eqb c "(" = false /\ JS.char_eqb c ")" = false /\ reOperators c = false.
Proof.
  unfold reDelimiters, reOperators. intros H.
  repeat match type of H with
         | (_ || _) = false => apply orb_false_elim in H; destruct H as [H ?]
         end.
  repeat match goal with
         | H : JS.char_eqb c _ = false |- _ => rewrite H; clear H
         end.
  repeat split.
Qed.

Lemma no_whitespace_is_no_newline c : reWhitespace c = false -> reNewline c = false.
Proof.
  unfold reWhitespace, reNewline. intros H.
  repeat match type of H with
         | (_ || _) = false => apply orb_false_elim in H; destruct H as [H ?]
         end.
  repeat match goal with
         | H : JS.char_eqb c _ = false |- _ => rewrite H; clear H
         end.
  reflexivity.
Qed.

(** [parseWord] on a run of plain characters that is followed by the end of
    the source, white space or a bracket: the run is added to the token, and
    the token is recorded. *)
Lemma parseWord_loop_reads source w :
  forall token st fuel rest,
    all_plain w = true -> ends_word rest = true ->
    reads source (Parser.pos st) (w ++ rest) ->
    (String.length w < fuel)%nat ->
    Parser.parseWord_loop source fuel token st
    = Parser.Ok tt (Parser.State (Parser.parsed st ++ [VStr (token ++ w)])
                      (Parser.stack st) (Parser.pos st + String.length w)).
Proof.
  induction w as [|c w IH]; intros token st fuel rest Hw Hrest Hreads Hfuel;
    (destruct fuel as [|fuel]; [simpl in Hfuel; lia|]);
    rewrite parseWord_loop_step; cbv zeta.
  - change ("" ++ rest) with rest in Hreads.
    rewrite string_app_empty_r. simpl String.length. rewrite Nat.add_0_r.
    destruct rest as [|c rest].
    + rewrite (reads_end _ _ Hreads). reflexivity.
    + destruct (reads_cons _ _ _ _ Hreads) as [Hc _]. rewrite Hc.
      simpl in Hrest. cbn [Parser.no_char Parser.matches orb].
      destruct (reWhitespace c) eqn:Hws; [reflexivity|].
      simpl in Hrest.
      assert (Hd : reDelimiters c = true
                   /\ (negb (JS.char_eqb c "[") && negb (JS.char_eqb c "]")) = false).
      { destruct (JS.char_eqb c "[") eqn:E1.
        - apply Ascii.eqb_eq in E1. subst c. split; reflexivity.
        - simpl in Hrest. apply Ascii.eqb_eq in Hrest. subst c. split; reflexivity. }
      destruct Hd as [Hd Hb]. rewrite Hd. cbn [Parser.is_char].
      rewrite <- andb_assoc, Hb, andb_false_r. reflexivity.
  - rewrite string_app_cons in Hreads.
    destruct (reads_cons _ _ _ _ Hreads) as [Hc Hnext]. rewrite Hc.
    simpl in Hw. apply andb_prop in Hw. destruct Hw as [Hplain Hw].
    destruct (plain_char_is_no_special c Hplain) as (Hws & Hd & Hbs).
    cbn [Parser.no_char Parser.matches Parser.is_char orb Parser.char_text].
    rewrite Hws, Hd, Hbs.
    rewrite (IH (token ++ JS.char_string c)
               (Parser.State (Parser.parsed st) (Parser.stack st) (S (Parser.pos st)))
               fuel rest Hw Hrest Hnext ltac:(simpl in Hfuel; lia)).
    cbn [Parser.parsed Parser.stack Parser.pos].
    unfold JS.char_string. rewrite string_app_assoc, string_app_cons.
    change ("" ++ w) with w. simpl String.length.
    rewrite Nat.add_succ_r. reflexivity.
Qed.

(** The rendering of a plain value starts with a character that is not a
    closing bracket, so it is not empty. *)
Lemma plain_starts v :
  plain v = true ->
  exists c t, List_.stringify List_.default_delimiters v = String c t
              /\ JS.char_eqb c "]" = false.
Proof.
  destruct v as [n|b|w|l]; simpl; try discriminate.
  - destruct w as [|c w]; [discriminate|]. simpl. intros H.
    exists c, w. split; [reflexivity|].
    apply andb_prop in H. destruct H as [H _].
    apply andb_prop in H. destruct H as [H _].
    apply andb_prop in H. destruct H as [H _].
    destruct (plain_char_is_no_special c H) as (_ & Hd & _).
    apply (no_delimiter_is_no_bracket c Hd).
  - intros _. eexists "["%char, _. split; [|reflexivity].
    unfold List_.default_delimiters. simpl fst. simpl snd.
    destruct (stringify_loop_concat (List_.stringify ("[", "]")) l "[") as [-> _].
    rewrite string_app_cons. reflexivity.
Qed.

Lemma render_list l :
  List_.stringify List_.default_delimiters (VList l) = String "[" (items_text l).
Proof.
  unfold List_.default_delimiters. simpl List_.stringify.
  destruct (stringify_loop_concat (List_.stringify ("[", "]")) l "[") as [-> _].
  rewrite string_app_assoc, string_app_cons. change ("" ++ ?x) with x. f_equal.
  induction l as [|x [|y l] IH].
  - reflexivity.
  - reflexivity.
  - change (items_text (x :: y :: l))
      with (List_.stringify List_.default_delimiters x ++ " " ++ items_text (y :: l)).
    rewrite <- IH.
    change (String.concat " " (map (List_.stringify ("[", "]")) (x :: y :: l)))
      with (List_.stringify ("[", "]") x ++ " "
            ++ String.concat " " (map (List_.stringify ("[", "]")) (y :: l))).
    rewrite !string_app_assoc. reflexivity.
Qed.

Lemma plain_word_parsed_back source w :
  plain_word w = true -> parsed_back source (VStr w).
Proof.
  intros Hw fuel st rest Hrest Hreads Hfuel.
  destruct w as [|c w]; [discriminate|].
  change (shown (VStr (String c w))) with (String c w) in *.
  destruct fuel as [|fuel]; [lia|].
  rewrite parseMain_step. cbv zeta.
  pose proof Hreads as Hreads'. rewrite string_app_cons in Hreads'.
  destruct (reads_cons _ _ _ _ Hreads') as [Hc _]. rewrite Hc.
  simpl in Hw.
  apply andb_prop in Hw. destruct Hw as [Hw Hall].
  apply andb_prop in Hw. destruct Hw as [Hw Hsemi].
  apply andb_prop in Hw. destruct Hw as [Hplain Hdigit].
  apply negb_true_iff in Hsemi, Hdigit.
  destruct (plain_char_is_no_special c Hplain) as (Hws & Hd & Hbs).
  destruct (no_delimiter_is_no_bracket c Hd) as (Ho & Hcl & Hm & Hpo & Hpc & Hop).
  cbn [Parser.no_char Parser.matches Parser.is_char].
  rewrite Hsemi, Ho, Hws, (no_whitespace_is_no_newline c Hws), Hm, Hdigit, Hpo, Hpc, Hop.
  cbn [orb]. unfold Parser.parseWord.
  rewrite (parseWord_loop_reads source (String c w) "" st fuel rest); try assumption.
  - reflexivity.
  - simpl. rewrite Hplain, Hall. reflexivity.
  - lia.
Qed.

Lemma items_parsed_back source items :
  Forall (parsed_back source) items ->
  forallb plain items = true ->
  forall fuel acc saved stk p rest,
    reads source p (items_text items ++ rest) ->
    (String.length (items_text items) + 2 <= fuel)%nat ->
    Parser.parseList_loop source fuel (Parser.State acc (saved :: stk) p)
    = Parser.Ok tt (Parser.State (saved ++ [VList (acc ++ items)]) stk
                      (p + String.length (items_text items))).
Proof.
  intros Hitems. induction Hitems as [|x items Hx _ IH];
    intros Hplain fuel acc saved stk p rest Hreads Hfuel.
  - destruct fuel as [|fuel]; [lia|].
    rewrite parseList_loop_step. cbv zeta. cbn [Parser.pos Parser.stack Parser.parsed].
    change (items_text [] ++ rest) with (String "]" rest) in Hreads.
    destruct (reads_cons _ _ _ _ Hreads) as [Hc _]. rewrite Hc.
    cbn. rewrite app_nil_r, Nat.add_1_r. reflexivity.
  - simpl in Hplain. apply andb_prop in Hplain. destruct Hplain as [Hpx Hpl].
    destruct (plain_starts x Hpx) as (c & t & Hrender & Hc).
    fold (shown x) in Hrender.
    set (tailtext := match items with [] => "]" | _ :: _ => " " ++ items_text items end).
    assert (Htext : items_text (x :: items) = shown x ++ tailtext) by reflexivity.
    assert (Htail : ends_word (tailtext ++ rest) = true).
    { subst tailtext. destruct items; reflexivity. }
    assert (Hlen : String.length (items_text (x :: items))
                   = (String.length (shown x) + String.length tailtext)%nat).
    { rewrite Htext. apply string_length_app. }
    assert (Hlx : (1 <= String.length (shown x))%nat).
    { rewrite Hrender. simpl. lia. }
    assert (Hlt : (1 <= String.length tailtext)%nat).
    { subst tailtext. destruct items as [|y l]; [simpl; lia|].
      rewrite string_app_cons. simpl. lia. }
    rewrite Htext, string_app_assoc in Hreads.
    destruct fuel as [|fuel]; [lia|].
    rewrite parseList_loop_step. cbv zeta. cbn [Parser.pos Parser.stack Parser.parsed].
    pose proof Hreads as Hfirst. rewrite Hrender, string_app_cons in Hfirst.
    destruct (reads_cons _ _ _ _ Hfirst) as [Hchar _]. rewrite Hchar.
    cbn [Parser.no_char Parser.is_char]. rewrite Hc.
    rewrite (Hx fuel (Parser.State acc (saved :: stk) p) (tailtext ++ rest) Htail Hreads
               ltac:(lia)).
    cbn [Parser.pos Parser.stack Parser.parsed].
    apply reads_app in Hreads.
    rewrite Hlen.
    destruct items as [|y l].
    + rewrite (IH Hpl fuel (acc ++ [x])%list saved stk _ rest Hreads ltac:(simpl; lia)).
      rewrite <- app_assoc. simpl. rewrite Nat.add_assoc. reflexivity.
    + subst tailtext. rewrite string_app_assoc, string_app_cons in Hreads.
      change ("" ++ ?z) with z in Hreads.
      destruct (reads_cons _ _ _ _ Hreads) as [Hspace Hnext].
      assert (Hsp : String.length (" " ++ items_text (y :: l))
                    = S (String.length (items_text (y :: l)))) by reflexivity.
      rewrite Hsp in *.
      destruct fuel as [|fuel]; [lia|].
      rewrite parseList_loop_step. cbv zeta. cbn [Parser.pos Parser.stack Parser.parsed].
      rewrite Hspace. cbn [Parser.no_char Parser.is_char].
      change (JS.char_eqb " " "]") with false. cbv iota.
      destruct fuel as [|fuel]; [lia|].
      rewrite parseMain_step. cbv zeta. cbn [Parser.pos Parser.stack Parser.parsed].
      rewrite Hspace. cbn [Parser.no_char Parser.is_char Parser.matches].
      change (JS.char_eqb " " ";") with false. change (JS.char_eqb " " "[") with false.
      change (reWhitespace " ") with true. cbv iota.
      rewrite (IH Hpl (S fuel) (acc ++ [x])%list saved stk _ rest Hnext ltac:(lia)).
      rewrite <- app_assoc. simpl app.
      f_equal. f_equal. lia.
Qed.

Lemma plain_parsed_back source v : plain v = true -> parsed_back source v.
Proof.
  induction v as [n|b|w|l IH] using value_induction; try discriminate.
  - apply plain_word_parsed_back.
  - intros Hpl fuel st rest Hrest Hreads Hfuel.
    assert (Hitems : Forall (parsed_back source) l).
    { simpl in Hpl. clear -IH Hpl.
      induction IH as [|x l Hx _ IHl]; constructor;
        simpl in Hpl; apply andb_prop in Hpl; destruct Hpl; auto. }
    unfold shown in *. rewrite render_list in *.
    rewrite string_app_cons in Hreads.
    destruct (reads_cons _ _ _ _ Hreads) as [Hc Hnext].
    simpl String.length in *.
    destruct fuel as [|fuel]; [lia|].
    rewrite parseMain_step. cbv zeta. rewrite Hc.
    cbn [Parser.no_char Parser.is_char].
    change (JS.char_eqb "[" ";") with false. change (JS.char_eqb "[" "[") with true.
    cbv iota.
    rewrite (items_parsed_back source l Hitems Hpl fuel [] _ _ _ rest Hnext ltac:(lia)).
    simpl app. rewrite Nat.add_succ_r. reflexivity.
Qed.

(** X22: what [show] prints for a list of plain words, nested at will, is
    parsed back to that list: [parse] returns the one list, given a number of
    steps above the length of the text. *)
Theorem shown_list_is_parsed_back (items : list value) fuel :
  forallb plain items = true ->
  (String.length (Builtins.show_message [Some (VList items)]) + 3 <= fuel)%nat ->
  Parser.parse fuel (Builtins.show_message [Some (VList items)])
  = Parser.Parsed [VList items].
Proof.
  intros Hpl Hfuel.
  assert (Hshow : Builtins.show_message [Some (VList items)] = shown (VList items)).
  { reflexivity. }
  rewrite Hshow in *. set (source := shown (VList items)) in *.
  unfold Parser.parse.
  destruct fuel as [|fuel]; [lia|].
  rewrite parse_loop_step. cbn [Parser.pos].
  pose proof (reads_whole source) as Hreads.
  assert (Hfirst : JS.charAt source 0 = Some "["%char).
  { unfold source, shown. rewrite render_list. reflexivity. }
  rewrite Hfirst. cbn [Parser.no_char].
  rewrite (plain_parsed_back source (VList items) Hpl fuel (Parser.State [] [] 0) ""
             eq_refl Hreads ltac:(fold source; lia)).
  cbn [Parser.parsed Parser.stack Parser.pos app].
  apply reads_app in Hreads. apply reads_end in Hreads. fold source.
  destruct fuel as [|fuel]; [lia|].
  rewrite parse_loop_step. cbn [Parser.pos]. rewrite Hreads. reflexivity.
Qed.

Lemma shown_list_is_parsed_back_witness :
  Builtins.show_message [Some nested_sample] = "[a [b c] d]"
  /\ Parser.parse 40 "[a [b c] d]" = Parser.Parsed [nested_sample].
Proof.
  split; [reflexivity|].
  exact (shown_list_is_parsed_back [VStr "a"; VList [VStr "b"; VStr "c"]; VStr "d"] 40
           eq_refl ltac:(vm_compute; lia)).
Defined.

(** ** Numbers *)

Lemma digit_differs c x : reDigit c = true -> reDigit x = false -> JS.char_eqb c x = false.
Proof.
  intros Hc Hx. destruct (JS.char_eqb c x) eqn:E; [|reflexivity].
  apply Ascii.eqb_eq in E. subst x. congruence.
Qed.

Lemma digits_loop_step source fuel token st :
  Parser.digits_loop source (S fuel) token st
  = let char := JS.charAt source (Parser.pos st) in
    if Parser.matches reDigit char then
      Parser.digits_loop source fuel (token ++ Parser.char_text char)
        (Parser.State (Parser.parsed st) (Parser.stack st) (S (Parser.pos st)))
    else Parser.Ok token st.
Proof.
  cbn [Parser.digits_loop]. unfold Parser.bind at 1. unfold Parser.peek at 1. cbv zeta.
  destruct (Parser.matches reDigit _); reflexivity.
Qed.

Lemma digits_loop_reads source ds :
  forall token st fuel rest,
    all_digits ds = true ->
    match rest with EmptyString => true | String c _ => negb (reDigit c) end = true ->
    reads source (Parser.pos st) (ds ++ rest) ->
    (String.length ds < fuel)%nat ->
    Parser.digits_loop source fuel token st
    = Parser.Ok (token ++ ds)
        (Parser.State (Parser.parsed st) (Parser.stack st)
           (Parser.pos st + String.length ds)).
Proof.
  induction ds as [|c ds IH]; intros token st fuel rest Hds Hrest Hreads Hfuel;
    (destruct fuel as [|fuel]; [simpl in Hfuel; lia|]);
    rewrite digits_loop_step; cbv zeta.
  - change ("" ++ rest) with rest in Hreads.
    rewrite string_app_empty_r. simpl String.length. rewrite Nat.add_0_r.
    destruct rest as [|c rest].
    + rewrite (reads_end _ _ Hreads). destruct st; reflexivity.
    + destruct (reads_cons _ _ _ _ Hreads) as [Hc _]. rewrite Hc.
      apply negb_true_iff in Hrest. cbn [Parser.matches]. rewrite Hrest.
      destruct st; reflexivity.
  - rewrite string_app_cons in Hreads.
    destruct (reads_cons _ _ _ _ Hreads) as [Hc Hnext]. rewrite Hc.
    simpl in Hds. apply andb_prop in Hds. destruct Hds as [Hd Hds].
    cbn [Parser.matches Parser.char_text]. rewrite Hd.
    rewrite (IH (token ++ JS.char_string c)
               (Parser.State (Parser.parsed st) (Parser.stack st) (S (Parser.pos st)))
               fuel rest Hds Hrest Hnext ltac:(simpl in Hfuel; lia)).
    cbn [Parser.parsed Parser.stack Parser.pos].
    unfold JS.char_string. rewrite string_app_assoc, string_app_cons.
    change ("" ++ ds) with ds. simpl String.length.
    rewrite Nat.add_succ_r. reflexivity.
Qed.

(** [parseNumber] on the digits [c ds] of an integer literal: the literal is
    recorded as a number when the end of the source, a delimiter or white
    space follows, and is dropped otherwise; in both cases the parser stops
    behind the digits. *)
Lemma parseNumber_reads source c ds st fuel rest :
  reDigit c = true -> all_digits ds = true -> ends_digits rest = true ->
  reads source (Parser.pos st) (String c ds ++ rest) ->
  (String.length ds < fuel)%nat ->
  Parser.parseNumber source fuel st
  = Parser.Ok tt
      (Parser.State
         (if ends_number rest
          then (Parser.parsed st ++ [VNum (JS.parseFloat (String c ds))])%list
          else Parser.parsed st)
         (Parser.stack st) (Parser.pos st + String.length (String c ds))).
Proof.
  intros Hc Hds Hrest Hreads Hfuel.
  rewrite string_app_cons in Hreads.
  destruct (reads_cons _ _ _ _ Hreads) as [Hchar Hnext].
  assert (Hdig : match rest with EmptyString => true | String x _ => negb (reDigit x) end
                 = true).
  { destruct rest as [|x rest]; [reflexivity|]. simpl in Hrest.
    apply andb_prop in Hrest. destruct Hrest as [Hrest _].
    apply andb_prop in Hrest. destruct Hrest as [Hrest _]. exact Hrest. }
  pose proof (digits_loop_reads source ds (JS.char_string c)
                (Parser.State (Parser.parsed st) (Parser.stack st) (S (Parser.pos st)))
                fuel rest Hds Hdig Hnext Hfuel) as Hloop.
  cbn [Parser.parsed Parser.stack Parser.pos] in Hloop.
  assert (Hafter : reads source (S (Parser.pos st) + String.length ds) rest).
  { apply reads_app. exact Hnext. }
  assert (Hminus : String.eqb (JS.char_string c) "-" = false).
  { pose proof (digit_differs c "-" Hc eq_refl) as H. unfold JS.char_eqb in H.
    unfold JS.char_string. simpl. rewrite H. reflexivity. }
  unfold Parser.parseNumber.
  unfold Parser.bind at 1. unfold Parser.prev at 1.
  unfold Parser.bind at 1. unfold Parser.peek at 1. rewrite Hchar.
  cbn [Parser.char_text].
  unfold Parser.bind at 1. unfold Parser.consume at 1.
  unfold Parser.bind at 1. unfold Parser.peek at 1.
  rewrite Hminus. cbn [andb].
  unfold Parser.bind at 1. rewrite Hloop.
  unfold JS.char_string. rewrite string_app_cons. change ("" ++ ds) with ds.
  simpl String.length. rewrite Nat.add_succ_r.
  unfold Parser.bind, Parser.peek, Parser.ret, Parser.record.
  destruct rest as [|x rest].
  - apply reads_end in Hafter. cbn [Nat.add] in Hafter.
    repeat (progress (cbn [Parser.pos Parser.parsed Parser.stack Nat.add Parser.is_char
                           Parser.no_char Parser.matches orb ends_number];
                      rewrite ?Hafter)).
    reflexivity.
  - destruct (reads_cons _ _ _ _ Hafter) as [Hx _]. cbn [Nat.add] in Hx.
    simpl in Hrest.
    apply andb_prop in Hrest. destruct Hrest as [Hrest He].
    apply andb_prop in Hrest. destruct Hrest as [_ Hdot].
    apply negb_true_iff in He, Hdot.
    repeat (progress (cbn [Parser.pos Parser.parsed Parser.stack Nat.add Parser.is_char
                           Parser.no_char Parser.matches orb ends_number];
                      rewrite ?Hx, ?Hdot, ?He)).
    destruct (reDelimiters x || reWhitespace x); reflexivity.
Qed.

Lemma digit_is_no_space c : reDigit c = true -> reWhitespace c = false.
Proof.
  intros Hc. unfold reWhitespace.
  rewrite (digit_differs c " " Hc eq_refl), (digit_differs c "009" Hc eq_refl),
    (digit_differs c "010" Hc eq_refl), (digit_differs c "013" Hc eq_refl).
  reflexivity.
Qed.

Lemma parseMain_at_digit source c fuel st :
  JS.charAt source (Parser.pos st) = Some c -> reDigit c = true ->
  Parser.parseMain source (S fuel) st = Parser.parseNumber source fuel st.
Proof.
  intros Hchar Hc. rewrite parseMain_step. cbv zeta. rewrite Hchar.
  cbn [Parser.no_char Parser.is_char Parser.matches].
  rewrite (digit_differs c ";" Hc eq_refl), (digit_differs c "[" Hc eq_refl).
  rewrite (digit_is_no_space c Hc), (no_whitespace_is_no_newline c (digit_is_no_space c Hc)).
  rewrite Hc, orb_true_r. reflexivity.
Qed.

Lemma parse_loop_at_end source fuel st :
  reads source (Parser.pos st) "" ->
  Parser.parse_loop source (S fuel) st = Parser.Ok (Parser.parsed st) st.
Proof.
  intros H. rewrite parse_loop_step. rewrite (reads_end _ _ H). reflexivity.
Qed.

Lemma parse_loop_turn source fuel st c st' :
  JS.charAt source (Parser.pos st) = Some c ->
  Parser.parseMain source fuel st = Parser.Ok tt st' ->
  Parser.parse_loop source (S fuel) st = Parser.parse_loop source fuel st'.
Proof.
  intros Hc Hmain. rewrite parse_loop_step, Hc, Hmain. reflexivity.
Qed.

Lemma reads_from_start source t : source = t -> reads source 0 (t ++ "").
Proof. intros ->. apply reads_whole. Qed.

(** X23: a run of digits is one number when the source ends behind it or
    white space follows; when a word follows without a space, the digits are
    read and dropped: no token stands for them and no error is raised. *)
Theorem integer_literal_is_kept_or_dropped c ds w fuel :
  reDigit c = true -> all_digits ds = true ->
  plain_word w = true -> ends_digits w = true ->
  (String.length (String c ds) + String.length w + 5 <= fuel)%nat ->
  Parser.parse fuel (String c ds) = Parser.Parsed [VNum (JS.parseFloat (String c ds))]
  /\ Parser.parse fuel (String c ds ++ " " ++ w)
     = Parser.Parsed [VNum (JS.parseFloat (String c ds)); VStr w]
  /\ Parser.parse fuel (String c ds ++ w) = Parser.Parsed [VStr w].
Proof.
  intros Hc Hds Hw Hew Hfuel. simpl String.length in Hfuel.
  destruct fuel as [|[|[|[|[|fuel]]]]]; try lia.
  assert (Hwa : exists a w', w = String a w') by (destruct w; [discriminate | eauto]).
  destruct Hwa as (a & w' & Hwa).
  assert (Hnum : ends_number w = false).
  { rewrite Hwa in *. simpl in Hw |- *.
    apply andb_prop in Hw. destruct Hw as [Hw _].
    apply andb_prop in Hw. destruct Hw as [Hw _].
    apply andb_prop in Hw. destruct Hw as [Hw _].
    destruct (plain_char_is_no_special a Hw) as (-> & -> & _). reflexivity. }
  unfold Parser.parse. repeat split.
  - set (source := String c ds).
    pose proof (reads_from_start source (String c ds) eq_refl) as Hreads.
    set (st0 := Parser.State [] [] 0).
    assert (Hmain : Parser.parseMain source (S (S (S (S fuel)))) st0
                    = Parser.Ok tt (Parser.State [VNum (JS.parseFloat source)] []
                                      (String.length source))).
    { rewrite (parseMain_at_digit source c _ st0 eq_refl Hc).
      rewrite (parseNumber_reads source c ds st0 (S (S (S fuel))) "" Hc Hds eq_refl Hreads
                 ltac:(lia)).
      reflexivity. }
    rewrite (parse_loop_turn source _ st0 c _ eq_refl Hmain).
    rewrite parse_loop_at_end; [reflexivity|].
    apply (reads_app source 0 source ""). exact Hreads.
  - set (source := String c ds ++ " " ++ w).
    pose proof (reads_from_start source (String c ds ++ " " ++ w) eq_refl) as Hreads.
    rewrite string_app_assoc in Hreads.
    set (st0 := Parser.State [] [] 0).
    assert (Hmain : Parser.parseMain source (S (S (S (S fuel)))) st0
                    = Parser.Ok tt (Parser.State [VNum (JS.parseFloat (String c ds))] []
                                      (String.length (String c ds)))).
    { rewrite (parseMain_at_digit source c _ st0 eq_refl Hc).
      rewrite (parseNumber_reads source c ds st0 (S (S (S fuel))) ((" " ++ w) ++ "")
                 Hc Hds eq_refl Hreads ltac:(lia)).
      reflexivity. }
    rewrite (parse_loop_turn source _ st0 c _ eq_refl Hmain).
    apply (reads_app source 0) in Hreads.
    rewrite string_app_assoc, string_app_cons in Hreads. change ("" ++ ?z) with z in Hreads.
    destruct (reads_cons _ _ _ _ Hreads) as [Hspace Hword].
    simpl Nat.add in Hspace, Hword.
    simpl String.length.
    erewrite parse_loop_turn; [|exact Hspace|].
    2:{ rewrite parseMain_step. cbv zeta. cbn [Parser.pos]. rewrite Hspace. reflexivity. }
    cbn [Parser.parsed Parser.stack Parser.pos].
    pose proof (plain_word_parsed_back source w Hw (S (S fuel))
                  (Parser.State [VNum (JS.parseFloat (String c ds))] []
                     (S (S (String.length ds)))) "" eq_refl Hword
                  ltac:(unfold shown; simpl List_.stringify; lia)) as Hmain2.
    pose proof Hword as Hword'.
    rewrite Hwa in Hword'. rewrite string_app_cons in Hword'.
    destruct (reads_cons _ _ _ _ Hword') as [Hfirst _].
    erewrite parse_loop_turn; [|exact Hfirst|exact Hmain2].
    apply reads_app in Hword.
    rewrite parse_loop_at_end; [reflexivity|]. exact Hword.
  - set (source := String c ds ++ w).
    pose proof (reads_from_start source (String c ds ++ w) eq_refl) as Hreads.
    rewrite string_app_assoc in Hreads.
    set (st0 := Parser.State [] [] 0).
    assert (Hmain : Parser.parseMain source (S (S (S (S fuel)))) st0
                    = Parser.Ok tt (Parser.State [] [] (String.length (String c ds)))).
    { rewrite (parseMain_at_digit source c _ st0 eq_refl Hc).
      rewrite (parseNumber_reads source c ds st0 (S (S (S fuel))) (w ++ "") Hc Hds
                 ltac:(rewrite string_app_empty_r; exact Hew) Hreads ltac:(lia)).
      rewrite string_app_empty_r, Hnum. reflexivity. }
    rewrite (parse_loop_turn source _ st0 c _ eq_refl Hmain).
    apply (reads_app source 0) in Hreads. simpl Nat.add in Hreads.
    pose proof (plain_word_parsed_back source w Hw (S (S (S fuel)))
                  (Parser.State [] [] (String.length (String c ds))) "" eq_refl Hreads
                  ltac:(unfold shown; simpl List_.stringify; lia)) as Hmain2.
    pose proof Hreads as Hreads'.
    rewrite Hwa in Hreads'. rewrite string_app_cons in Hreads'.
    destruct (reads_cons _ _ _ _ Hreads') as [Hfirst _].
    erewrite parse_loop_turn; [|exact Hfirst|exact Hmain2].
    apply reads_app in Hreads.
    rewrite parse_loop_at_end; [reflexivity|]. exact Hreads.
Qed.

Lemma integer_literal_is_kept_or_dropped_witness :
  Parser.parse 20 "12" = Parser.Parsed [VNum (JS.parseFloat "12")]
  /\ Parser.parse 20 "12 abc" = Parser.Parsed [VNum (JS.parseFloat "12"); VStr "abc"]
  /\ Parser.parse 20 "12abc" = Parser.Parsed [VStr "abc"].
Proof.
  exact (integer_literal_is_kept_or_dropped "1" "2" "abc" 20 eq_refl eq_refl eq_refl eq_refl
           ltac:(vm_compute; lia)).
Defined.

(** ** Comments *)

Lemma parseComment_loop_step source fuel st :
  Parser.parseComment_loop source (S fuel) st
  = let char := JS.charAt source (Parser.pos st) in
    let st' := Parser.State (Parser.parsed st) (Parser.stack st) (S (Parser.pos st)) in
    if Parser.no_char char || Parser.matches reNewline char then Parser.Ok tt st'
    else Parser.parseComment_loop source fuel st'.
Proof.
  cbn [Parser.parseComment_loop]. unfold Parser.bind at 1. unfold Parser.peek at 1.
  unfold Parser.bind at 1. unfold Parser.consume at 1. cbv zeta.
  destruct (_ || _); reflexivity.
Qed.

Lemma reads_past_the_end source p k : reads source p "" -> reads source (p + k) "".
Proof. intros H i. rewrite <- Nat.add_assoc. rewrite (H (k + i)%nat). reflexivity. Qed.

(** The loop of [parseComment] runs to the end of the line, or of the
    source, and steps over the character it stops at. *)
Lemma parseComment_loop_reads source text :
  forall st fuel rest,
    on_one_line text = true ->
    match rest with EmptyString => true | String c _ => reNewline c end = true ->
    reads source (Parser.pos st) (text ++ rest) ->
    (String.length text < fuel)%nat ->
    Parser.parseComment_loop source fuel st
    = Parser.Ok tt (Parser.State (Parser.parsed st) (Parser.stack st)
                      (S (Parser.pos st + String.length text))).
Proof.
  induction text as [|c text IH]; intros st fuel rest Htext Hrest Hreads Hfuel;
    (destruct fuel as [|fuel]; [simpl in Hfuel; lia|]);
    rewrite parseComment_loop_step; cbv zeta.
  - change ("" ++ rest) with rest in Hreads. simpl String.length. rewrite Nat.add_0_r.
    destruct rest as [|c rest].
    + rewrite (reads_end _ _ Hreads). reflexivity.
    + destruct (reads_cons _ _ _ _ Hreads) as [Hc _]. rewrite Hc.
      cbn [Parser.no_char Parser.matches orb]. rewrite Hrest. reflexivity.
  - rewrite string_app_cons in Hreads.
    destruct (reads_cons _ _ _ _ Hreads) as [Hc Hnext]. rewrite Hc.
    simpl in Htext. apply andb_prop in Htext. destruct Htext as [Hnl Htext].
    apply negb_true_iff in Hnl.
    cbn [Parser.no_char Parser.matches orb]. rewrite Hnl.
    rewrite (IH (Parser.State (Parser.parsed st) (Parser.stack st) (S (Parser.pos st)))
               fuel rest Htext Hrest Hnext ltac:(simpl in Hfuel; lia)).
    cbn [Parser.parsed Parser.stack Parser.pos]. simpl String.length.
    rewrite Nat.add_succ_r. reflexivity.
Qed.

Lemma parseMain_at_semicolon source fuel st text rest :
  on_one_line text = true ->
  match rest with EmptyString => true | String c _ => reNewline c end = true ->
  reads source (Parser.pos st) (String ";" text ++ rest) ->
  (String.length text < fuel)%nat ->
  Parser.parseMain source (S fuel) st
  = Parser.Ok tt (Parser.State (Parser.parsed st) (Parser.stack st)
                    (S (S (Parser.pos st + String.length text)))).
Proof.
  intros Htext Hrest Hreads Hfuel.
  rewrite string_app_cons in Hreads.
  destruct (reads_cons _ _ _ _ Hreads) as [Hc Hnext].
  rewrite parseMain_step. cbv zeta. rewrite Hc.
  change (Parser.no_char (Some ";"%char)) with false.
  change (Parser.is_char (Some ";"%char) ";") with true. cbv iota.
  unfold Parser.parseComment, Parser.bind, Parser.consume.
  rewrite (parseComment_loop_reads source text
             (Parser.State (Parser.parsed st) (Parser.stack st) (S (Parser.pos st)))
             fuel rest Htext Hrest Hnext Hfuel).
  reflexivity.
Qed.

(** X24: a comment yields no token: a source that is one comment parses to
    the empty list, and a word on the line after a comment is the only token. *)
Theorem comment_yields_no_token text w fuel :
  on_one_line text = true -> plain_word w = true ->
  (String.length text + String.length w + 5 <= fuel)%nat ->
  Parser.parse fuel (String ";" text) = Parser.Parsed []
  /\ Parser.parse fuel (String ";" text ++ String line_feed w) = Parser.Parsed [VStr w].
Proof.
  intros Htext Hw Hfuel.
  destruct fuel as [|[|[|[|[|fuel]]]]]; try lia.
  assert (Hwa : exists a w', w = String a w') by (destruct w; [discriminate | eauto]).
  destruct Hwa as (a & w' & Hwa).
  unfold Parser.parse. split.
  - set (source := String ";" text).
    pose proof (reads_from_start source (String ";" text) eq_refl) as Hreads.
    set (st0 := Parser.State [] [] 0).
    rewrite (parse_loop_turn source _ st0 ";" _ eq_refl
               (parseMain_at_semicolon source (S (S (S fuel))) st0 text "" Htext eq_refl
                  Hreads ltac:(lia))).
    rewrite parse_loop_at_end; [reflexivity|].
    apply (reads_app source 0 source "") in Hreads.
    apply (reads_past_the_end source _ 1) in Hreads.
    cbn [Parser.pos]. simpl in Hreads |- *. rewrite Nat.add_1_r in Hreads. exact Hreads.
  - set (source := String ";" text ++ String line_feed w).
    pose proof (reads_from_start source (String ";" text ++ String line_feed w) eq_refl)
      as Hreads.
    rewrite string_app_assoc in Hreads.
    set (st0 := Parser.State [] [] 0).
    rewrite (parse_loop_turn source _ st0 ";" _ eq_refl
               (parseMain_at_semicolon source (S (S (S fuel))) st0 text
                  (String line_feed w ++ "") Htext eq_refl Hreads ltac:(lia))).
    apply (reads_app source 0) in Hreads. rewrite string_app_cons in Hreads.
    destruct (reads_cons _ _ _ _ Hreads) as [_ Hword].
    cbn [Parser.pos st0]. simpl Nat.add in Hword |- *. simpl String.length in Hword.
    pose proof (plain_word_parsed_back source w Hw (S (S (S fuel)))
                  (Parser.State [] [] (S (S (String.length text)))) "" eq_refl Hword
                  ltac:(unfold shown; simpl List_.stringify; lia)) as Hmain2.
    pose proof Hword as Hword'.
    rewrite Hwa in Hword'. rewrite string_app_cons in Hword'.
    destruct (reads_cons _ _ _ _ Hword') as [Hfirst _].
    erewrite parse_loop_turn; [|exact Hfirst|exact Hmain2].
    apply reads_app in Hword.
    rewrite parse_loop_at_end; [reflexivity|]. exact Hword.
Qed.

Lemma comment_yields_no_token_witness :
  Parser.parse 30 "; a note" = Parser.Parsed []
  /\ Parser.parse 30 ("; a note" ++ String line_feed "print") = Parser.Parsed [VStr "print"].
Proof.
  exact (comment_yields_no_token " a note" "print" 30 eq_refl eq_refl
           ltac:(vm_compute; lia)).
Defined.

(** ** Backslashes *)

(** The loop of [parseWord] takes an escaped character in one turn, whatever
    the character is. *)
Lemma parseWord_loop_escaped source w :
  forall token st fuel rest,
    reads source (Parser.pos st) (escaped w ++ rest) ->
    Parser.parseWord_loop source (String.length w + fuel) token st
    = Parser.parseWord_loop source fuel (token ++ w)
        (Parser.State (Parser.parsed st) (Parser.stack st)
           (Parser.pos st + String.length (escaped w))).
Proof.
  induction w as [|c w IH]; intros token st fuel rest Hreads.
  - simpl. rewrite string_app_empty_r, Nat.add_0_r. destruct st; reflexivity.
  - change (String.length (String c w) + fuel)%nat with (S (String.length w + fuel)).
    rewrite parseWord_loop_step. cbv zeta.
    change (escaped (String c w) ++ rest)
      with (String "\" (String c (escaped w ++ rest))) in Hreads.
    destruct (reads_cons _ _ _ _ Hreads) as [Hb Hnext].
    destruct (reads_cons _ _ _ _ Hnext) as [Hc Hw].
    rewrite Hb, Hc.
    change (Parser.no_char (Some "\"%char) || Parser.matches reWhitespace (Some "\"%char))
      with false.
    change (Parser.matches reDelimiters (Some "\"%char)) with false.
    change (Parser.is_char (Some "\"%char) "\") with true. cbv iota.
    rewrite (IH _ (Parser.State (Parser.parsed st) (Parser.stack st)
                     (S (S (Parser.pos st)))) fuel rest Hw).
    cbn [Parser.parsed Parser.stack Parser.pos Parser.char_text].
    unfold JS.char_string. rewrite string_app_assoc.
    change (String c "" ++ w) with (String c w).
    replace (S (S (Parser.pos st)) + String.length (escaped w))%nat
      with (Parser.pos st + String.length (escaped (String c w)))%nat
      by (simpl; lia).
    reflexivity.
Qed.

Lemma parseWord_loop_escaped_closed source w token st fuel :
  reads source (Parser.pos st) (escaped w ++ "") ->
  Parser.parseWord_loop source (String.length w + S fuel) token st
  = Parser.Ok tt (Parser.State (Parser.parsed st ++ [VStr (token ++ w)]) (Parser.stack st)
                    (Parser.pos st + String.length (escaped w))).
Proof.
  intros Hreads. rewrite (parseWord_loop_escaped source w token st (S fuel) "" Hreads).
  rewrite parseWord_loop_step. cbv zeta. cbn [Parser.pos].
  apply reads_app in Hreads. rewrite (reads_end _ _ Hreads). reflexivity.
Qed.

Lemma parseWord_loop_escaped_open source w token st fuel :
  reads source (Parser.pos st) (escaped w ++ "\") ->
  Parser.parseWord_loop source (String.length w + S (S fuel)) token st
  = Parser.Ok tt (Parser.State (Parser.parsed st ++ [VStr (token ++ w)]) (Parser.stack st)
                    (S (S (Parser.pos st + String.length (escaped w))))).
Proof.
  intros Hreads. rewrite (parseWord_loop_escaped source w token st (S (S fuel)) "\" Hreads).
  apply reads_app in Hreads.
  destruct (reads_cons _ _ _ _ Hreads) as [Hb Hend].
  pose proof (reads_end _ _ Hend) as He1.
  pose proof (reads_end _ _ (reads_past_the_end _ _ 1 Hend)) as He2.
  rewrite Nat.add_1_r in He2.
  rewrite parseWord_loop_step. cbv zeta. cbn [Parser.pos Parser.parsed Parser.stack].
  rewrite Hb, He1.
  change (Parser.no_char (Some "\"%char) || Parser.matches reWhitespace (Some "\"%char))
    with false.
  change (Parser.matches reDelimiters (Some "\"%char)) with false.
  change (Parser.is_char (Some "\"%char) "\") with true. cbv iota.
  rewrite parseWord_loop_step. cbv zeta. cbn [Parser.pos Parser.parsed Parser.stack].
  rewrite He2. cbn [Parser.no_char orb Parser.char_text].
  rewrite string_app_empty_r. reflexivity.
Qed.

Lemma parseMain_at_backslash source fuel st :
  JS.charAt source (Parser.pos st) = Some "\"%char ->
  Parser.parseMain source (S fuel) st = Parser.parseWord_loop source fuel "" st.
Proof. intros H. rewrite parseMain_step. cbv zeta. rewrite H. reflexivity. Qed.

(** X26: a backslash takes the character behind it into the word, whatever
    the character is: a word written with a backslash before each of its
    characters is read as that word, white space, brackets, operators,
    digits, semicolons and backslashes included. A backslash at the end of
    the source is dropped: the error for the end of the input at a backslash
    is never raised. *)
Theorem backslash_takes_any_character w fuel :
  w <> "" -> (String.length w + 4 <= fuel)%nat ->
  Parser.parse fuel (escaped w) = Parser.Parsed [VStr w]
  /\ Parser.parse fuel (escaped w ++ "\") = Parser.Parsed [VStr w].
Proof.
  intros Hw Hfuel.
  destruct w as [|c w]; [congruence|]. clear Hw.
  assert (Hf : exists k, fuel = S (S (String.length (String c w) + S (S k)))).
  { exists (fuel - String.length (String c w) - 4)%nat. lia. }
  destruct Hf as (k & ->). clear Hfuel.
  unfold Parser.parse.
  set (st0 := Parser.State [] [] 0).
  split.
  - set (source := escaped (String c w)).
    pose proof (reads_from_start source (escaped (String c w)) eq_refl) as Hreads.
    assert (Hmain : Parser.parseMain source (S (String.length (String c w) + S (S k))) st0
                    = Parser.Ok tt (Parser.State [VStr (String c w)] []
                                      (String.length (escaped (String c w))))).
    { rewrite (parseMain_at_backslash source _ st0 eq_refl).
      exact (parseWord_loop_escaped_closed source (String c w) "" st0 (S k) Hreads). }
    rewrite (parse_loop_turn source _ st0 "\" _ eq_refl Hmain).
    change (String.length (String c w) + S (S k))%nat
      with (S (String.length w + S (S k))).
    rewrite parse_loop_at_end; [reflexivity|].
    apply (reads_app source 0) in Hreads. exact Hreads.
  - set (source := escaped (String c w) ++ "\").
    assert (Hopen : reads source 0 (escaped (String c w) ++ "\")).
    { intros i. reflexivity. }
    assert (Hmain : Parser.parseMain source (S (String.length (String c w) + S (S k))) st0
                    = Parser.Ok tt (Parser.State [VStr (String c w)] []
                                      (S (S (String.length (escaped (String c w))))))).
    { rewrite (parseMain_at_backslash source _ st0 eq_refl).
      exact (parseWord_loop_escaped_open source (String c w) "" st0 k Hopen). }
    rewrite (parse_loop_turn source _ st0 "\" _ eq_refl Hmain).
    change (String.length (String c w) + S (S k))%nat
      with (S (String.length w + S (S k))).
    rewrite parse_loop_at_end; [reflexivity|].
    apply (reads_app source 0) in Hopen.
    destruct (reads_cons _ _ _ _ Hopen) as [_ Hend].
    apply (reads_past_the_end _ _ 1) in Hend. rewrite Nat.add_1_r in Hend. exact Hend.
Qed.

Lemma backslash_takes_any_character_witness :
  Parser.parse 7 (escaped "a b") = Parser.Parsed [VStr "a b"]
  /\ Parser.parse 7 (escaped "a b" ++ "\") = Parser.Parsed [VStr "a b"].
Proof.
  exact (backslash_takes_any_character "a b" 7 ltac:(discriminate) ltac:(simpl; lia)).
Defined.

(** ** Lists left open *)

(** The loop of [parseList] reads the items up to the end of the source and
    fails there. *)
Lemma parseList_loop_runs_out source items :
  Forall (parsed_back source) items ->
  forallb plain items = true ->
  forall fuel acc stk p,
    reads source p (open_text items ++ "") ->
    (String.length (open_text items) + 3 <= fuel)%nat ->
    Parser.parseList_loop source fuel (Parser.State acc stk p)
    = Parser.Throw (SyntaxError "End of input in list").
Proof.
  intros Hitems. induction Hitems as [|x items Hx _ IH];
    intros Hplain fuel acc stk p Hreads Hfuel.
  - destruct fuel as [|fuel]; [lia|].
    rewrite parseList_loop_step. cbv zeta. cbn [Parser.pos].
    rewrite (reads_end _ _ Hreads). reflexivity.
  - simpl in Hplain. apply andb_prop in Hplain. destruct Hplain as [Hpx Hpl].
    destruct (plain_starts x Hpx) as (c & t & Hrender & Hc).
    fold (shown x) in Hrender.
    set (tailtext := match items with [] => "" | _ :: _ => " " ++ open_text items end).
    assert (Htext : open_text (x :: items) = shown x ++ tailtext) by reflexivity.
    assert (Htail : ends_word (tailtext ++ "") = true).
    { subst tailtext. destruct items; reflexivity. }
    assert (Hlen : String.length (open_text (x :: items))
                   = (String.length (shown x) + String.length tailtext)%nat).
    { rewrite Htext. apply string_length_app. }
    assert (Hlx : (1 <= String.length (shown x))%nat).
    { rewrite Hrender. simpl. lia. }
    rewrite Htext, string_app_assoc in Hreads.
    destruct fuel as [|fuel]; [lia|].
    rewrite parseList_loop_step. cbv zeta. cbn [Parser.pos Parser.stack Parser.parsed].
    pose proof Hreads as Hfirst. rewrite Hrender, string_app_cons in Hfirst.
    destruct (reads_cons _ _ _ _ Hfirst) as [Hchar _]. rewrite Hchar.
    cbn [Parser.no_char Parser.is_char]. rewrite Hc.
    rewrite (Hx fuel (Parser.State acc stk p) (tailtext ++ "") Htail Hreads ltac:(lia)).
    cbn [Parser.pos Parser.stack Parser.parsed].
    apply reads_app in Hreads.
    destruct items as [|y l].
    + apply (IH Hpl fuel (acc ++ [x])%list stk _ Hreads). simpl. lia.
    + subst tailtext. rewrite string_app_assoc, string_app_cons in Hreads.
      change ("" ++ ?z) with z in Hreads.
      destruct (reads_cons _ _ _ _ Hreads) as [Hspace Hnext].
      assert (Hsp : String.length (" " ++ open_text (y :: l))
                    = S (String.length (open_text (y :: l)))) by reflexivity.
      rewrite Hsp in *.
      destruct fuel as [|fuel]; [lia|].
      rewrite parseList_loop_step. cbv zeta. cbn [Parser.pos Parser.stack Parser.parsed].
      rewrite Hspace. cbn [Parser.no_char Parser.is_char].
      change (JS.char_eqb " " "]") with false. cbv iota.
      destruct fuel as [|fuel]; [lia|].
      rewrite parseMain_step. cbv zeta. cbn [Parser.pos Parser.stack Parser.parsed].
      rewrite Hspace. cbn [Parser.no_char Parser.is_char Parser.matches].
      change (JS.char_eqb " " ";") with false. change (JS.char_eqb " " "[") with false.
      change (reWhitespace " ") with true. cbv iota.
      apply (IH Hpl (S fuel) (acc ++ [x])%list stk _ Hnext). lia.
Qed.

(** X27: a list that is not closed is a syntax error: what [show] prints for
    a list of plain words, nested at will, fails to parse once its last
    bracket is cut off, with the error for the end of the input in a list. *)
Theorem unclosed_list_is_a_syntax_error (items : list value) fuel :
  forallb plain items = true ->
  (String.length (open_text items) + 5 <= fuel)%nat ->
  Builtins.show_message [Some (VList items)] = String "[" (open_text items) ++ "]"
  /\ Parser.parse fuel (String "[" (open_text items))
     = Parser.Failed (SyntaxError "End of input in list").
Proof.
  intros Hpl Hfuel. split.
  - change (Builtins.show_message [Some (VList items)])
      with (List_.stringify List_.default_delimiters (VList items)).
    rewrite render_list. rewrite string_app_cons. f_equal.
    clear. induction items as [|x [|y l] IH]; [reflexivity| |].
    + change (items_text [x]) with (shown x ++ "]").
      change (open_text [x]) with (shown x ++ "").
      rewrite string_app_empty_r. reflexivity.
    + change (items_text (x :: y :: l)) with (shown x ++ " " ++ items_text (y :: l)).
      change (open_text (x :: y :: l)) with (shown x ++ " " ++ open_text (y :: l)).
      rewrite IH, !string_app_assoc. reflexivity.
  - set (source := String "[" (open_text items)).
    unfold Parser.parse.
    destruct fuel as [|[|fuel]]; [lia|lia|].
    rewrite parse_loop_step. cbn [Parser.pos].
    change (JS.charAt source 0) with (Some "["%char). cbn [Parser.no_char].
    rewrite parseMain_step. cbv zeta. cbn [Parser.pos Parser.parsed Parser.stack].
    change (JS.charAt source 0) with (Some "["%char).
    cbn [Parser.no_char Parser.is_char].
    change (JS.char_eqb "[" ";") with false. change (JS.char_eqb "[" "[") with true.
    cbv iota.
    assert (Hall : Forall (parsed_back source) items).
    { generalize source. clear -Hpl. intros source.
      induction items as [|x l IH]; constructor.
      - apply plain_parsed_back. simpl in Hpl. apply andb_prop in Hpl. tauto.
      - apply IH. simpl in Hpl. apply andb_prop in Hpl. tauto. }
    assert (Hreads : reads source 1 (open_text items ++ "")).
    { intros i. rewrite string_app_empty_r. reflexivity. }
    rewrite (parseList_loop_runs_out source items Hall Hpl fuel [] [[]] 1%nat Hreads
               ltac:(lia)).
    reflexivity.
Qed.

Lemma unclosed_list_is_a_syntax_error_witness :
  Builtins.show_message [Some (VList [VStr "fd"; VList [VStr "a"]])]
  = String "[" (open_text [VStr "fd"; VList [VStr "a"]]) ++ "]"
  /\ Parser.parse 13 (String "[" (open_text [VStr "fd"; VList [VStr "a"]]))
     = Parser.Failed (SyntaxError "End of input in list").
Proof.
  exact (unclosed_list_is_a_syntax_error [VStr "fd"; VList [VStr "a"]] 13
           eq_refl ltac:(simpl; lia)).
Defined.
